(** * Infinity memory subsystem: vector store, chunker and rehydration

    A shallow embedding of [stacks/memory/vector_store.py] and
    [stacks/memory/rehydration.py], followed by the properties of the
    memory/retrieval specification that were checked against it.

    Conventions of the embedding:
    - a Python [str] is a list of characters ([str]); a character is a code
      point below 256, with Python's classification of white space on that
      range;
    - a Python [int] is a [Z]; list indices and slices follow Python's rules
      for negative and out-of-range bounds ([py_slice]);
    - a Python [dict] with [str] keys is an association list in insertion
      order ([dict]); assignment to an existing key keeps its position;
    - a Python [float] is an element of a type [F] with the operations the
      code uses ([Arith], [Log1p]); the code is written once and read at the
      exact reals ([R]) and at IEEE binary64 ([float]);
    - a [while] loop takes fuel; [None] means the fuel ran out. *)

From Stdlib Require Import String Ascii ZArith List Bool Arith Lia.
From Stdlib Require Import Reals Lra Floats Permutation Sorted.
From Stdlib Require DecimalString DecimalNat.
Import ListNotations.

Set Implicit Arguments.
Unset Strict Implicit.
Set Warnings "-register-all".

(* ------------------------------------------------------------------ *)
(** ** Python strings and lists *)

Definition str : Type := list ascii.

Definition s (lit : string) : str := list_ascii_of_string lit.

Fixpoint eqb_str (a b : str) : bool :=
  match a, b with
  | [], [] => true
  | x :: a', y :: b' => Ascii.eqb x y && eqb_str a' b'
  | _, _ => false
  end.

Definition code (c : ascii) : N := N_of_ascii c.

Definition in_range (lo hi : N) (c : ascii) : bool :=
  (lo <=? code c)%N && (code c <=? hi)%N.

(** [str.isspace] on one character, which is also what [\s] matches. *)
Definition is_space (c : ascii) : bool :=
  in_range 9 13 c || in_range 28 32 c || (code c =? 133)%N || (code c =? 160)%N.

(** Maximal runs of characters satisfying [p], left to right. *)
Fixpoint runs_from (p : ascii -> bool) (cur : str) (text : str) : list str :=
  match text with
  | [] => match cur with [] => [] | _ => [cur] end
  | c :: rest =>
      if p c then runs_from p (cur ++ [c]) rest
      else match cur with
           | [] => runs_from p [] rest
           | _ => cur :: runs_from p [] rest
           end
  end.

Definition runs (p : ascii -> bool) (text : str) : list str := runs_from p [] text.

(** [text.split()] with no argument. *)
Definition split (text : str) : list str := runs (fun c => negb (is_space c)) text.

Fixpoint lstrip (text : str) : str :=
  match text with
  | c :: rest => if is_space c then lstrip rest else text
  | [] => []
  end.

(** [text.strip()] with no argument. *)
Definition strip (text : str) : str := rev (lstrip (rev (lstrip text))).

(** [sep.join(parts)]. *)
Fixpoint join (sep : str) (parts : list str) : str :=
  match parts with
  | [] => []
  | [p] => p
  | p :: ps => p ++ sep ++ join sep ps
  end.

(** Python's normalisation of one slice bound against a length [n]. *)
Definition clamp_index (n i : Z) : Z :=
  if (i <? 0)%Z then Z.max (i + n) 0 else Z.min i n.

(** [l[i:j]]. *)
Definition py_slice (A : Type) (l : list A) (i j : Z) : list A :=
  let n := Z.of_nat (length l) in
  let i' := clamp_index n i in
  let j' := clamp_index n j in
  firstn (Z.to_nat (j' - i')) (skipn (Z.to_nat i') l).

(** [l[:j]]. *)
Definition py_prefix (A : Type) (l : list A) (j : Z) : list A := py_slice l 0 j.

Definition len (A : Type) (l : list A) : Z := Z.of_nat (length l).

(** Truth value of a string or list: non-empty. *)
Definition truthy (A : Type) (l : list A) : bool :=
  match l with [] => false | _ => true end.

(* ------------------------------------------------------------------ *)
(** ** Insertion-ordered dictionaries with string keys *)

Definition dict (V : Type) : Type := list (str * V).

Section Dict.
Variable V : Type.

Fixpoint dict_get (k : str) (d : dict V) : option V :=
  match d with
  | [] => None
  | (k', v) :: d' => if eqb_str k k' then Some v else dict_get k d'
  end.

(** [d[k] = v]: an existing key keeps its place, a new key goes last. *)
Fixpoint dict_set (k : str) (v : V) (d : dict V) : dict V :=
  match d with
  | [] => [(k, v)]
  | (k', v') :: d' =>
      if eqb_str k k' then (k', v) :: d' else (k', v') :: dict_set k v d'
  end.

(** [del d[k]]. *)
Fixpoint dict_del (k : str) (d : dict V) : dict V :=
  match d with
  | [] => []
  | (k', v') :: d' => if eqb_str k k' then d' else (k', v') :: dict_del k d'
  end.

Definition dict_mem (k : str) (d : dict V) : bool :=
  match dict_get k d with Some _ => true | None => false end.

Definition dict_keys (d : dict V) : list str := map fst d.
Definition dict_values (d : dict V) : list V := map snd d.

(** [d.get(k, dflt)]. *)
Definition dict_get_or (k : str) (d : dict V) (dflt : V) : V :=
  match dict_get k d with Some v => v | None => dflt end.

(** The invariant of a dictionary: no key occurs twice. *)
Definition dict_wf (d : dict V) : Prop := NoDup (dict_keys d).
End Dict.

(* ------------------------------------------------------------------ *)
(** ** Floating-point arithmetic as an interface *)

Class Arith (F : Type) : Type := {
  fzero : F;
  fone : F;
  fadd : F -> F -> F;
  fmul : F -> F -> F;
  fdiv : F -> F -> F;
  fsqrt : F -> F;
  feqb : F -> F -> bool;
  fltb : F -> F -> bool;
  fof_nat : nat -> F
}.

Class Log1p (F : Type) : Type := { flog1p : F -> F }.

(** [sum(xs)]: a left-to-right accumulation from zero.  (CPython 3.12 and
    later also carry the rounding error of the running sum; for one or two
    summands the result is the same.) *)
Definition fsum (F : Type) `{Arith F} (xs : list F) : F := fold_left fadd xs fzero.

(** Exact real arithmetic. *)
#[export] Instance R_arith : Arith R := {
  fzero := 0%R;
  fone := 1%R;
  fadd := Rplus;
  fmul := Rmult;
  fdiv := Rdiv;
  fsqrt := R_sqrt.sqrt;
  feqb := fun x y => if Req_dec_T x y then true else false;
  fltb := fun x y => if Rlt_dec x y then true else false;
  fof_nat := INR
}.

#[export] Instance R_log1p : Log1p R := { flog1p := fun x => ln (1 + x) }.

(** IEEE 754 binary64, the arithmetic of CPython's [float]. *)
#[export] Instance float_arith : Arith float := {
  fzero := PrimFloat.zero;
  fone := PrimFloat.one;
  fadd := PrimFloat.add;
  fmul := PrimFloat.mul;
  fdiv := PrimFloat.div;
  fsqrt := PrimFloat.sqrt;
  feqb := PrimFloat.eqb;
  fltb := PrimFloat.ltb;
  fof_nat := fun n => PrimFloat.of_uint63 (Uint63.of_Z (Z.of_nat n))
}.

(* ------------------------------------------------------------------ *)
(** ** Tokenizer and sparse embedder *)

(** One character of [_TOKEN_RE = [a-zA-Z0-9_\-]+]. *)
Definition is_token_char (c : ascii) : bool :=
  in_range 97 122 c || in_range 65 90 c || in_range 48 57 c
  || (code c =? 95)%N || (code c =? 45)%N.

(** [str.lower] on one character of a token. *)
Definition lower_char (c : ascii) : ascii :=
  if in_range 65 90 c then ascii_of_N (code c + 32) else c.

Definition lower (t : str) : str := map lower_char t.

(** [[t.lower() for t in _TOKEN_RE.findall(text) if len(t) > 1]]. *)
Definition _tokenize (text : str) : list str :=
  map lower (filter (fun t => (1 <? length t)%nat) (runs is_token_char text)).

(** One step of [Counter]: [counts[t] += 1], a missing key counting as 0. *)
Definition count_step (d : dict nat) (t : str) : dict nat :=
  dict_set t (S (dict_get_or t d 0%nat)) d.

(** [Counter(tokens)]: counts keyed in order of first occurrence. *)
Definition Counter (tokens : list str) : dict nat := fold_left count_step tokens [].

Section Embedding.
Context {F : Type} `{Arith F} `{Log1p F}.

(** The sparse vector [{term: tf * log1p(1 / tf)}] with [tf = count / total]. *)
Definition _tfidf_embed (text : str) : dict F :=
  let tokens := _tokenize text in
  if negb (truthy tokens) then []
  else
    let counts := Counter tokens in
    let total := length tokens in
    let tf := map (fun '(term, count) => (term, fdiv (fof_nat count) (fof_nat total))) counts in
    map (fun '(term, tf_val) => (term, fmul tf_val (flog1p (fdiv fone tf_val)))) tf.
End Embedding.

(** [set(ka) & set(kb)] as the code iterates it: every string that is in
    both lists, once, in the order of CPython's hash table.  That order
    follows the hashes of the strings, which differ from one process to the
    next; within a process it is a function of the two sets. *)
Class SetOrder : Type := {
  set_and : list str -> list str -> list str;
  set_and_NoDup : forall ka kb, NoDup (set_and ka kb);
  set_and_In : forall ka kb k, In k (set_and ka kb) <-> In k ka /\ In k kb
}.

Definition str_dec : forall a b : str, {a = b} + {a <> b} := list_eq_dec ascii_dec.

(** One such order: the common keys in the order they have in [ka]. *)
Definition key_order : SetOrder.
Proof.
  refine {| set_and := fun ka kb =>
              nodup str_dec (filter (fun k => if in_dec str_dec k kb then true else false) ka) |}.
  - intros ka kb. apply NoDup_nodup.
  - intros ka kb k. rewrite nodup_In, filter_In.
    destruct (in_dec str_dec k kb); intuition congruence.
Defined.

Section Cosine.
Context {F : Type} `{Arith F} {order : SetOrder}.

(** [set(a) & set(b)]. *)
Definition common_keys (a b : dict F) : list str :=
  set_and (dict_keys a) (dict_keys b).

(** Cosine similarity between two sparse vectors.  [sum] adds the products
    in the iteration order of the set [common]. *)
Definition _cosine_sparse (a b : dict F) : F :=
  let common := common_keys a b in
  if negb (truthy common) then fzero
  else
    let dot := fsum (map (fun k => fmul (dict_get_or k a fzero) (dict_get_or k b fzero)) common) in
    let mag_a := fsqrt (fsum (map (fun v => fmul v v) (dict_values a))) in
    let mag_b := fsqrt (fsum (map (fun v => fmul v v) (dict_values b))) in
    if feqb mag_a fzero || feqb mag_b fzero then fzero
    else fdiv dot (fmul mag_a mag_b).
End Cosine.

(* ------------------------------------------------------------------ *)
(** ** Exceptions *)

Inductive exn : Type :=
  | OSError (msg : str)       (* [OSError] and its subclasses *)
  | OtherError (msg : str).   (* any other [Exception] *)

Inductive result (A : Type) : Type :=
  | Ok (a : A)
  | Raise (e : exn).
Arguments Ok {A} a.
Arguments Raise {A} e.

(* ------------------------------------------------------------------ *)
(** ** Documents *)

(** Metadata values: [None], booleans, integers and strings. *)
Inductive scalar : Type :=
  | SNone
  | SBool (b : bool)
  | SInt (z : Z)
  | SStr (t : str).

(** Python's [==] on these values; a [bool] compares as the integer it is. *)
Definition py_eq (x y : scalar) : bool :=
  match x, y with
  | SNone, SNone => true
  | SBool a, SBool b => Bool.eqb a b
  | SBool a, SInt z => (z =? (if a then 1 else 0))%Z
  | SInt z, SBool a => (z =? (if a then 1 else 0))%Z
  | SInt a, SInt b => (a =? b)%Z
  | SStr a, SStr b => eqb_str a b
  | _, _ => false
  end.

(** [a or b] on an optional string: [None] and the empty string are false. *)
Definition str_or (a : option str) (b : str) : str :=
  match a with
  | Some (c :: t) => c :: t
  | _ => b
  end.

Section Store.
Context {F : Type} `{Arith F} `{Log1p F} {order : SetOrder}.

(** The embedding dictionary; a key that is absent is [None], and so is a
    [dense] that is present and [None]. *)
Record Embedding : Type := {
  backend : option str;
  sparse : option (dict F);
  dense : option (list F)
}.

Record Document : Type := {
  id : str;
  content : str;
  embedding : Embedding;
  metadata : dict scalar;
  timestamp : str;
  correlation_id : str;
  run_id : str
}.

(** One JSON object of the store file; a key that is absent is [None]. *)
Record Json_record : Type := {
  j_id : option str;
  j_content : option str;
  j_embedding : option Embedding;
  j_metadata : option (dict scalar);
  j_timestamp : option str;
  j_correlation_id : option str;
  j_run_id : option str
}.

(** A line of the store file, as [_load] sees it: blank after [strip], not
    a JSON document, or a JSON object. *)
Inductive Line : Type :=
  | Blank
  | Malformed
  | Object (d : Json_record).

(** What the code reads from its surroundings during one call.  [_flush]
    writes [tmp = path.with_suffix(".tmp")] and renames it onto the path: a
    write that fails leaves the store file alone, unless the path itself
    ends in [.tmp]; then [tmp] is the store file, and [open(tmp, "w")] has
    truncated it before the failure. *)
Record Env : Type := {
  now_iso : str;                      (* datetime.now(timezone.utc).isoformat() *)
  uuid4 : str;                        (* str(uuid.uuid4()) *)
  GITHUB_RUN_ID : str;                (* os.environ.get("GITHUB_RUN_ID", "") *)
  _EMBED_BACKEND : str;
  _embed_openai : str -> option (list F);
  _embed_ollama : str -> option (list F);
  disk_ok : bool;                     (* whether writing the store file succeeds *)
  tmp_is_store_file : bool;           (* path.with_suffix(".tmp") == path *)
  tmp_after_failure : option (list Line) -> option (list Line)
                                      (* what a failed write leaves of the temporary file *)
}.

Definition embed_text (env : Env) (text : str) : Embedding :=
  let sparse := _tfidf_embed text in
  let dense :=
    if eqb_str (_EMBED_BACKEND env) (s "openai") then _embed_openai env text
    else if eqb_str (_EMBED_BACKEND env) (s "ollama") then _embed_ollama env text
    else None in
  {| backend := Some (_EMBED_BACKEND env); sparse := Some sparse; dense := dense |}.

Definition _empty_embedding : Embedding :=
  {| backend := Some (s "none"); sparse := Some []; dense := None |}.

(** [Document.__init__]. *)
Definition new_Document (env : Env) (id content : str) (embedding : Embedding)
    (metadata : option (dict scalar)) (timestamp correlation_id : option str)
    (run_id : str) : Document :=
  {| id := id;
     content := content;
     embedding := embedding;
     metadata := match metadata with Some m => m | None => [] end;
     timestamp := str_or timestamp (now_iso env);
     correlation_id := str_or correlation_id (uuid4 env);
     run_id := str_or (Some run_id) (GITHUB_RUN_ID env) |}.

Definition to_dict (self : Document) : Json_record :=
  {| j_id := Some (id self);
     j_content := Some (content self);
     j_embedding := Some (embedding self);
     j_metadata := Some (metadata self);
     j_timestamp := Some (timestamp self);
     j_correlation_id := Some (correlation_id self);
     j_run_id := Some (run_id self) |}.

(** [Document.from_dict]; [d["id"]] and [d["content"]] raise [KeyError]. *)
Definition from_dict (env : Env) (d : Json_record) : result Document :=
  match j_id d, j_content d with
  | Some i, Some c =>
      Ok (new_Document env i c
            (match j_embedding d with
             | Some e => e
             | None => {| backend := None; sparse := None; dense := None |}
             end)
            (Some (match j_metadata d with Some m => m | None => [] end))
            (j_timestamp d) (j_correlation_id d)
            (match j_run_id d with Some r => r | None => [] end))
  | _, _ => Raise (OtherError (s "KeyError"))
  end.

(** A store instance together with the file at its path ([None]: the file
    does not exist). *)
Record VectorStore : Type := {
  _index : dict Document;
  _file : option (list Line)
}.

Definition _load_line (env : Env) (index : dict Document) (line : Line) : dict Document :=
  match line with
  | Blank => index
  | Malformed => index
  | Object d =>
      match from_dict env d with
      | Ok doc => dict_set (id doc) doc index
      | Raise _ => index
      end
  end.

Definition _load (env : Env) (self : VectorStore) : VectorStore :=
  match _file self with
  | None => self
  | Some lines =>
      {| _index := fold_left (_load_line env) lines (_index self); _file := _file self |}
  end.

(** [VectorStore(path)] where the file at [path] is [file]. *)
Definition VectorStore_init (env : Env) (file : option (list Line)) : VectorStore :=
  _load env {| _index := []; _file := file |}.

(** [_flush]: the whole index is written to the temporary file, which is
    then renamed onto the path; or the write fails, and the file at the path
    is as it was, unless the temporary file is the store file itself. *)
Definition _flush (env : Env) (self : VectorStore) : result unit * VectorStore :=
  if disk_ok env then
    (Ok tt, {| _index := _index self;
               _file := Some (map (fun doc => Object (to_dict doc)) (dict_values (_index self))) |})
  else
    (Raise (OSError (s "write failed")),
     {| _index := _index self;
        _file := if tmp_is_store_file env then tmp_after_failure env (_file self)
                 else _file self |}).

Definition upsert (env : Env) (doc_id content : str) (metadata : option (dict scalar))
    (correlation_id : option str) (run_id : str) (skip_embed : bool)
    (self : VectorStore) : result Document * VectorStore :=
  let embedding := if negb skip_embed then embed_text env content else _empty_embedding in
  let doc := new_Document env doc_id content embedding
               (Some (match metadata with Some (e :: m) => e :: m | _ => [] end))
               None correlation_id run_id in
  let self1 := {| _index := dict_set doc_id doc (_index self); _file := _file self |} in
  match _flush env self1 with
  | (Ok _, self2) => (Ok doc, self2)
  | (Raise e, self2) => (Raise e, self2)
  end.

Definition get (doc_id : str) (self : VectorStore) : option Document :=
  dict_get doc_id (_index self).

Definition delete (env : Env) (doc_id : str) (self : VectorStore) : result bool * VectorStore :=
  if dict_mem doc_id (_index self) then
    let self1 := {| _index := dict_del doc_id (_index self); _file := _file self |} in
    match _flush env self1 with
    | (Ok _, self2) => (Ok true, self2)
    | (Raise e, self2) => (Raise e, self2)
    end
  else (Ok false, self).

Definition count (self : VectorStore) : Z := len (_index self).

Definition clear (env : Env) (self : VectorStore) : result unit * VectorStore :=
  _flush env {| _index := []; _file := _file self |}.

(** [l.sort(key=key, reverse=True)]: stable, keys compared with [<] only.
    Where [<] is a strict weak order on the keys, every stable sort returns
    this list; with a NaN among the keys no order is defined and what
    CPython's merge sort returns is not modelled. *)
Fixpoint insert_desc (A : Type) (key : A -> F) (x : A) (l : list A) : list A :=
  match l with
  | [] => [x]
  | y :: l' => if fltb (key x) (key y) then y :: insert_desc key x l' else x :: y :: l'
  end.

Fixpoint sort_desc (A : Type) (key : A -> F) (l : list A) : list A :=
  match l with
  | [] => []
  | x :: l' => insert_desc key x (sort_desc key l')
  end.

(** [all(d.metadata.get(k) == v for k, v in metadata_filter.items())]. *)
Definition metadata_matches (metadata_filter : dict scalar) (d : Document) : bool :=
  forallb (fun '(k, v) => py_eq (dict_get_or k (metadata d) SNone) v) metadata_filter.

Definition score_of (q_sparse : dict F) (doc : Document) : F * Document :=
  let d_sparse := match sparse (embedding doc) with Some v => v | None => [] end in
  (_cosine_sparse q_sparse d_sparse, doc).

Definition query (env : Env) (query_text : str) (top_k : Z)
    (metadata_filter : option (dict scalar)) (self : VectorStore) : list (F * Document) :=
  if negb (truthy (_index self)) then []
  else
    let q_embed := embed_text env query_text in
    let q_sparse := match sparse q_embed with Some v => v | None => [] end in
    let candidates := dict_values (_index self) in
    let candidates :=
      match metadata_filter with
      | Some (e :: m) => filter (metadata_matches (e :: m)) candidates
      | _ => candidates
      end in
    let scored := map (score_of q_sparse) candidates in
    py_prefix (sort_desc fst scored) top_k.
End Store.

Arguments Embedding : clear implicits.
Arguments Document : clear implicits.
Arguments Env : clear implicits.
Arguments Json_record : clear implicits.
Arguments Line : clear implicits.
Arguments VectorStore : clear implicits.

(* ------------------------------------------------------------------ *)
(** ** Text chunking *)

Definition hash : ascii := "#"%char.

Definition newline : ascii := "010"%char.

(** [_HEADING_RE.split(text)] for [_HEADING_RE = ^#{1,6}\s] with
    [re.MULTILINE], as a scanner.  [bol]: the next character starts a line;
    [hashes]: how many ['#'] read from the start of the line are held back
    until the character after them decides whether they are a marker. *)
Fixpoint heading_split_from (bol : bool) (hashes : nat) (cur : str) (text : str) : list str :=
  match text with
  | [] => [cur ++ repeat hash hashes]
  | c :: rest =>
      match hashes with
      | O =>
          if bol && Ascii.eqb c hash then heading_split_from false 1 cur rest
          else heading_split_from (Ascii.eqb c newline) 0 (cur ++ [c]) rest
      | S _ =>
          if is_space c then cur :: heading_split_from (Ascii.eqb c newline) 0 [] rest
          else if Ascii.eqb c hash && (hashes <? 6)%nat
               then heading_split_from false (S hashes) cur rest
               else heading_split_from false 0 (cur ++ repeat hash hashes ++ [c]) rest
      end
  end.

Definition heading_split (text : str) : list str := heading_split_from true 0 [] text.

Definition _CHUNK_FALLBACK_MULTIPLIER : Z := 6.

(** The [while start < len(words)] loop of [_chunk_text]; each unit of fuel
    pays for one test of the loop condition. *)
Fixpoint chunk_loop (fuel : nat) (words : list str) (chunk_size overlap : Z)
    (start : Z) (chunks : list str) : option (list str) :=
  match fuel with
  | O => None
  | S fuel' =>
      if (start <? len words)%Z then
        let end_ := Z.min (start + chunk_size) (len words) in
        let chunk := join (s " ") (py_slice words start end_) in
        let chunks := if truthy (strip chunk) then chunks ++ [chunk] else chunks in
        if (end_ >=? len words)%Z then Some chunks
        else chunk_loop fuel' words chunk_size overlap (end_ - overlap) chunks
      else Some chunks
  end.

(** The [for section in sections] loop. *)
Fixpoint chunk_sections (fuel : nat) (sections : list str) (chunk_size overlap : Z)
    (chunks : list str) : option (list str) :=
  match sections with
  | [] => Some chunks
  | section :: rest =>
      let words := split section in
      if negb (truthy words) then chunk_sections fuel rest chunk_size overlap chunks
      else match chunk_loop fuel words chunk_size overlap 0 chunks with
           | None => None
           | Some chunks => chunk_sections fuel rest chunk_size overlap chunks
           end
  end.

Definition _chunk_text (fuel : nat) (text : str) (chunk_size overlap : Z) : option (list str) :=
  let sections := heading_split text in
  match chunk_sections fuel sections chunk_size overlap [] with
  | None => None
  | Some chunks =>
      Some (if truthy chunks then chunks
            else [py_prefix text (chunk_size * _CHUNK_FALLBACK_MULTIPLIER)])
  end.

(** The windows as the specification words them: starts [0, step, 2 step,
    ...] with [step = chunk_size - overlap], one window for every start
    before the end of the section.  [n] bounds the number of windows. *)
Fixpoint spec_windows (n : nat) (words : list str) (chunk_size overlap : Z) (start : Z)
    : list (list str) :=
  match n with
  | O => []
  | S n' =>
      if (start <? len words)%Z
      then py_slice words start (start + chunk_size)
           :: spec_windows n' words chunk_size overlap (start + (chunk_size - overlap))
      else []
  end.

(* ------------------------------------------------------------------ *)
(** ** Rehydration *)

(** A parsed JSON document. *)
Inductive json : Type :=
  | JNull
  | JBool (b : bool)
  | JNum (z : Z)
  | JStr (t : str)
  | JArr (items : list json)
  | JObj (members : list (str * json)).

Section Rehydration.
Context {F : Type} `{Arith F} `{Log1p F} {order : SetOrder}.

(** [round(x, ndigits)]. *)
Variable py_round : F -> Z -> F.

(** One path yielded by [_TELEMETRY_DIR.glob("run-*.json")]. *)
Record TelemetryFile : Type := {
  tf_stat : result F;      (* p.stat().st_mtime *)
  tf_load : result json    (* json.loads(p.read_text(encoding="utf-8")) *)
}.

(** The files that [rehydrate] reads, as the outcomes of the calls it makes
    on them.  [Path.exists()] answers [False] for a missing path and raises
    for any other failure of its [stat] (a [PermissionError], say); none of
    the three calls of it is inside a [try]. *)
Record World : Type := {
  vs_open : result (option (list (Line F)));  (* VectorStore(path=_VECTOR_STORE_PATH) *)
  am_exists : result bool;   (* _ACTIVE_MEMORY_PATH.exists() *)
  am_age : result F;         (* stat(), then (now - mod_time).total_seconds() / 3600 *)
  am_read : result str;      (* _ACTIVE_MEMORY_PATH.read_text(...) *)
  tel_exists : result bool;  (* _TELEMETRY_DIR.exists() *)
  tel_glob : result (list TelemetryFile);
                             (* the paths of _TELEMETRY_DIR.glob("run-*.json"), listed in full
                                before the first sort key is computed *)
  idx_exists : result bool;  (* index_path.exists() *)
  idx_load : result json;    (* json.loads(index_path.read_text(...)) *)
  _MEMORY_FRESHNESS_HOURS : F
}.

(** The warning strings, by the place that builds them. *)
Inductive Warning : Type :=
  | VectorStoreUnavailable (exc : exn)   (* "Vector store unavailable: {exc}" *)
  | ActiveMemoryAbsent                   (* "ACTIVE_MEMORY.md absent ..." *)
  | ActiveMemoryStale (age_hours threshold : F)
                                         (* "ACTIVE_MEMORY.md is {age_hours:.1f}h old ..." *)
  | ActiveMemoryUnreadable (exc : exn).  (* "Could not read ACTIVE_MEMORY.md: {exc}" *)

Record ActiveMemory : Type := {
  available : bool;
  am_content : str;
  age_hours : option F;
  warning : option Warning
}.

(** [try: ... except OSError as exc: handler]: any other exception goes on. *)
Definition except_OSError (A : Type) (body : result A) (handler : exn -> A) : result A :=
  match body with
  | Raise (OSError m) => Ok (handler (OSError m))
  | other => other
  end.

(** [try: ... except Exception as exc: handler]. *)
Definition except_Exception (A : Type) (body : result A) (handler : exn -> A) : A :=
  match body with
  | Ok a => a
  | Raise e => handler e
  end.

Definition _load_active_memory (w : World) : result ActiveMemory :=
  match am_exists w with
  | Raise e => Raise e
  | Ok false =>
    Ok {| available := false; am_content := []; age_hours := None;
          warning := Some ActiveMemoryAbsent |}
  | Ok true =>
    match am_age w with
    | Raise (OSError m) =>
        Ok {| available := false; am_content := []; age_hours := None;
              warning := Some (ActiveMemoryUnreadable (OSError m)) |}
    | Raise e => Raise e
    | Ok age =>
        let stale :=
          if fltb (_MEMORY_FRESHNESS_HOURS w) age
          then Some (ActiveMemoryStale age (_MEMORY_FRESHNESS_HOURS w)) else None in
        except_OSError
          (match am_read w with
           | Ok text => Ok {| available := true; am_content := text;
                              age_hours := Some (py_round age 2); warning := stale |}
           | Raise e => Raise e
           end)
          (fun exc => {| available := false; am_content := [];
                         age_hours := Some (py_round age 2);
                         warning := Some (ActiveMemoryUnreadable exc) |})
    end
  end.

(** The keys that [sorted(..., key=lambda p: p.stat().st_mtime)] computes,
    one call of [stat] per path, before any comparison. *)
Fixpoint stat_keys (files : list TelemetryFile) : result (list (F * TelemetryFile)) :=
  match files with
  | [] => Ok []
  | p :: rest =>
      match tf_stat p with
      | Raise e => Raise e
      | Ok mtime =>
          match stat_keys rest with
          | Raise e => Raise e
          | Ok keyed => Ok ((mtime, p) :: keyed)
          end
      end
  end.

Definition _load_recent_telemetry (w : World) (max_entries : Z) : result (list json) :=
  match tel_exists w with
  | Raise e => Raise e
  | Ok false => Ok []
  | Ok true =>
    match tel_glob w with
    | Raise e => Raise e
    | Ok files =>
    match stat_keys files with
    | Raise e => Raise e
    | Ok keyed =>
        let log_files := map snd (sort_desc fst keyed) in
        Ok (flat_map
              (fun log_file =>
                 except_Exception
                   (match tf_load log_file with
                    | Ok data => Ok [data]
                    | Raise e => Raise e
                    end)
                   (fun _ => []))
              (py_prefix log_files max_entries))
    end
    end
  end.

Definition _load_org_index (w : World) : result json :=
  match idx_exists w with
  | Raise e => Raise e
  | Ok false => Ok (JObj [])
  | Ok true => Ok (except_Exception (idx_load w) (fun _ => JObj []))
  end.

Record VectorHit : Type := {
  hit_score : F;
  hit_id : str;
  hit_content : str;
  hit_metadata : dict scalar
}.

Record ContextBundle : Type := {
  vector_hits : list VectorHit;
  active_memory : option ActiveMemory;   (* [None]: the empty dict *)
  recent_runs : list json;
  org_repos : json;
  warnings : list Warning;
  rehydrated_at : str;
  bundle_query : str
}.

Definition hit_of (scored : F * Document F) : VectorHit :=
  let (score, doc) := scored in
  {| hit_score := py_round score 4;
     hit_id := id doc;
     hit_content := py_prefix (content doc) 400;
     hit_metadata := metadata doc |}.

(** [members.get(key, dflt)] on the members of a JSON object. *)
Fixpoint json_get (key : str) (members : list (str * json)) (dflt : json) : json :=
  match members with
  | [] => dflt
  | (k, v) :: rest => if eqb_str key k then v else json_get key rest dflt
  end.

Definition rehydrate (env : Env F) (w : World) (query_text : str) (top_k : Z)
    (include_active_memory include_telemetry include_org_index : bool)
    (store : option (VectorStore F)) : result ContextBundle :=
  (* 1. Vector store nearest neighbours *)
  let (vector_hits, warnings) :=
    except_Exception
      (match match store with
             | Some vs => Ok vs
             | None => match vs_open w with
                       | Ok file => Ok (VectorStore_init env file)
                       | Raise e => Raise e
                       end
             end with
       | Ok vs => Ok (map hit_of (query env query_text top_k None vs), [])
       | Raise e => Raise e
       end)
      (fun exc => ([], [VectorStoreUnavailable exc])) in
  (* 2. ACTIVE_MEMORY.md *)
  match (if include_active_memory then
           match _load_active_memory w with
           | Ok am => Ok (Some am,
                          match warning am with
                          | Some msg => warnings ++ [msg]
                          | None => warnings
                          end)
           | Raise e => Raise e
           end
         else Ok (None, warnings)) with
  | Raise e => Raise e
  | Ok (active_memory, warnings) =>
      (* 3. Recent telemetry *)
      match (if include_telemetry then _load_recent_telemetry w 5 else Ok []) with
      | Raise e => Raise e
      | Ok recent_runs =>
          (* 4. Live org repo state *)
          match (if include_org_index then
                   match _load_org_index w with
                   | Ok (JObj members) => Ok (json_get (s "repositories") members (JArr []))
                   | Ok (JArr items) => Ok (JArr items)
                   | Ok _ => Ok (JArr [])
                   | Raise e => Raise e
                   end
                 else Ok (JArr [])) with
          | Raise e => Raise e
          | Ok org_repos =>
              Ok {| vector_hits := vector_hits;
                    active_memory := active_memory;
                    recent_runs := recent_runs;
                    org_repos := org_repos;
                    warnings := warnings;
                    rehydrated_at := now_iso env;
                    bundle_query := query_text |}
          end
      end
  end.
End Rehydration.

Arguments TelemetryFile : clear implicits.
Arguments World : clear implicits.
Arguments Warning : clear implicits.
Arguments ActiveMemory : clear implicits.
Arguments VectorHit : clear implicits.
Arguments ContextBundle : clear implicits.

(* ------------------------------------------------------------------ *)
(** ** Vocabulary of the properties *)

(** Number of occurrences of [t] in a token sequence. *)
Definition count_tok (t : str) (tokens : list str) : nat :=
  length (filter (eqb_str t) tokens).




(** The sum of a list of reals. *)
Definition Rsum (xs : list R) : R := fold_right Rplus 0%R xs.

(** A sparse vector whose weights are all non-negative. *)
Definition nonneg (a : dict R) : Prop := Forall (fun v => (0 <= v)%R) (dict_values a).

(** The sum of the squared weights of a sparse vector. *)
Definition sq_norm (a : dict R) : R := Rsum (map (fun v => (v * v)%R) (dict_values a)).

(** [math.sqrt(sum(v * v for v in a.values()))]. *)
Definition magnitude (F : Type) `{Arith F} (a : dict F) : F :=
  fsqrt (fsum (map (fun v => fmul v v) (dict_values a))).

(** Two keys tie: neither is less than the other.  Over the reals, and in
    binary64 apart from NaN and the two zeros, these are equal keys. *)
Definition tied (F : Type) `{Arith F} (x y : F) : bool :=
  negb (fltb x y) && negb (fltb y x).

(** On the values that satisfy [P] the comparison [<] of the arithmetic is
    a strict weak order: irreflexive, transitive, and with a transitive
    [not <].  It is one on all reals, and in binary64 on all values but
    NaN. *)
Definition strict_weak_order (F : Type) `{Arith F} (P : F -> Prop) : Prop :=
  (forall x, P x -> fltb x x = false) /\
  (forall x y z, P x -> P y -> P z ->
     fltb x y = true -> fltb y z = true -> fltb x z = true) /\
  (forall x y z, P x -> P y -> P z ->
     fltb x y = false -> fltb y z = false -> fltb x z = false).

(** [out] is [l] sorted by descending key, no entry before one of a greater
    key, entries of tied keys in the order they have in [l]. *)
Definition stable_desc_sort (F : Type) `{Arith F} (P : F -> Prop) (A : Type) (key : A -> F)
    (l out : list A) : Prop :=
  Permutation l out /\
  StronglySorted (fun x y => fltb (key x) (key y) = false) out /\
  forall v, P v -> filter (fun y => tied (key y) v) out = filter (fun y => tied (key y) v) l.

(** The candidate documents of a query, in store iteration order. *)
Definition candidates_of (F : Type) (metadata_filter : option (dict scalar))
    (self : VectorStore F) : list (Document F) :=
  match metadata_filter with
  | Some (e :: m) => filter (metadata_matches (e :: m)) (dict_values (_index self))
  | _ => dict_values (_index self)
  end.

(** Fuel that is enough whenever the chunker terminates: one more than the
    largest number of words of a section. *)
Definition enough_fuel (text : str) : nat :=
  S (list_max (map (fun section => length (split section)) (heading_split text))).

(** A word as [split] produces it: not empty and free of white space. *)
Definition word_ok (w : str) : Prop :=
  w <> [] /\ forallb (fun c => negb (is_space c)) w = true.

(** Number of windows the loop emits for a section of [n] words. *)
Definition num_windows (n chunk_size overlap : Z) : nat :=
  if (n <=? chunk_size)%Z then 1%nat
  else S (Z.to_nat ((n - chunk_size + (chunk_size - overlap) - 1) / (chunk_size - overlap))).

(** The [k]-th window: [words[start : start + chunk_size]] with
    [start = k * (chunk_size - overlap)]. *)
Definition window (words : list str) (chunk_size overlap : Z) (k : nat) : list str :=
  py_slice words (Z.of_nat k * (chunk_size - overlap))
    (Z.of_nat k * (chunk_size - overlap) + chunk_size).

(** A heading marker: one to six ['#'] and one white-space character. *)
Definition is_heading_marker (m : str) : Prop :=
  exists (k : nat) (c : ascii),
    (1 <= k <= 6)%nat /\ is_space c = true /\ m = repeat hash k ++ [c].

(** The sections with the markers put back between them. *)
Fixpoint weave (sections markers : list str) : str :=
  match sections with
  | [] => []
  | section :: rest =>
      section ++ match markers with
                 | [] => []
                 | m :: ms => m ++ weave rest ms
                 end
  end.

(** [before] ends where a line starts. *)
Definition at_line_start (before : str) : Prop :=
  before = [] \/ exists p, before = p ++ [newline].

(** Every marker sits at the start of a line of the text that begins with
    [before]. *)
Fixpoint markers_at_line_starts (before : str) (sections markers : list str) : Prop :=
  match sections, markers with
  | section :: rest, m :: ms =>
      at_line_start (before ++ section) /\
      markers_at_line_starts (before ++ section ++ m) rest ms
  | _, _ => True
  end.

(** The number of ['#'] at the start of [r]. *)
Fixpoint leading_hashes (r : str) : nat :=
  match r with
  | c :: r' => if Ascii.eqb c hash then S (leading_hashes r') else 0
  | [] => 0
  end.

(** [r] begins with a heading marker. *)
Definition starts_with_marker (r : str) : Prop :=
  exists m q, r = m ++ q /\ is_heading_marker m.

(** However [r] is continued, it does not begin with a heading marker: it
    begins with more than six ['#'], or the character after its leading
    ['#'] is there and is not white space, or it begins with another
    character. *)
Definition never_marker (r : str) : Prop :=
  (6 < leading_hashes r)%nat \/
  exists c, nth_error r (leading_hashes r) = Some c /\
            (leading_hashes r = 0%nat \/ is_space c = false).

(** Every line start inside [cur] is followed by text that cannot begin a
    marker, however it is continued. *)
Definition settled (before cur : str) : Prop :=
  forall p r, cur = p ++ r -> r <> [] -> at_line_start (before ++ p) -> never_marker r.

(** No heading marker begins at the start of a line inside [section],
    which stands after [before] in the text. *)
Definition no_marker_inside (before section : str) : Prop :=
  forall p r, section = p ++ r -> at_line_start (before ++ p) -> ~ starts_with_marker r.

(** No section holds a heading marker at the start of a line: the text is
    split at every one of them. *)
Fixpoint split_at_every_marker (before : str) (sections markers : list str) : Prop :=
  match sections with
  | [] => True
  | section :: rest =>
      no_marker_inside before section /\
      match markers with
      | m :: ms => split_at_every_marker (before ++ section ++ m) rest ms
      | [] => True
      end
  end.

(** The chunks of one section taken alone. *)
Definition section_chunks (fuel : nat) (section : str) (chunk_size overlap : Z)
    : option (list str) :=
  let words := split section in
  if negb (truthy words) then Some [] else chunk_loop fuel words chunk_size overlap 0 [].

(** The per-section results in order, [None] as soon as one is [None]. *)
Fixpoint concat_sections (parts : list (option (list str))) : option (list str) :=
  match parts with
  | [] => Some []
  | p :: ps =>
      match p, concat_sections ps with
      | Some a, Some b => Some (a ++ b)
      | _, _ => None
      end
  end.

(** An outcome that [except OSError] absorbs. *)
Definition absorbed (A : Type) (r : result A) : Prop :=
  match r with
  | Raise (OtherError _) => False
  | _ => True
  end.

Section Vocabulary.
Context {F : Type} `{Arith F} `{Log1p F}.

(** The weight as the code computes it, in the arithmetic [F]. *)
Definition weight_of (c N : nat) : F :=
  let tf_val := fdiv (fof_nat c) (fof_nat N) in
  fmul tf_val (flog1p (fdiv fone tf_val)).

(** A document with the dense component of its embedding removed. *)
Definition erase_dense (d : Document F) : Document F :=
  {| id := id d;
     content := content d;
     embedding := {| backend := backend (embedding d);
                     sparse := sparse (embedding d);
                     dense := None |};
     metadata := metadata d;
     timestamp := timestamp d;
     correlation_id := correlation_id d;
     run_id := run_id d |}.

(** An index with the dense component of every document removed. *)
Definition erase_index (index : dict (Document F)) : dict (Document F) :=
  map (fun kv => (fst kv, erase_dense (snd kv))) index.

(** A hit with the dense component of its document removed. *)
Definition erase_hit (hit : F * Document F) : F * Document F :=
  (fst hit, erase_dense (snd hit)).

(** Two stores whose documents agree in everything but the dense fields. *)
Definition same_except_dense (st1 st2 : VectorStore F) : Prop :=
  erase_index (_index st1) = erase_index (_index st2).

(** The document that [upsert] builds from its arguments. *)
Definition upsert_doc (env : Env F) (doc_id content : str) (metadata : option (dict scalar))
    (correlation_id : option str) (run_id : str) (skip_embed : bool) : Document F :=
  new_Document env doc_id content
    (if negb skip_embed then embed_text env content else _empty_embedding)
    (Some (match metadata with Some (e :: m) => e :: m | _ => [] end))
    None correlation_id run_id.

(** The invariant of an index: keys are distinct and each document is stored
    under its own id. *)
Definition index_inv (index : dict (Document F)) : Prop :=
  dict_wf index /\ Forall (fun kv => id (snd kv) = fst kv) index.

(** One call of [upsert] with its surroundings. *)
Record UpsertCall : Type := {
  call_env : Env F;
  call_id : str;
  call_content : str;
  call_metadata : option (dict scalar);
  call_correlation_id : option str;
  call_run_id : str;
  call_skip_embed : bool
}.

(** The store after one call; the returned value or exception is dropped. *)
Definition run_upsert (self : VectorStore F) (c : UpsertCall) : VectorStore F :=
  snd (upsert (call_env c) (call_id c) (call_content c) (call_metadata c)
         (call_correlation_id c) (call_run_id c) (call_skip_embed c) self).

(** The store after a sequence of calls. *)
Definition run_upserts (calls : list UpsertCall) (self : VectorStore F) : VectorStore F :=
  fold_left run_upsert calls self.

(** The ids of a store with the content stored under each, in store order. *)
Definition ids_and_content (index : dict (Document F)) : dict str :=
  map (fun kv => (fst kv, content (snd kv))) index.
End Vocabulary.

Arguments UpsertCall : clear implicits.

(* ------------------------------------------------------------------ *)
(** ** Concrete inputs *)

(** Two sparse vectors over the reals. *)
Definition vec_query : dict R := [(s "policy", 1%R); (s "agents", 2%R)].

Definition vec_doc : dict R := [(s "agents", 3%R)].

(** A text with one ["aa"] and seven ["bb"]. *)
Definition text_1_7 : str := s "aa bb bb bb bb bb bb bb".

(** The sparse vector of [text_1_7] in binary64: [tf] is 1/8 and 7/8, and
    each weight is [tf * math.log1p(1.0 / tf)] as CPython computes it. *)
Definition embedding_1_7 : dict float :=
  [(s "aa", 0x1.193ea7aad030bp-2%float); (s "bb", 0x1.5570517b65e53p-1%float)].

(** A text with three ["aa"] and eight ["bb"]. *)
Definition text_3_11 : str := s "aa aa aa bb bb bb bb bb bb bb bb".


(** Surroundings with the default backend and a working disk. *)
Definition env0 : Env R :=
  {| now_iso := s "2024-01-01T00:00:00+00:00";
     uuid4 := s "7f9c24e8-3b12-4fef-91e0-5a3d7c1b2a10";
     GITHUB_RUN_ID := [];
     _EMBED_BACKEND := s "tfidf";
     _embed_openai := fun _ => None;
     _embed_ollama := fun _ => None;
     disk_ok := true;
     tmp_is_store_file := false;
     tmp_after_failure := fun file => file |}.

(** A store with the two documents of the specification's examples. *)
Definition store_two : VectorStore R :=
  snd (upsert env0 (s "doc-b") (s "weather forecast sunny today") None None [] false
    (snd (upsert env0 (s "doc-a") (s "autonomous agents govern policy") None None [] false
       (VectorStore_init env0 None)))).

(** The same document without and with a dense vector. *)
Definition doc_sparse_only : Document R :=
  {| id := s "doc-a"; content := s "autonomous agents";
     embedding := {| backend := Some (s "tfidf");
                     sparse := Some [(s "autonomous", 1%R); (s "agents", 1%R)];
                     dense := None |};
     metadata := []; timestamp := s "2024-01-01T00:00:00+00:00";
     correlation_id := s "c-1"; run_id := [] |}.

Definition doc_with_dense : Document R :=
  {| id := s "doc-a"; content := s "autonomous agents";
     embedding := {| backend := Some (s "tfidf");
                     sparse := Some [(s "autonomous", 1%R); (s "agents", 1%R)];
                     dense := Some [2%R; 3%R] |};
     metadata := []; timestamp := s "2024-01-01T00:00:00+00:00";
     correlation_id := s "c-1"; run_id := [] |}.

Definition store_sparse_only : VectorStore R :=
  {| _index := [(s "doc-a", doc_sparse_only)]; _file := None |}.

Definition store_with_dense : VectorStore R :=
  {| _index := [(s "doc-a", doc_with_dense)]; _file := None |}.

(** Two calls of [upsert]. *)
Definition call_a : UpsertCall R :=
  {| call_env := env0; call_id := s "doc-a";
     call_content := s "autonomous agents govern policy";
     call_metadata := None; call_correlation_id := None; call_run_id := [];
     call_skip_embed := false |}.

Definition call_b : UpsertCall R :=
  {| call_env := env0; call_id := s "doc-b";
     call_content := s "weather forecast sunny today";
     call_metadata := Some [(s "source", SStr (s "x"))]; call_correlation_id := None;
     call_run_id := []; call_skip_embed := true |}.

(** A section of three words. *)
Definition three_words : list str := [s "alpha"; s "beta"; s "gamma"].

(** A heading line followed by a line of body text. *)
Definition heading_text : str := s "# Title" ++ [newline] ++ s "body text".

(** A telemetry directory that holds one entry matching [run-*.json] whose
    [stat] fails: a dangling symbolic link, or a file removed between the
    listing and the sort.  Every other source is absent. *)
Definition world_dangling_run_file : World R :=
  {| vs_open := Ok None;
     am_exists := Ok false;
     am_age := Raise (OSError (s "FileNotFoundError"));
     am_read := Raise (OSError (s "FileNotFoundError"));
     tel_exists := Ok true;
     tel_glob := Ok [ {| tf_stat := Raise (OSError (s "FileNotFoundError: run-1.json"));
                         tf_load := Raise (OSError (s "FileNotFoundError: run-1.json")) |} ];
     idx_exists := Ok false;
     idx_load := Raise (OSError (s "FileNotFoundError"));
     _MEMORY_FRESHNESS_HOURS := 2%R |}.

(* ------------------------------------------------------------------ *)
(** ** Bulk ingest *)

(** [f"{i}"] for a non-negative integer [i]. *)
Definition str_of_nat (n : nat) : str :=
  list_ascii_of_string (DecimalString.NilEmpty.string_of_uint (Nat.to_uint n)).

(** What [path.exists()] and [path.read_text(...)] give for a path. *)
Inductive ReadOutcome : Type :=
  | Absent
  | Unreadable (e : exn)
  | Contents (text : str).

Section Ingest.
Context {F : Type} `{Arith F} `{Log1p F}.

(** [f"{source_label}::{i}"]. *)
Definition chunk_id (source_label : str) (i : nat) : str :=
  source_label ++ s "::" ++ str_of_nat i.

(** [{"source": source_label, "chunk_index": i, "total_chunks": len(chunks)}]. *)
Definition chunk_metadata (source_label : str) (i : nat) (total : Z) : dict scalar :=
  [(s "source", SStr source_label); (s "chunk_index", SInt (Z.of_nat i));
   (s "total_chunks", SInt total)].

(** The [for i, chunk in enumerate(chunks)] loop of [ingest_markdown];
    [envs i] is what the call of [upsert] for chunk [i] reads. *)
Fixpoint ingest_loop (envs : nat -> Env F) (source_label : str) (total : Z) (i : nat)
    (chunks : list str) (self : VectorStore F) : result unit * VectorStore F :=
  match chunks with
  | [] => (Ok tt, self)
  | chunk :: rest =>
      match upsert (envs i) (chunk_id source_label i) chunk
              (Some (chunk_metadata source_label i total)) None [] false self with
      | (Ok _, self') => ingest_loop envs source_label total (S i) rest self'
      | (Raise e, self') => (Raise e, self')
      end
  end.

(** [ingest_markdown]; [file] is the state of the file at [path], [path] its
    [str(path)]; [None] when the chunker runs out of fuel. *)
Definition ingest_markdown (envs : nat -> Env F) (fuel : nat) (file : ReadOutcome)
    (path source : str) (chunk_size overlap : Z) (self : VectorStore F)
    : option (result Z * VectorStore F) :=
  match file with
  | Absent => Some (Ok 0%Z, self)
  | Unreadable e => Some (Raise e, self)
  | Contents text =>
      match _chunk_text fuel text chunk_size overlap with
      | None => None
      | Some chunks =>
          let source_label := str_or (Some source) path in
          match ingest_loop envs source_label (len chunks) 0 chunks self with
          | (Ok _, self') => Some (Ok (len chunks), self')
          | (Raise e, self') => Some (Raise e, self')
          end
      end
  end.
End Ingest.

(* ------------------------------------------------------------------ *)
(** ** Further vocabulary *)

Section StoreVocabulary.
Context {F : Type} `{Arith F} `{Log1p F}.

(** A line of the store file that [_load] turns into a document: a JSON
    object with the keys ["id"] and ["content"]. *)
Definition loadable (line : Line F) : bool :=
  match line with
  | Object d =>
      match j_id d, j_content d with
      | Some _, Some _ => true
      | _, _ => false
      end
  | _ => false
  end.

(** The ["id"] of a line, if it has one. *)
Definition line_id (line : Line F) : option str :=
  match line with
  | Object d => j_id d
  | _ => None
  end.

(** One mutating call on a store, with its surroundings. *)
Inductive StoreOp : Type :=
  | OpUpsert (c : UpsertCall F)
  | OpDelete (env : Env F) (doc_id : str)
  | OpClear (env : Env F).

Definition op_env (op : StoreOp) : Env F :=
  match op with
  | OpUpsert c => call_env c
  | OpDelete env _ => env
  | OpClear env => env
  end.

(** The store after one call; the returned value or exception is dropped. *)
Definition run_op (self : VectorStore F) (op : StoreOp) : VectorStore F :=
  match op with
  | OpUpsert c => run_upsert self c
  | OpDelete env doc_id => snd (delete env doc_id self)
  | OpClear env => snd (clear env self)
  end.

Definition run_ops (ops : list StoreOp) (self : VectorStore F) : VectorStore F :=
  fold_left run_op ops self.

(** Whether a call on [self] reaches [_flush]: every call does, except
    [delete] of an id that is not in the store. *)
Definition writes (self : VectorStore F) (op : StoreOp) : bool :=
  match op with
  | OpDelete _ doc_id => dict_mem doc_id (_index self)
  | _ => true
  end.

(** Surroundings whose clock and UUID source give non-empty strings. *)
Definition sane (env : Env F) : Prop := now_iso env <> [] /\ uuid4 env <> [].

(** A document whose timestamp and correlation id are not empty. *)
Definition doc_complete (d : Document F) : Prop :=
  timestamp d <> [] /\ correlation_id d <> [].

(** The document as [from_dict] rebuilds it under [env]: an empty [run_id]
    is replaced by the [GITHUB_RUN_ID] of [env]. *)
Definition with_run_id (env : Env F) (d : Document F) : Document F :=
  {| id := id d;
     content := content d;
     embedding := embedding d;
     metadata := metadata d;
     timestamp := timestamp d;
     correlation_id := correlation_id d;
     run_id := str_or (Some (run_id d)) (GITHUB_RUN_ID env) |}.
End StoreVocabulary.

Arguments StoreOp : clear implicits.

Section ReloadVocabulary.
Context {F : Type} `{Arith F} `{Log1p F}.

(** The file of a store reloads to the ids and content of its index. *)
Definition in_step (self : VectorStore F) : Prop :=
  index_inv (_index self) /\
  forall env, ids_and_content (_index (VectorStore_init env (_file self)))
              = ids_and_content (_index self).

(** Every document of an index has a timestamp and a correlation id. *)
Definition index_complete (index : dict (Document F)) : Prop :=
  Forall (fun kv => doc_complete (snd kv)) index.
End ReloadVocabulary.

(** The windows of one section, none for a section without words. *)
Definition section_windows (section : str) (chunk_size overlap : Z) : list (list str) :=
  let words := split section in
  if truthy words
  then map (window words chunk_size overlap)
           (seq 0 (num_windows (len words) chunk_size overlap))
  else [].

(** The windows of all the sections of a text, in order. *)
Definition text_windows (text : str) (chunk_size overlap : Z) : list (list str) :=
  concat (map (fun section => section_windows section chunk_size overlap) (heading_split text)).

(* ------------------------------------------------------------------ *)
(** ** More concrete inputs *)

(** Surroundings in which writing the store file fails. *)
Definition env_disk_full : Env R :=
  {| now_iso := s "2024-01-02T00:00:00+00:00";
     uuid4 := s "0b54c1de-77aa-4c7e-8a57-3f1f0e9d2c44";
     GITHUB_RUN_ID := s "8125";
     _EMBED_BACKEND := s "tfidf";
     _embed_openai := fun _ => None;
     _embed_ollama := fun _ => None;
     disk_ok := false;
     tmp_is_store_file := false;
     tmp_after_failure := fun _ => Some [] |}.

(** A call of [upsert] whose write fails. *)
Definition call_lost : UpsertCall R :=
  {| call_env := env_disk_full; call_id := s "doc-c";
     call_content := s "never written";
     call_metadata := None; call_correlation_id := None; call_run_id := [];
     call_skip_embed := false |}.

(** The empty store at a path with no file. *)
Definition store_empty : VectorStore R := VectorStore_init env0 None.

(** Two records of the store file with the same id. *)
Definition record_old : Json_record R :=
  {| j_id := Some (s "doc-a"); j_content := Some (s "old body"); j_embedding := None;
     j_metadata := None; j_timestamp := None; j_correlation_id := None; j_run_id := None |}.

Definition record_new : Json_record R :=
  {| j_id := Some (s "doc-a"); j_content := Some (s "new body"); j_embedding := None;
     j_metadata := None; j_timestamp := None; j_correlation_id := None; j_run_id := None |}.

(** A vector store that cannot be opened, no snapshot, one telemetry file
    and no repository index. *)
Definition world_store_unreadable : World R :=
  {| vs_open := Raise (OSError (s "PermissionError: store.jsonl"));
     am_exists := Ok false;
     am_age := Raise (OSError (s "FileNotFoundError"));
     am_read := Raise (OSError (s "FileNotFoundError"));
     tel_exists := Ok true;
     tel_glob := Ok [ {| tf_stat := Ok 10%R;
                         tf_load := Ok (JObj [(s "run_id", JStr (s "run-1"))]) |} ];
     idx_exists := Ok false;
     idx_load := Raise (OSError (s "FileNotFoundError"));
     _MEMORY_FRESHNESS_HOURS := 2%R |}.

(** A snapshot that is three hours old against a threshold of two. *)
Definition world_stale_snapshot : World R :=
  {| vs_open := Ok None;
     am_exists := Ok true;
     am_age := Ok 3%R;
     am_read := Ok (s "# ACTIVE MEMORY");
     tel_exists := Ok false;
     tel_glob := Ok [];
     idx_exists := Ok false;
     idx_load := Raise (OSError (s "FileNotFoundError"));
     _MEMORY_FRESHNESS_HOURS := 2%R |}.

(** A snapshot whose bytes cannot be decoded into a result by the reader:
    an exception that is not an [OSError]. *)
Definition world_snapshot_fault : World R :=
  {| vs_open := Ok None;
     am_exists := Ok true;
     am_age := Ok 1%R;
     am_read := Raise (OtherError (s "MemoryError"));
     tel_exists := Ok false;
     tel_glob := Ok [];
     idx_exists := Ok false;
     idx_load := Raise (OSError (s "FileNotFoundError"));
     _MEMORY_FRESHNESS_HOURS := 2%R |}.

(* ================================================================== *)
(** * Properties *)

(** ** Strings and dictionaries *)

Lemma eqb_str_eq (a b : str) : eqb_str a b = true <-> a = b.
Proof.
  revert b; induction a as [|x a IH]; intros [|y b]; simpl; split; try congruence; auto.
  - intros E. apply andb_true_iff in E as [E1 E2].
    apply Ascii.eqb_eq in E1. apply IH in E2. congruence.
  - intros E. injection E as -> ->. apply andb_true_iff. split.
    + apply Ascii.eqb_refl.
    + now apply IH.
Qed.

Lemma eqb_str_refl (a : str) : eqb_str a a = true.
Proof. now apply eqb_str_eq. Qed.

Lemma eqb_str_neq (a b : str) : eqb_str a b = false <-> a <> b.
Proof.
  split.
  - intros E ->. rewrite eqb_str_refl in E. discriminate.
  - intros N. destruct (eqb_str a b) eqn:E; auto. apply eqb_str_eq in E. contradiction.
Qed.

Lemma eqb_str_sym (a b : str) : eqb_str a b = eqb_str b a.
Proof.
  destruct (eqb_str a b) eqn:E.
  - apply eqb_str_eq in E as ->. now rewrite eqb_str_refl.
  - symmetry. apply eqb_str_neq. apply eqb_str_neq in E. congruence.
Qed.

Tactic Notation "case_key" constr(k) constr(k') :=
  let E := fresh "E" in
  destruct (eqb_str k k') eqn:E;
  [apply eqb_str_eq in E; try subst | pose proof (proj1 (eqb_str_neq _ _) E)].

Section DictFacts.
Variable V : Type.
Implicit Types (d : dict V) (k : str) (v : V).

Lemma dict_get_set_same k v d : dict_get k (dict_set k v d) = Some v.
Proof.
  induction d as [|[k' v'] d IH]; simpl.
  - now rewrite eqb_str_refl.
  - destruct (eqb_str k k') eqn:E; simpl; rewrite E; auto.
Qed.

Lemma dict_get_set_other k k' v d :
  k <> k' -> dict_get k' (dict_set k v d) = dict_get k' d.
Proof.
  intros N. assert (Nb : eqb_str k' k = false) by (apply eqb_str_neq; congruence).
  induction d as [|[k0 v0] d IH]; simpl.
  - now rewrite Nb.
  - destruct (eqb_str k k0) eqn:E; simpl.
    + apply eqb_str_eq in E. subst k0. now rewrite Nb.
    + now rewrite IH.
Qed.

Lemma dict_get_None_keys k d : dict_get k d = None <-> ~ In k (dict_keys d).
Proof.
  induction d as [|[k0 v0] d IH]; simpl.
  - tauto.
  - case_key k k0.
    + split; [discriminate | tauto].
    + rewrite IH. split; [intros N [E'|I]; [congruence | tauto] | tauto].
Qed.

Lemma dict_mem_keys k d : dict_mem k d = true <-> In k (dict_keys d).
Proof.
  unfold dict_mem. destruct (dict_get k d) eqn:G.
  - split; auto. intros _. destruct (in_dec (list_eq_dec ascii_dec) k (dict_keys d)); auto.
    apply dict_get_None_keys in n. congruence.
  - apply dict_get_None_keys in G. split; [discriminate | contradiction].
Qed.

Lemma dict_keys_set k v d :
  dict_keys (dict_set k v d) = if dict_mem k d then dict_keys d else dict_keys d ++ [k].
Proof.
  unfold dict_mem. induction d as [|[k0 v0] d IH]; simpl; auto.
  case_key k k0; simpl; auto.
  rewrite IH. now destruct (dict_get k d).
Qed.

Lemma dict_set_wf k v d : dict_wf d -> dict_wf (dict_set k v d).
Proof.
  unfold dict_wf. intros W. rewrite dict_keys_set.
  destruct (dict_mem k d) eqn:M; auto.
  apply NoDup_app; auto.
  - constructor; [intros [] | constructor].
  - intros x I [<-|[]]. apply dict_mem_keys in I. congruence.
Qed.

Lemma dict_set_length_mem k v d :
  dict_mem k d = true -> length (dict_set k v d) = length d.
Proof.
  intros M. rewrite <- (length_map fst), <- (length_map fst d).
  fold (dict_keys (dict_set k v d)). rewrite dict_keys_set, M. reflexivity.
Qed.

Lemma dict_del_keys_incl k d x : In x (dict_keys (dict_del k d)) -> In x (dict_keys d).
Proof.
  induction d as [|[k0 v0] d IH]; simpl; auto.
  case_key k k0; simpl; tauto.
Qed.

Lemma dict_del_wf k d : dict_wf d -> dict_wf (dict_del k d).
Proof.
  unfold dict_wf. induction d as [|[k0 v0] d IH]; simpl; auto.
  intros W. inversion W; subst. case_key k k0; simpl; auto.
  constructor; auto. intros I. apply dict_del_keys_incl in I. contradiction.
Qed.

Lemma dict_get_In k v d : dict_get k d = Some v -> In (k, v) d.
Proof.
  induction d as [|[k0 v0] d IH]; simpl; [discriminate|].
  case_key k k0; [intros [= ->]; auto | auto].
Qed.

Lemma dict_In_get k v d : dict_wf d -> In (k, v) d -> dict_get k d = Some v.
Proof.
  unfold dict_wf. induction d as [|[k0 v0] d IH]; simpl; [tauto|].
  intros W [E|I]; inversion W; subst.
  - injection E as -> ->. now rewrite eqb_str_refl.
  - case_key k k0.
    + exfalso. apply H1. change k0 with (fst (k0, v)). now apply in_map.
    + auto.
Qed.
End DictFacts.

Lemma dict_get_map_values (V W : Type) (f : V -> W) (k : str) (d : dict V) :
  dict_get k (map (fun '(k', v) => (k', f v)) d) = option_map f (dict_get k d).
Proof.
  induction d as [|[k0 v0] d IH]; simpl; auto.
  destruct (eqb_str k k0); auto.
Qed.

Lemma dict_keys_map_values (V W : Type) (f : V -> W) (d : dict V) :
  dict_keys (map (fun '(k', v) => (k', f v)) d) = dict_keys d.
Proof.
  unfold dict_keys. rewrite map_map. apply map_ext. now intros [].
Qed.

(** ** Tokenizer and [Counter] *)

Lemma runs_from_Forall (p : ascii -> bool) (text cur : str) :
  forallb p cur = true -> Forall (fun r => forallb p r = true) (runs_from p cur text).
Proof.
  revert cur; induction text as [|c rest IH]; intros cur Hc; simpl.
  - destruct cur; auto.
  - destruct (p c) eqn:P.
    + apply IH. rewrite forallb_app, Hc. simpl. now rewrite P.
    + destruct cur; [now apply IH | constructor; [auto | now apply IH]].
Qed.

Lemma runs_from_app_run (p : ascii -> bool) (w rest : str) :
  forallb p w = true ->
  forall cur, runs_from p cur (w ++ rest) = runs_from p (cur ++ w) rest.
Proof.
  induction w as [|c w IH]; intros P cur; simpl.
  - now rewrite app_nil_r.
  - simpl in P. apply andb_true_iff in P as [Pc Pw]. rewrite Pc, (IH Pw).
    now rewrite <- app_assoc.
Qed.

Lemma runs_from_app_sep (p : ascii -> bool) (a b : str) (c : ascii) :
  p c = false ->
  forall cur, runs_from p cur (a ++ c :: b) = runs_from p cur a ++ runs_from p [] b.
Proof.
  intros P. induction a as [|x a IH]; intros cur; simpl.
  - rewrite P. now destruct cur.
  - destruct (p x); [apply IH|]. destruct cur; simpl; now rewrite IH.
Qed.







Lemma Counter_fold_get (t : str) (tokens : list str) (d : dict nat) :
  dict_get t (fold_left count_step tokens d) =
  match dict_get t d with
  | Some c0 => Some (c0 + count_tok t tokens)%nat
  | None => match count_tok t tokens with O => None | S c => Some (S c) end
  end.
Proof.
  revert d; induction tokens as [|u tokens IH]; intros d; simpl.
  - unfold count_tok; simpl. destruct (dict_get t d); [f_equal; lia | reflexivity].
  - rewrite IH. unfold count_step, count_tok. simpl.
    case_key t u.
    + rewrite dict_get_set_same. unfold dict_get_or.
      destruct (dict_get u d); simpl; f_equal; lia.
    + rewrite dict_get_set_other by congruence. reflexivity.
Qed.

Lemma Counter_fold_wf (tokens : list str) (d : dict nat) :
  dict_wf d -> dict_wf (fold_left count_step tokens d).
Proof.
  revert d; induction tokens as [|u tokens IH]; intros d W; simpl; auto.
  apply IH. now apply dict_set_wf.
Qed.

Lemma Counter_get (t : str) (tokens : list str) :
  dict_get t (Counter tokens) =
  match count_tok t tokens with O => None | S c => Some (S c) end.
Proof. unfold Counter. apply (Counter_fold_get t tokens []). Qed.

Lemma Counter_wf (tokens : list str) : dict_wf (Counter tokens).
Proof. apply (Counter_fold_wf tokens (d := [])). constructor. Qed.

Lemma count_tok_le (t : str) (tokens : list str) : (count_tok t tokens <= length tokens)%nat.
Proof. apply filter_length_le. Qed.

(** ** The sparse embedder *)

Section EmbedderFacts.
Context {F : Type} `{Arith F} `{Log1p F} {order : SetOrder}.

Lemma _tfidf_embed_get (text t : str) :
  dict_get t (_tfidf_embed (F := F) text) =
  match count_tok t (_tokenize text) with
  | O => None
  | S c => Some (weight_of (S c) (length (_tokenize text)))
  end.
Proof.
  unfold _tfidf_embed. destruct (_tokenize text) as [|u tokens] eqn:T; simpl negb; cbv iota.
  - reflexivity.
  - rewrite map_map.
    rewrite (map_ext _ (fun '(k', v) => (k', weight_of v (length (u :: tokens)))))
      by (now intros []).
    rewrite dict_get_map_values, Counter_get.
    now destruct (count_tok t (u :: tokens)).
Qed.

Lemma _tfidf_embed_wf (text : str) : dict_wf (_tfidf_embed (F := F) text).
Proof.
  unfold _tfidf_embed. destruct (_tokenize text) as [|u tokens]; simpl negb; cbv iota.
  - constructor.
  - unfold dict_wf. rewrite !dict_keys_map_values. apply Counter_wf.
Qed.
End EmbedderFacts.


(** In binary64 the reciprocal of [tf = c/N] need not be [N/c]: the code's
    [1.0 / tf_val] for [c = 1], [N = 49] is 49.00000000000001. *)
Remark reciprocal_of_tf_binary64 :
  fdiv fone (fdiv (fof_nat 1) (fof_nat 49)) = 0x1.8800000000001p+5%float /\
  fdiv (fof_nat 49) (fof_nat 1) = 0x1.88p+5%float.
Proof. split; vm_compute; reflexivity. Qed.


(** The weight of ["aa"] in [text_3_11], for any [log1p] that takes
    CPython's value at the argument the code passes. *)
Lemma weight_3_11_of_text (log1p : float -> float) :
  log1p 0x1.d555555555556p+1%float = 0x1.8a5a9b3027445p+0%float ->
  dict_get (s "aa") (_tfidf_embed (H0 := {| flog1p := log1p |}) text_3_11)
  = Some 0x1.ae344c3487ed6p-2%float.
Proof.
  intros L. rewrite _tfidf_embed_get. vm_compute. rewrite L. vm_compute. reflexivity.
Qed.


(** ** Cosine similarity over the exact reals *)

Section CommonKeysFacts.
Context {F : Type} `{Arith F} {order : SetOrder}.

Lemma common_keys_NoDup (a b : dict F) : NoDup (common_keys a b).
Proof. apply set_and_NoDup. Qed.

Lemma common_keys_in (a b : dict F) (k : str) :
  In k (common_keys a b) <-> In k (dict_keys a) /\ In k (dict_keys b).
Proof. apply set_and_In. Qed.

(** For a dictionary the common keys are, up to their order, the keys of
    [a] that [b] has. *)
Lemma common_keys_filter (a b : dict F) :
  dict_wf a ->
  Permutation (common_keys a b) (filter (fun k => dict_mem k b) (dict_keys a)).
Proof.
  intros W. apply NoDup_Permutation.
  - apply common_keys_NoDup.
  - now apply NoDup_filter.
  - intros k. rewrite common_keys_in, filter_In, dict_mem_keys. tauto.
Qed.

Lemma common_keys_nil (a b : dict F) :
  (forall k, In k (dict_keys a) -> In k (dict_keys b) -> False) -> common_keys a b = [].
Proof.
  intros D. destruct (common_keys a b) as [|k ks] eqn:E; auto.
  assert (I : In k (common_keys a b)) by (rewrite E; now left).
  apply common_keys_in in I as [Ia Ib]. destruct (D k Ia Ib).
Qed.
End CommonKeysFacts.

Section CosineFacts.
Context {order : SetOrder}.
Local Open Scope R_scope.

Lemma Rsum_perm (xs ys : list R) : Permutation xs ys -> Rsum xs = Rsum ys.
Proof. induction 1; simpl; lra. Qed.

Lemma fold_left_Rplus (xs : list R) (acc : R) :
  fold_left Rplus xs acc = acc + Rsum xs.
Proof.
  revert acc; induction xs as [|x xs IH]; intros acc; simpl.
  - lra.
  - rewrite IH. lra.
Qed.

Lemma fsum_Rsum (xs : list R) : fsum xs = Rsum xs.
Proof. unfold fsum. cbn [fadd fzero R_arith]. rewrite fold_left_Rplus. lra. Qed.

Lemma Rsum_squares_nonneg (xs : list R) : 0 <= Rsum (map (fun v => v * v) xs).
Proof. induction xs as [|x xs IH]; simpl; nra. Qed.

Lemma Rsum_nonneg (xs : list R) : Forall (fun v => 0 <= v) xs -> 0 <= Rsum xs.
Proof. induction 1; simpl; lra. Qed.

(** Cauchy-Schwarz on a list of pairs. *)
Lemma cauchy_schwarz_pairs (ps : list (R * R)) :
  let xy := Rsum (map (fun p => fst p * snd p) ps) in
  let xx := Rsum (map (fun p => fst p * fst p) ps) in
  let yy := Rsum (map (fun p => snd p * snd p) ps) in
  0 <= xx /\ 0 <= yy /\ xy * xy <= xx * yy.
Proof.
  induction ps as [|[u v] ps IH]; simpl.
  - lra.
  - cbv zeta in IH. destruct IH as (Hx & Hy & Hxy).
    set (r := Rsum (map (fun p => fst p * snd p) ps)) in *.
    set (p := Rsum (map (fun p => fst p * fst p) ps)) in *.
    set (q := Rsum (map (fun p => snd p * snd p) ps)) in *.
    assert (K : 2 * u * v * r <= u * u * q + v * v * p).
    { destruct (Req_dec p 0) as [P0|P0].
      - assert (r = 0) by nra. subst r. nra.
      - assert (0 < p) by lra.
        assert (0 <= p * (u * u * q + v * v * p - 2 * u * v * r))
          by (pose proof (Rle_0_sqr (u * r - v * p)) as Q; unfold Rsqr in Q; nra).
        nra. }
    repeat split; nra.
Qed.

(** The value that [get_or k b 0] contributes, summed over distinct keys,
    stays below the squared norm of [b]. *)
Lemma lookup_squares_step (ks : list str) (k0 : str) (w0 : R) (g : str -> R) :
  NoDup ks -> (forall k, 0 <= g k) ->
  Rsum (map (fun k => if eqb_str k k0 then w0 * w0 else g k) ks)
  <= w0 * w0 + Rsum (map g ks).
Proof.
  intros ND G. induction ND as [|k ks NI ND IH]; simpl.
  - nra.
  - case_key k k0.
    + assert (E' : map (fun k => if eqb_str k k0 then w0 * w0 else g k) ks = map g ks).
      { apply map_ext_in. intros k I. case_key k k0; [contradiction | reflexivity]. }
      rewrite E'. pose proof (G k0). lra.
    + lra.
Qed.

Lemma lookup_squares_le (b : dict R) (ks : list str) :
  NoDup ks ->
  Rsum (map (fun k => dict_get_or k b 0 * dict_get_or k b 0) ks) <= sq_norm b.
Proof.
  intros ND. unfold sq_norm. induction b as [|[k0 w0] b IH]; simpl.
  - unfold dict_get_or; simpl. induction ks; simpl.
    + lra.
    + inversion ND; subst. specialize (IHks H2). lra.
  - eapply Rle_trans; [|apply Rplus_le_compat_l, IH].
    eapply Rle_trans; [|apply (lookup_squares_step k0 w0 ND)].
    + apply Req_le. f_equal. apply map_ext. intros k. unfold dict_get_or. simpl.
      now destruct (eqb_str k k0).
    + intros k. simpl. nra.
Qed.

Lemma values_by_key (a : dict R) (h : str -> R -> R) :
  dict_wf a ->
  map (fun k => h k (dict_get_or k a 0)) (dict_keys a) = map (fun kv => h (fst kv) (snd kv)) a.
Proof.
  unfold dict_wf. induction a as [|[k0 v0] a IH]; simpl; auto.
  intros W. inversion W; subst. f_equal.
  - unfold dict_get_or. simpl. now rewrite eqb_str_refl.
  - rewrite <- IH by assumption. apply map_ext_in. intros k I.
    unfold dict_get_or. simpl. case_key k k0; [contradiction | reflexivity].
Qed.

(** The dot product over the common keys is the sum, over all of [a], of
    value times the value of [b] at that key (zero where [b] has none). *)
Lemma dot_over_all_keys (a b : dict R) :
  dict_wf a ->
  Rsum (map (fun k => dict_get_or k a 0 * dict_get_or k b 0) (common_keys a b))
  = Rsum (map (fun k => dict_get_or k a 0 * dict_get_or k b 0) (dict_keys a)).
Proof.
  intros W. rewrite (Rsum_perm (Permutation_map _ (common_keys_filter b W))). clear W.
  induction (dict_keys a) as [|k ks IH]; simpl; auto.
  unfold dict_mem at 1. destruct (dict_get k b) eqn:G; simpl.
  - now rewrite IH.
  - rewrite IH. unfold dict_get_or at 4. rewrite G. lra.
Qed.

Lemma dot_squared_le (a b : dict R) :
  dict_wf a ->
  let dot := Rsum (map (fun k => dict_get_or k a 0 * dict_get_or k b 0) (common_keys a b)) in
  dot * dot <= sq_norm a * sq_norm b.
Proof.
  intros W. cbv zeta. rewrite dot_over_all_keys by assumption.
  rewrite (values_by_key (fun k v => v * dict_get_or k b 0) W).
  pose proof (cauchy_schwarz_pairs (map (fun kv => (snd kv, dict_get_or (fst kv) b 0)) a)) as CS.
  cbv zeta in CS. rewrite !map_map in CS. simpl in CS. destruct CS as (_ & _ & CS).
  eapply Rle_trans; [exact CS|].
  assert (Ea : Rsum (map (fun x => snd x * snd x) a) = sq_norm a).
  { unfold sq_norm, dict_values. now rewrite map_map. }
  rewrite Ea. apply Rmult_le_compat_l.
  - apply Rsum_squares_nonneg.
  - pose proof (lookup_squares_le b W) as L. unfold dict_keys in L.
    rewrite map_map in L. exact L.
Qed.

Lemma dot_nonneg (a b : dict R) :
  nonneg a -> nonneg b ->
  0 <= Rsum (map (fun k => dict_get_or k a 0 * dict_get_or k b 0) (common_keys a b)).
Proof.
  intros Na Nb. apply Rsum_nonneg. apply Forall_map, Forall_forall. intros k _.
  assert (G : forall d, nonneg d -> 0 <= dict_get_or k d 0).
  { intros d Nd. unfold dict_get_or. destruct (dict_get k d) eqn:G; [|lra].
    apply dict_get_In in G. unfold nonneg in Nd. rewrite Forall_forall in Nd.
    apply Nd. unfold dict_values. change r with (snd (k, r)). now apply in_map. }
  apply Rmult_le_pos; auto.
Qed.

Lemma _cosine_sparse_R (a b : dict R) :
  _cosine_sparse a b =
  match common_keys a b with
  | [] => 0
  | _ => if Req_dec_T (R_sqrt.sqrt (sq_norm a)) 0 then 0
         else if Req_dec_T (R_sqrt.sqrt (sq_norm b)) 0 then 0
         else Rsum (map (fun k => dict_get_or k a 0 * dict_get_or k b 0) (common_keys a b))
              / (R_sqrt.sqrt (sq_norm a) * R_sqrt.sqrt (sq_norm b))
  end.
Proof.
  unfold _cosine_sparse. destruct (common_keys a b) as [|k ks] eqn:C; simpl truthy; cbv iota.
  - reflexivity.
  - cbn [negb fzero fmul fdiv fsqrt feqb R_arith]. rewrite !fsum_Rsum. fold (sq_norm a) (sq_norm b).
    destruct (Req_dec_T (R_sqrt.sqrt (sq_norm a)) 0); simpl; auto.
    destruct (Req_dec_T (R_sqrt.sqrt (sq_norm b)) 0); simpl; auto.
Qed.

Lemma cosine_bounds_R (a b : dict R) :
  dict_wf a -> nonneg a -> nonneg b -> 0 <= _cosine_sparse a b <= 1.
Proof.
  intros W Na Nb. rewrite _cosine_sparse_R.
  destruct (common_keys a b) as [|k ks] eqn:C; [lra|].
  destruct (Req_dec_T (R_sqrt.sqrt (sq_norm a)) 0) as [|Za]; [lra|].
  destruct (Req_dec_T (R_sqrt.sqrt (sq_norm b)) 0) as [|Zb]; [lra|].
  rewrite <- C.
  set (dot := Rsum (map (fun k => dict_get_or k a 0 * dict_get_or k b 0) (common_keys a b))).
  pose proof (dot_nonneg Na Nb) as D0. fold dot in D0.
  pose proof (dot_squared_le b W) as D2. cbv zeta in D2. fold dot in D2.
  pose proof (sqrt_pos (sq_norm a)) as Pa. pose proof (sqrt_pos (sq_norm b)) as Pb.
  assert (Pab : 0 < R_sqrt.sqrt (sq_norm a) * R_sqrt.sqrt (sq_norm b)) by (apply Rmult_lt_0_compat; lra).
  assert (Le : dot <= R_sqrt.sqrt (sq_norm a) * R_sqrt.sqrt (sq_norm b)).
  { rewrite <- sqrt_mult by (unfold sq_norm; apply Rsum_squares_nonneg).
    rewrite <- (sqrt_square dot) by assumption. apply sqrt_le_1_alt. exact D2. }
  split.
  - apply Rmult_le_pos; [assumption | left; now apply Rinv_0_lt_compat].
  - apply (Rmult_le_reg_r (R_sqrt.sqrt (sq_norm a) * R_sqrt.sqrt (sq_norm b))); [assumption|].
    unfold Rdiv. rewrite Rmult_assoc, Rinv_l by lra. lra.
Qed.
End CosineFacts.

(** ** C3: range of the cosine similarity *)

(** In every arithmetic the code returns zero when no key is shared and when
    a magnitude compares equal to zero. *)
Lemma cosine_zero_cases (F : Type) `{Arith F} {order : SetOrder} (a b : dict F) :
  (common_keys a b = [] -> _cosine_sparse a b = fzero) /\
  (feqb (magnitude a) fzero || feqb (magnitude b) fzero = true ->
   _cosine_sparse a b = fzero).
Proof.
  unfold _cosine_sparse, magnitude. split.
  - intros ->. reflexivity.
  - intros ->. now destruct (negb (truthy (common_keys a b))).
Qed.

(** C3: computed over the exact reals, the cosine similarity of two sparse
    vectors with non-negative weights lies in [0, 1]; it is 0 when the
    vectors share no term and when either has zero magnitude. *)
Theorem cosine_similarity_exact_range {order : SetOrder} (a b : dict R) :
  dict_wf a -> nonneg a -> nonneg b ->
  (0 <= _cosine_sparse a b <= 1)%R /\
  (common_keys a b = [] -> _cosine_sparse a b = 0%R) /\
  (magnitude a = 0%R \/ magnitude b = 0%R -> _cosine_sparse a b = 0%R).
Proof.
  intros W Na Nb. split; [now apply cosine_bounds_R|]. split.
  - intros C. exact (proj1 (cosine_zero_cases a b) C).
  - intros Z. pose proof (proj2 (cosine_zero_cases a b)) as P. apply P.
    cbn [feqb fzero R_arith]. apply orb_true_iff.
    destruct Z as [Z|Z]; [left | right]; rewrite Z; now destruct (Req_dec_T 0 0).
Qed.

Lemma cosine_similarity_exact_range_witness :
  dict_wf vec_query /\ nonneg vec_query /\ nonneg vec_doc /\
  (0 <= _cosine_sparse (order := key_order) vec_query vec_doc <= 1)%R.
Proof.
  assert (W : dict_wf vec_query).
  { unfold dict_wf; simpl. constructor.
    - simpl. intros [E|[]]. discriminate E.
    - constructor; [intros [] | constructor]. }
  assert (Nq : nonneg vec_query) by (repeat constructor; simpl; lra).
  assert (Nd : nonneg vec_doc) by (repeat constructor; simpl; lra).
  repeat split; try assumption;
    apply (cosine_similarity_exact_range (a := vec_query) (b := vec_doc) W Nq Nd).
Defined.

(** Every weight the embedder returns over the reals is non-negative. *)
Lemma _tfidf_embed_nonneg (text : str) : nonneg (_tfidf_embed (F := R) text).
Proof.
  unfold nonneg. apply Forall_forall. intros v I.
  unfold dict_values in I. apply in_map_iff in I as [[k v'] [E I]]. simpl in E. subst v'.
  apply (dict_In_get (_tfidf_embed_wf text)) in I.
  rewrite _tfidf_embed_get in I.
  pose proof (count_tok_le k (_tokenize text)) as L.
  destruct (count_tok k (_tokenize text)) as [|c]; [discriminate|].
  remember (S c) as c' eqn:Ec.
  injection I as <-. unfold weight_of. cbn [fdiv fmul fof_nat fone flog1p R_arith R_log1p].
  assert (Pc : (0 < INR c')%R) by (apply lt_0_INR; lia).
  assert (Pn : (0 < INR (length (_tokenize text)))%R) by (apply lt_0_INR; lia).
  assert (Ptf : (0 < INR c' / INR (length (_tokenize text)))%R)
    by (apply Rdiv_lt_0_compat; assumption).
  assert (Pr : (0 < 1 / (INR c' / INR (length (_tokenize text))))%R)
    by (apply Rdiv_lt_0_compat; lra).
  apply Rmult_le_pos; [lra|].
  rewrite <- ln_1. left. apply ln_increasing; lra.
Qed.

(** Over the reals the similarity of any query text with any document text
    lies in [0, 1]. *)
Corollary cosine_of_texts_exact_range {order : SetOrder} (query_text doc_text : str) :
  (0 <= _cosine_sparse (F := R) (_tfidf_embed query_text) (_tfidf_embed doc_text) <= 1)%R.
Proof.
  apply cosine_bounds_R; [apply _tfidf_embed_wf | apply _tfidf_embed_nonneg ..].
Qed.

(** [embedding_1_7] is what the embedder returns for [text_1_7] with any
    [log1p] that takes CPython's values at the two arguments it is called on. *)
Lemma embedding_1_7_of_text (log1p : float -> float) :
  log1p 0x1p+3%float = 0x1.193ea7aad030bp+1%float ->
  log1p 0x1.2492492492492p+0%float = 0x1.8637388d06bcdp-1%float ->
  _tfidf_embed (H0 := {| flog1p := log1p |}) text_1_7 = embedding_1_7.
Proof.
  intros L8 L1. vm_compute. rewrite L8, L1. vm_compute. reflexivity.
Qed.

Lemma two_keys_orders (l : list str) (x y : str) :
  x <> y -> NoDup l -> (forall k, In k l <-> k = x \/ k = y) -> l = [x; y] \/ l = [y; x].
Proof.
  intros N D M.
  assert (Ix : In x l) by (apply M; now left).
  assert (Iy : In y l) by (apply M; now right).
  destruct l as [|u [|v [|z l]]].
  - destruct Ix.
  - destruct Ix as [->|[]], Iy as [E|[]]. contradiction.
  - assert (Mu := proj1 (M u) (or_introl eq_refl)).
    assert (Mv := proj1 (M v) (or_intror (or_introl eq_refl))).
    inversion D as [|u' l' Nu Dv]; subst.
    destruct Mu as [->| ->], Mv as [->| ->]; auto; exfalso; apply Nu; now left.
  - exfalso.
    assert (Mu := proj1 (M u) (or_introl eq_refl)).
    assert (Mv := proj1 (M v) (or_intror (or_introl eq_refl))).
    assert (Mz := proj1 (M z) (or_intror (or_intror (or_introl eq_refl)))).
    inversion D as [|u' l' Nu Dv]; subst. inversion Dv as [|v' l'' Nv Dz]; subst.
    destruct Mu as [->| ->], Mv as [->| ->], Mz as [->| ->];
      try (apply Nu; simpl; tauto); try (apply Nv; simpl; tauto).
Qed.

(** C3, as stated, fails in binary64: the similarity of [text_1_7] with
    itself is computed as 1.0000000000000002.  The two products are added in
    either order with the same result, so the iteration order of the set of
    common keys plays no part. *)
Lemma cosine_binary64_above_one :
  (forall order : SetOrder,
     _cosine_sparse (order := order) embedding_1_7 embedding_1_7
     = 0x1.0000000000001p+0%float) /\
  fltb fone (_cosine_sparse (order := key_order) embedding_1_7 embedding_1_7) = true.
Proof.
  split; [|vm_compute; reflexivity].
  intros order.
  assert (C : common_keys embedding_1_7 embedding_1_7 = [s "aa"; s "bb"] \/
              common_keys embedding_1_7 embedding_1_7 = [s "bb"; s "aa"]).
  { apply two_keys_orders; [discriminate | apply common_keys_NoDup |].
    intros k. rewrite common_keys_in. simpl. intuition. }
  unfold _cosine_sparse. destruct C as [-> | ->]; vm_compute; reflexivity.
Qed.

(** ** Python slices *)

Lemma py_slice_map (A B : Type) (g : A -> B) (l : list A) (i j : Z) :
  map g (py_slice l i j) = py_slice (map g l) i j.
Proof. unfold py_slice. now rewrite length_map, skipn_map, firstn_map. Qed.

Lemma py_prefix_firstn (A : Type) (l : list A) (k : Z) :
  (0 <= k)%Z -> py_prefix l k = firstn (Z.to_nat k) l.
Proof.
  intros K. unfold py_prefix, py_slice, clamp_index.
  replace (0 <? 0)%Z with false by reflexivity.
  destruct (k <? 0)%Z eqn:E; [apply Z.ltb_lt in E; lia|].
  replace (Z.to_nat (Z.min 0 (Z.of_nat (length l)))) with 0%nat by lia. simpl skipn.
  destruct (Z.le_ge_cases k (Z.of_nat (length l))) as [L|G].
  - f_equal. lia.
  - rewrite !firstn_all2 by lia. reflexivity.
Qed.

Lemma py_prefix_negative_length (A : Type) (l : list A) (k : Z) :
  (k < 0)%Z -> len (py_prefix l k) = Z.max (len l + k) 0.
Proof.
  intros K. unfold py_prefix, py_slice, clamp_index, len.
  replace (0 <? 0)%Z with false by reflexivity.
  apply Z.ltb_lt in K. rewrite K. apply Z.ltb_lt in K.
  replace (Z.to_nat (Z.min 0 (Z.of_nat (length l)))) with 0%nat by lia. simpl skipn.
  rewrite length_firstn. lia.
Qed.

(** ** The stable descending sort *)

Ltac sf_cases :=
  unfold SFltb, SFcompare;
  repeat match goal with
         | x : spec_float |- _ => destruct x
         end;
  repeat match goal with
         | b : bool |- _ => destruct b
         end;
  try discriminate; try reflexivity; try tauto;
  repeat match goal with
         | |- context [PosDef.Pos.compare_cont Eq ?a ?b] =>
             change (PosDef.Pos.compare_cont Eq a b) with (Pos.compare a b);
             destruct (Pos.compare_spec a b)
         | |- context [Z.compare ?a ?b] => destruct (Z.compare_spec a b)
         end;
  simpl; try discriminate; try reflexivity; try tauto; try lia.

Section SortFacts.
Context {F : Type} `{Arith F}.
Variable A : Type.
Variable key : A -> F.

Lemma insert_desc_perm_any (x : A) (l : list A) :
  Permutation (x :: l) (insert_desc key x l).
Proof.
  induction l as [|y l IH]; cbn [insert_desc]; auto.
  destruct (fltb (key x) (key y)); auto.
  apply perm_trans with (y :: x :: l); [apply perm_swap | apply perm_skip, IH].
Qed.

Lemma sort_desc_perm_any (l : list A) : Permutation l (sort_desc key l).
Proof.
  induction l as [|x l IH]; simpl; auto.
  apply perm_trans with (x :: sort_desc key l); [apply perm_skip, IH | apply insert_desc_perm_any].
Qed.

Variable P : F -> Prop.
Hypothesis order_ok : strict_weak_order P.

Lemma lt_asym (x y : F) : P x -> P y -> fltb x y = true -> fltb y x = false.
Proof.
  destruct order_ok as (Irr & Tr & _). intros Px Py L.
  destruct (fltb y x) eqn:G; auto.
  pose proof (Tr x y x Px Py Px L G) as C. rewrite (Irr x Px) in C. discriminate.
Qed.

Lemma insert_desc_sorted (x : A) (l : list A) :
  P (key x) -> Forall (fun y => P (key y)) l ->
  StronglySorted (fun x y => fltb (key x) (key y) = false) l ->
  StronglySorted (fun x y => fltb (key x) (key y) = false) (insert_desc key x l).
Proof.
  destruct order_ok as (_ & _ & Nt). intros Px Pl S.
  induction S as [|y l S IH Fy]; simpl.
  - repeat constructor.
  - inversion Pl as [|y' l' Py Pl']; subst.
    destruct (fltb (key x) (key y)) eqn:L.
    + constructor; auto.
      apply (Permutation_Forall (insert_desc_perm_any x l)).
      constructor; [now apply lt_asym | assumption].
    + constructor; [now constructor|]. constructor; [exact L|].
      rewrite Forall_forall in *. intros z Iz. apply (Nt _ (key y)); auto.
Qed.

Lemma sort_desc_keys (l : list A) :
  Forall (fun y => P (key y)) l -> Forall (fun y => P (key y)) (sort_desc key l).
Proof. apply Permutation_Forall, sort_desc_perm_any. Qed.

Lemma sort_desc_sorted (l : list A) :
  Forall (fun y => P (key y)) l ->
  StronglySorted (fun x y => fltb (key x) (key y) = false) (sort_desc key l).
Proof.
  induction 1 as [|x l Px Pl IH]; simpl; [constructor|].
  apply insert_desc_sorted; auto. now apply sort_desc_keys.
Qed.

Lemma insert_desc_filter (v : F) (x : A) (l : list A) :
  P v -> P (key x) -> Forall (fun y => P (key y)) l ->
  filter (fun y => tied (key y) v) (insert_desc key x l)
  = filter (fun y => tied (key y) v) (x :: l).
Proof.
  destruct order_ok as (_ & _ & Nt). intros Pv Px Pl.
  induction Pl as [|y l Py Pl IH]; auto.
  cbn [insert_desc]. destruct (fltb (key x) (key y)) eqn:L; auto.
  cbn [filter] in *. rewrite IH. unfold tied.
  destruct (fltb (key x) v) eqn:Xv; cbn [negb andb]; auto.
  destruct (fltb v (key x)) eqn:Vx; cbn [negb andb]; auto.
  destruct (fltb (key y) v) eqn:Yv; cbn [negb andb]; auto.
  destruct (fltb v (key y)) eqn:Vy; cbn [negb andb]; auto.
  pose proof (Nt _ _ _ Px Pv Py Xv Vy) as C. rewrite L in C. discriminate.
Qed.

Lemma sort_desc_filter (v : F) (l : list A) :
  P v -> Forall (fun y => P (key y)) l ->
  filter (fun y => tied (key y) v) (sort_desc key l) = filter (fun y => tied (key y) v) l.
Proof.
  intros Pv. induction 1 as [|x l Px Pl IH]; auto.
  cbn [sort_desc]. rewrite insert_desc_filter by (auto using sort_desc_keys).
  cbn [filter]. now rewrite IH.
Qed.

Lemma sort_desc_stable (l : list A) :
  Forall (fun y => P (key y)) l -> stable_desc_sort P key l (sort_desc key l).
Proof.
  intros Pl. split; [apply sort_desc_perm_any|]. split; [now apply sort_desc_sorted|].
  intros v Pv. now apply sort_desc_filter.
Qed.

(** The three conditions leave one list: whatever stable sort produced
    [out1] and [out2], they are the same. *)
Lemma stable_desc_sort_unique (l out1 out2 : list A) :
  Forall (fun y => P (key y)) l ->
  stable_desc_sort P key l out1 -> stable_desc_sort P key l out2 -> out1 = out2.
Proof.
  destruct order_ok as (Irr & _ & _).
  intros Pl (P1 & S1 & F1) (P2 & S2 & F2).
  assert (Pm : Permutation out1 out2) by (eapply perm_trans; [apply Permutation_sym|]; eauto).
  assert (Fl : forall v, P v -> filter (fun y => tied (key y) v) out1
                                = filter (fun y => tied (key y) v) out2)
    by (intros v Pv; now rewrite F1, F2).
  assert (Po : Forall (fun y => P (key y)) out1) by (eapply Permutation_Forall; eauto).
  clear P1 P2 F1 F2 Pl. revert out2 S2 Pm Fl.
  induction S1 as [|h1 t1 S1 IH H1]; intros out2 S2 Pm Fl.
  - now apply Permutation_nil in Pm.
  - destruct out2 as [|h2 t2]; [apply Permutation_sym, Permutation_nil in Pm; discriminate|].
    inversion S2 as [|h2' t2' S2' H2]; subst.
    inversion Po as [|h1' t1' Ph1 Pt1]; subst.
    assert (Ph2 : P (key h2)).
    { rewrite Forall_forall in Po. apply Po. apply (Permutation_in _ (Permutation_sym Pm)).
      now left. }
    assert (L12 : fltb (key h1) (key h2) = false).
    { assert (I : In h2 (h1 :: t1)) by (apply (Permutation_in _ (Permutation_sym Pm)); now left).
      destruct I as [->|I]; [now apply Irr|]. rewrite Forall_forall in H1. now apply H1. }
    assert (L21 : fltb (key h2) (key h1) = false).
    { assert (I : In h1 (h2 :: t2)) by (apply (Permutation_in _ Pm); now left).
      destruct I as [->|I]; [now apply Irr|]. rewrite Forall_forall in H2. now apply H2. }
    assert (T1 : tied (key h1) (key h1) = true) by (unfold tied; now rewrite (Irr _ Ph1)).
    assert (T2 : tied (key h2) (key h1) = true) by (unfold tied; now rewrite L21, L12).
    pose proof (Fl (key h1) Ph1) as E. cbn [filter] in E. rewrite T1, T2 in E.
    injection E as -> E.
    f_equal. apply IH; auto.
    + now apply Permutation_cons_inv in Pm.
    + intros v Pv. specialize (Fl v Pv). cbn [filter] in Fl.
      destruct (tied (key h2) v); [now injection Fl | exact Fl].
Qed.
End SortFacts.

(** Over the reals [<] is a strict weak order on all values. *)
Lemma R_strict_weak_order : strict_weak_order (F := R) (fun _ => True).
Proof.
  repeat split; cbn [fltb R_arith].
  - intros x _. destruct (Rlt_dec x x); auto. lra.
  - intros x y z _ _ _. destruct (Rlt_dec x y), (Rlt_dec y z), (Rlt_dec x z); auto; lra.
  - intros x y z _ _ _. destruct (Rlt_dec x y), (Rlt_dec y z), (Rlt_dec x z); auto; lra.
Qed.

(** In binary64 [<] is a strict weak order on all values but NaN. *)
Lemma binary64_strict_weak_order :
  strict_weak_order (F := float) (fun v => PrimFloat.is_nan v = false).
Proof.
  assert (N : forall x, PrimFloat.is_nan x = false -> Prim2SF x <> S754_nan).
  { intros x. unfold PrimFloat.is_nan. rewrite FloatAxioms.eqb_spec. unfold SFeqb, SFcompare.
    destruct (Prim2SF x); discriminate. }
  repeat split; cbn [fltb float_arith].
  - intros x Px. apply N in Px. rewrite FloatAxioms.ltb_spec. revert Px.
    generalize (Prim2SF x). intros sx. sf_cases.
  - intros x y z _ _ _. rewrite !FloatAxioms.ltb_spec.
    generalize (Prim2SF x) (Prim2SF y) (Prim2SF z). intros sx sy sz. sf_cases.
  - intros x y z Px Py Pz. apply N in Px, Py, Pz. rewrite !FloatAxioms.ltb_spec. revert Px Py Pz.
    generalize (Prim2SF x) (Prim2SF y) (Prim2SF z). intros sx sy sz. sf_cases.
Qed.

(** ** C2: ranking of query results *)

Lemma query_unfold (F : Type) `{Arith F} `{Log1p F} {order : SetOrder} (env : Env F)
    (query_text : str) (top_k : Z) (metadata_filter : option (dict scalar))
    (self : VectorStore F) :
  query env query_text top_k metadata_filter self =
  if negb (truthy (_index self)) then []
  else py_prefix (sort_desc fst (map (score_of (_tfidf_embed query_text))
                                     (candidates_of metadata_filter self))) top_k.
Proof.
  unfold query, candidates_of. destruct (negb (truthy (_index self))); [reflexivity|].
  cbn [sparse embed_text]. now destruct metadata_filter as [[|e m]|].
Qed.

Lemma candidates_of_empty (F : Type) (metadata_filter : option (dict scalar))
    (self : VectorStore F) :
  _index self = [] -> candidates_of metadata_filter self = [].
Proof. unfold candidates_of. intros ->. now destruct metadata_filter as [[|e m]|]. Qed.

(** C2: in every arithmetic, binary64 included, with any [log1p] and any
    iteration order of the set of common keys: for a non-negative [top_k],
    [query] returns at most [top_k] pairs, the first [top_k] of the scored
    candidates in the stable descending order by the scores the code
    computes (no pair before one of a greater score, tied scores in store
    iteration order), provided [<] is a strict weak order on the scores
    (over the reals: always; in binary64: no score is NaN); on an empty
    store it returns the empty list for every [top_k]. *)
Theorem query_ranking (F : Type) `{Arith F} `{Log1p F} {order : SetOrder} (P : F -> Prop)
    (env : Env F) (query_text : str) (top_k : Z)
    (metadata_filter : option (dict scalar)) (self : VectorStore F) :
  let scored := map (score_of (_tfidf_embed query_text)) (candidates_of metadata_filter self) in
  let hits := query env query_text top_k metadata_filter self in
  ((0 <= top_k)%Z -> (len hits <= top_k)%Z) /\
  ((0 <= top_k)%Z -> strict_weak_order P -> Forall (fun hit => P (fst hit)) scored ->
   exists ranked,
     stable_desc_sort P fst scored ranked /\ hits = firstn (Z.to_nat top_k) ranked /\
     forall ranked', stable_desc_sort P fst scored ranked' -> ranked' = ranked) /\
  (_index self = [] -> forall k, query env query_text k metadata_filter self = []).
Proof.
  cbv zeta. rewrite query_unfold.
  assert (E : (0 <= top_k)%Z ->
    (if negb (truthy (_index self)) then []
     else py_prefix (sort_desc fst (map (score_of (_tfidf_embed query_text))
                                        (candidates_of metadata_filter self))) top_k)
    = firstn (Z.to_nat top_k)
        (sort_desc fst (map (score_of (_tfidf_embed query_text))
                            (candidates_of metadata_filter self)))).
  { intros K. destruct (_index self) as [|kv idx] eqn:I; cbn [truthy negb].
    - rewrite (candidates_of_empty metadata_filter I). simpl. now rewrite firstn_nil.
    - now apply py_prefix_firstn. }
  split; [|split].
  - intros K. rewrite (E K). unfold len. rewrite length_firstn. lia.
  - intros K O Ps. eexists. split; [now apply (sort_desc_stable O)|]. split; [now apply E|].
    intros ranked' S. apply (stable_desc_sort_unique O Ps S). now apply sort_desc_stable.
  - intros I k. rewrite query_unfold, I. reflexivity.
Qed.

Lemma query_ranking_witness :
  (len (query (order := key_order) env0 (s "autonomous policy governance") 1 None store_two)
   <= 1)%Z /\
  exists ranked,
    stable_desc_sort (fun _ => True) fst
      (map (score_of (order := key_order) (_tfidf_embed (s "autonomous policy governance")))
           (candidates_of None store_two)) ranked /\
    query (order := key_order) env0 (s "autonomous policy governance") 1 None store_two
    = firstn (Z.to_nat 1) ranked.
Proof.
  destruct (@query_ranking R _ _ key_order (fun _ => True) env0
              (s "autonomous policy governance") 1 None store_two) as (L & S & _).
  split; [apply L; lia|].
  destruct (S ltac:(lia) R_strict_weak_order) as (ranked & St & E & _).
  - apply Forall_forall. intros hit _. exact I.
  - exists ranked. split; assumption.
Defined.

Lemma query_length (F : Type) `{Arith F} `{Log1p F} {order : SetOrder} (env : Env F)
    (query_text : str) (top_k : Z)
    (metadata_filter : option (dict scalar)) (self : VectorStore F) :
  len (query env query_text top_k metadata_filter self)
  = len (py_prefix (candidates_of metadata_filter self) top_k).
Proof.
  rewrite query_unfold. destruct (_index self) as [|kv idx] eqn:I; cbn [truthy negb].
  - rewrite (candidates_of_empty metadata_filter I).
    unfold py_prefix, py_slice. now rewrite skipn_nil, firstn_nil.
  - set (scored := map (score_of (_tfidf_embed query_text)) (candidates_of metadata_filter self)).
    assert (L : length (sort_desc fst scored) = length (candidates_of metadata_filter self)).
    { rewrite <- (Permutation_length (sort_desc_perm_any fst scored)). apply length_map. }
    unfold len, py_prefix, py_slice. rewrite !length_firstn, !length_skipn, L. reflexivity.
Qed.

(** C2, as stated, fails for a negative [top_k]: with [top_k = -1] the slice
    drops the last entry, and the two-document store answers with one hit,
    whatever the arithmetic's [log1p] and the iteration order of sets. *)
Lemma query_negative_top_k :
  (forall order : SetOrder,
     len (query (order := order) env0 (s "autonomous policy governance") (-1) None store_two)
     = 1%Z) /\
  (forall order : SetOrder,
     ~ (len (query (order := order) env0 (s "autonomous policy governance") (-1) None store_two)
        <= -1)%Z).
Proof.
  assert (E : forall order : SetOrder,
     len (query (order := order) env0 (s "autonomous policy governance") (-1) None store_two)
     = 1%Z).
  { intros order. rewrite query_length, py_prefix_negative_length by lia. reflexivity. }
  split; [exact E | intros order; rewrite E; lia].
Qed.

(** ** C9: the dense component is never read *)

Section DenseFacts.
Context {F : Type} `{Arith F} `{Log1p F} {order : SetOrder}.

Lemma insert_desc_map (A : Type) (key : A -> F) (g : A -> A) (x : A) (l : list A) :
  (forall y, key (g y) = key y) ->
  map g (insert_desc key x l) = insert_desc key (g x) (map g l).
Proof.
  intros K. induction l as [|y l IH]; simpl; auto.
  rewrite !K. destruct (fltb (key x) (key y)); simpl; now rewrite ?IH.
Qed.

Lemma sort_desc_map (A : Type) (key : A -> F) (g : A -> A) (l : list A) :
  (forall y, key (g y) = key y) ->
  map g (sort_desc key l) = sort_desc key (map g l).
Proof.
  intros K. induction l as [|x l IH]; simpl; auto.
  now rewrite insert_desc_map, IH.
Qed.

Lemma filter_map_erase (m : dict scalar) (docs : list (Document F)) :
  filter (metadata_matches m) (map erase_dense docs)
  = map erase_dense (filter (metadata_matches m) docs).
Proof.
  induction docs as [|d docs IH]; simpl; auto.
  change (metadata_matches m (erase_dense d)) with (metadata_matches m d).
  destruct (metadata_matches m d); simpl; now rewrite IH.
Qed.

Lemma candidates_of_erase (metadata_filter : option (dict scalar)) (self : VectorStore F) :
  candidates_of metadata_filter {| _index := erase_index (_index self); _file := None |}
  = map erase_dense (candidates_of metadata_filter self).
Proof.
  assert (V : dict_values (erase_index (_index self)) = map erase_dense (dict_values (_index self))).
  { unfold dict_values, erase_index. rewrite !map_map. reflexivity. }
  unfold candidates_of. cbn [_index]. rewrite V.
  destruct metadata_filter as [[|e m]|]; auto. apply filter_map_erase.
Qed.

(** Erasing the dense fields of the hits of a query gives the hits of the
    same query on the erased index, whatever the environment. *)
Lemma query_erase (env env' : Env F) (query_text : str) (top_k : Z)
    (metadata_filter : option (dict scalar)) (self : VectorStore F) :
  map erase_hit (query env query_text top_k metadata_filter self)
  = query env' query_text top_k metadata_filter
      {| _index := erase_index (_index self); _file := None |}.
Proof.
  rewrite !query_unfold. cbn [_index].
  destruct (_index self) as [|kv index] eqn:I; [reflexivity|]. cbn [erase_index map truthy negb].
  unfold py_prefix. rewrite py_slice_map. f_equal.
  rewrite sort_desc_map by reflexivity. f_equal.
  change ((fst kv, erase_dense (snd kv)) :: map (fun kv0 => (fst kv0, erase_dense (snd kv0))) index)
    with (erase_index (kv :: index)).
  rewrite <- I, candidates_of_erase, !map_map. reflexivity.
Qed.

(** C9: two stores that differ only in the dense fields of their embeddings
    answer every query with the same scores and the same documents, dense
    fields apart, in the same order. *)
Theorem query_ignores_dense (env1 env2 : Env F) (query_text : str) (top_k : Z)
    (metadata_filter : option (dict scalar)) (st1 st2 : VectorStore F) :
  same_except_dense st1 st2 ->
  let hits1 := query env1 query_text top_k metadata_filter st1 in
  let hits2 := query env2 query_text top_k metadata_filter st2 in
  map erase_hit hits1 = map erase_hit hits2 /\
  map fst hits1 = map fst hits2 /\
  map (fun hit => id (snd hit)) hits1 = map (fun hit => id (snd hit)) hits2.
Proof.
  intros S. cbv zeta.
  assert (E : map erase_hit (query env1 query_text top_k metadata_filter st1)
            = map erase_hit (query env2 query_text top_k metadata_filter st2)).
  { rewrite (query_erase env1 env1), (query_erase env2 env1). unfold same_except_dense in S.
    now rewrite S. }
  split; [exact E|]. split.
  - apply (f_equal (map fst)) in E. now rewrite !map_map in E.
  - apply (f_equal (map (fun hit => id (snd hit)))) in E. now rewrite !map_map in E.
Qed.
End DenseFacts.

Lemma query_ignores_dense_witness :
  same_except_dense store_sparse_only store_with_dense /\
  map fst (query (order := key_order) env0 (s "agents") 5 None store_sparse_only)
  = map fst (query (order := key_order) env0 (s "agents") 5 None store_with_dense).
Proof.
  assert (S : same_except_dense store_sparse_only store_with_dense) by reflexivity.
  split; [exact S|].
  apply (query_ignores_dense (order := key_order) env0 env0 (s "agents") 5 None S).
Defined.

(** ** C7 and C8: replacement on upsert and the persistence round trip *)

Section StoreFacts.
Context {F : Type} `{Arith F} `{Log1p F} {order : SetOrder}.

Lemma upsert_index (env : Env F) (doc_id content : str) (metadata : option (dict scalar))
    (correlation_id : option str) (run_id : str) (skip_embed : bool) (self : VectorStore F) :
  _index (snd (upsert env doc_id content metadata correlation_id run_id skip_embed self))
  = dict_set doc_id (upsert_doc env doc_id content metadata correlation_id run_id skip_embed)
      (_index self).
Proof. unfold upsert, _flush. now destruct (disk_ok env). Qed.

Lemma upsert_file (env : Env F) (doc_id content : str) (metadata : option (dict scalar))
    (correlation_id : option str) (run_id : str) (skip_embed : bool) (self : VectorStore F) :
  disk_ok env = true ->
  let self' := snd (upsert env doc_id content metadata correlation_id run_id skip_embed self) in
  _file self' = Some (map (fun doc => Object (to_dict doc)) (dict_values (_index self'))).
Proof. intros D. unfold upsert, _flush. now rewrite D. Qed.

Lemma dict_set_inv (doc_id : str) (doc : Document F) (index : dict (Document F)) :
  id doc = doc_id -> index_inv index -> index_inv (dict_set doc_id doc index).
Proof.
  intros I [W K]. split; [now apply dict_set_wf|].
  clear W. induction index as [|[k d] index IH]; simpl.
  - repeat constructor. exact I.
  - inversion K as [|kv index' Hkd Kt]. destruct (eqb_str doc_id k) eqn:E.
    + apply eqb_str_eq in E. constructor; [simpl; congruence | assumption].
    + constructor; auto.
Qed.

Lemma from_dict_id_content (env : Env F) (d : Json_record F) (doc : Document F) :
  from_dict env d = Ok doc -> j_id d = Some (id doc) /\ j_content d = Some (content doc).
Proof.
  unfold from_dict. destruct (j_id d), (j_content d); try discriminate.
  intros [= <-]. now split.
Qed.

Lemma _load_line_inv (env : Env F) (index : dict (Document F)) (line : Line F) :
  index_inv index -> index_inv (_load_line env index line).
Proof.
  intros I. destruct line as [| |d]; simpl; auto.
  destruct (from_dict env d) eqn:E; auto. now apply dict_set_inv.
Qed.

Lemma VectorStore_init_inv (env : Env F) (file : option (list (Line F))) :
  index_inv (_index (VectorStore_init env file)).
Proof.
  unfold VectorStore_init, _load. cbn [_file _index].
  assert (I0 : index_inv (@nil (str * Document F))) by (split; constructor).
  destruct file as [lines|]; cbn [_index]; [|exact I0].
  revert I0. generalize (@nil (str * Document F)).
  induction lines as [|line lines IH]; simpl; auto.
  intros index I. apply IH. now apply _load_line_inv.
Qed.

Lemma run_upsert_inv (self : VectorStore F) (c : UpsertCall F) :
  index_inv (_index self) -> index_inv (_index (run_upsert self c)).
Proof. intros I. unfold run_upsert. rewrite upsert_index. now apply dict_set_inv. Qed.

Lemma run_upserts_inv (calls : list (UpsertCall F)) (self : VectorStore F) :
  index_inv (_index self) -> index_inv (_index (run_upserts calls self)).
Proof.
  revert self. induction calls as [|c calls IH]; simpl; auto.
  intros self I. apply IH. now apply run_upsert_inv.
Qed.

(** C7: after [upsert(id, A)] and then [upsert(id, B)], the count is the one
    after the first call, [get(id)] is the document built from the arguments
    of the second call alone, with content [B], and no two stored documents
    share an id. *)
Theorem upsert_replaces (envA envB : Env F) (doc_id A B : str)
    (metadataA metadataB : option (dict scalar)) (corrA corrB : option str)
    (runA runB : str) (skipA skipB : bool) (self : VectorStore F) :
  index_inv (_index self) ->
  let st1 := snd (upsert envA doc_id A metadataA corrA runA skipA self) in
  let st2 := snd (upsert envB doc_id B metadataB corrB runB skipB st1) in
  count st2 = count st1 /\
  get doc_id st2 = Some (upsert_doc envB doc_id B metadataB corrB runB skipB) /\
  option_map content (get doc_id st2) = Some B /\
  NoDup (map id (dict_values (_index st2))) /\
  index_inv (_index st2).
Proof.
  intros I. cbv zeta. unfold count, get, len. rewrite !upsert_index.
  set (docA := upsert_doc envA doc_id A metadataA corrA runA skipA).
  set (docB := upsert_doc envB doc_id B metadataB corrB runB skipB).
  assert (I2 : index_inv (dict_set doc_id docB (dict_set doc_id docA (_index self))))
    by (repeat apply dict_set_inv; auto).
  repeat split.
  - f_equal. apply dict_set_length_mem. unfold dict_mem. now rewrite dict_get_set_same.
  - apply dict_get_set_same.
  - now rewrite dict_get_set_same.
  - destruct I2 as [W K]. unfold dict_wf, dict_keys in W. unfold dict_values. rewrite map_map.
    erewrite map_ext_in; [exact W|]. rewrite Forall_forall in K. intros kv Ik. now apply K.
  - apply I2.
  - apply I2.
Qed.
End StoreFacts.

Lemma upsert_replaces_witness :
  index_inv (_index (VectorStore_init env0 None)) /\
  option_map content
    (get (s "mem-001")
       (snd (upsert env0 (s "mem-001") (s "second body") None None [] false
          (snd (upsert env0 (s "mem-001") (s "first body") None None [] false
             (VectorStore_init env0 None))))))
  = Some (s "second body").
Proof.
  assert (I : index_inv (_index (VectorStore_init env0 None)))
    by (split; constructor).
  split; [exact I|].
  apply (upsert_replaces env0 env0 (s "mem-001") (s "first body") (s "second body")
           None None None None [] [] false false I).
Defined.

Section PersistenceFacts.
Context {F : Type} `{Arith F} `{Log1p F} {order : SetOrder}.

Lemma dict_set_fresh (V : Type) (k : str) (v : V) (d : dict V) :
  ~ In k (dict_keys d) -> dict_set k v d = d ++ [(k, v)].
Proof.
  induction d as [|[k' v'] d IH]; simpl; auto.
  intros N. case_key k k'; [tauto|]. rewrite IH; tauto.
Qed.

Lemma ids_and_content_set (doc_id : str) (doc : Document F) (index : dict (Document F)) :
  ids_and_content (dict_set doc_id doc index)
  = dict_set doc_id (content doc) (ids_and_content index).
Proof.
  induction index as [|[k d] index IH]; simpl; auto.
  destruct (eqb_str doc_id k); simpl; now rewrite ?IH.
Qed.

(** Loading a line changes ids and content in a way that does not depend on
    the surroundings of the load. *)
Lemma _load_line_ids_and_content (env env' : Env F) (index index' : dict (Document F))
    (line : Line F) :
  ids_and_content index = ids_and_content index' ->
  ids_and_content (_load_line env index line) = ids_and_content (_load_line env' index' line).
Proof.
  intros E. destruct line as [| |d]; simpl; auto.
  unfold from_dict. destruct (j_id d), (j_content d); auto.
  cbn [id new_Document]. now rewrite !ids_and_content_set, E.
Qed.

Lemma _load_ids_and_content (env env' : Env F) (lines : list (Line F))
    (index index' : dict (Document F)) :
  ids_and_content index = ids_and_content index' ->
  ids_and_content (fold_left (_load_line env) lines index)
  = ids_and_content (fold_left (_load_line env') lines index').
Proof.
  revert index index'. induction lines as [|line lines IH]; simpl; auto.
  intros index index' E. apply IH. now apply _load_line_ids_and_content.
Qed.

(** Loading what [_flush] wrote for documents with distinct fresh ids appends
    them, ids and content unchanged. *)
Lemma _load_flushed (env : Env F) (docs : list (Document F)) (index : dict (Document F)) :
  NoDup (map id docs) ->
  (forall d, In d docs -> ~ In (id d) (dict_keys index)) ->
  ids_and_content (fold_left (_load_line env) (map (fun doc => Object (to_dict doc)) docs) index)
  = ids_and_content index ++ map (fun d => (id d, content d)) docs.
Proof.
  revert index. induction docs as [|d docs IH]; intros index ND Fr; simpl.
  - now rewrite app_nil_r.
  - inversion ND as [|x l Nd ND']; subst.
    cbn [id new_Document].
    rewrite (dict_set_fresh _ (Fr d (or_introl eq_refl))).
    rewrite IH; auto.
    + unfold ids_and_content. rewrite map_app, <- app_assoc. reflexivity.
    + intros d' I'. unfold dict_keys. rewrite map_app, in_app_iff. simpl.
      intros [K|[K|[]]].
      * apply (Fr d' (or_intror I')). exact K.
      * apply Nd. rewrite K. now apply in_map.
Qed.

Lemma ids_and_content_values (index : dict (Document F)) :
  index_inv index ->
  map (fun d => (id d, content d)) (dict_values index) = ids_and_content index.
Proof.
  intros [_ K]. unfold dict_values, ids_and_content. rewrite map_map.
  apply map_ext_in. intros kv I. rewrite Forall_forall in K. now rewrite (K kv I).
Qed.



End PersistenceFacts.


(** ** C10: termination of the chunker *)

Lemma chunk_loop_terminates (words : list str) (chunk_size overlap : Z) :
  (overlap < chunk_size)%Z ->
  forall (fuel : nat) (start : Z) (chunks : list str),
    (Z.max 0 (len words - start) < Z.of_nat fuel)%Z ->
    exists chunks', chunk_loop fuel words chunk_size overlap start chunks = Some chunks'.
Proof.
  intros Lt. induction fuel as [|fuel IH]; intros start chunks B.
  - lia.
  - cbn [chunk_loop]. destruct (Z.ltb_spec start (len words)) as [L|G]; [|eauto].
    destruct (Z.geb_spec (Z.min (start + chunk_size) (len words)) (len words)) as [E|E]; [eauto|].
    apply IH. lia.
Qed.

Lemma chunk_sections_terminates (sections : list str) (chunk_size overlap : Z) (fuel : nat) :
  (overlap < chunk_size)%Z ->
  Forall (fun section => (length (split section) < fuel)%nat) sections ->
  forall chunks, exists chunks',
    chunk_sections fuel sections chunk_size overlap chunks = Some chunks'.
Proof.
  intros Lt. induction 1 as [|section sections B _ IH]; intros chunks; cbn [chunk_sections].
  - eauto.
  - destruct (negb (truthy (split section))); [apply IH|].
    destruct (chunk_loop_terminates (words := split section) Lt (fuel := fuel) (start := 0) chunks)
      as [chunks' ->]; [unfold len; lia | apply IH].
Qed.

Lemma chunk_loop_diverges (words : list str) (chunk_size overlap : Z) :
  (chunk_size <= overlap)%Z -> (Z.max 0 chunk_size < len words)%Z ->
  forall (fuel : nat) (start : Z) (chunks : list str),
    (start <= 0)%Z -> chunk_loop fuel words chunk_size overlap start chunks = None.
Proof.
  intros Ge Long. induction fuel as [|fuel IH]; intros start chunks B; cbn [chunk_loop]; auto.
  destruct (Z.ltb_spec start (len words)) as [L|G]; [|lia].
  destruct (Z.geb_spec (Z.min (start + chunk_size) (len words)) (len words)) as [E|E]; [lia|].
  apply IH. lia.
Qed.

Lemma chunk_sections_diverges (sections : list str) (chunk_size overlap : Z) (fuel : nat) :
  (chunk_size <= overlap)%Z ->
  (exists section, In section sections /\ (Z.max 0 chunk_size < len (split section))%Z) ->
  forall chunks, chunk_sections fuel sections chunk_size overlap chunks = None.
Proof.
  intros Ge (bad & I & Long). induction sections as [|section sections IH]; [destruct I|].
  intros chunks. cbn [chunk_sections]. destruct I as [->|I].
  - destruct (split bad) as [|w ws] eqn:W; [unfold len in Long; simpl in Long; lia|].
    cbn [truthy negb]. rewrite <- W. rewrite <- W in Long.
    now rewrite (chunk_loop_diverges Ge Long).
  - destruct (negb (truthy (split section))); [now apply IH|].
    destruct (chunk_loop fuel (split section) chunk_size overlap 0 chunks); [now apply IH | reflexivity].
Qed.

(** C10: when [overlap < chunk_size] the chunker returns on every text, for
    all fuel from [enough_fuel text] on; when [overlap >= chunk_size] and a
    section has words, and more of them than [chunk_size], no amount of fuel
    makes it return. *)
Theorem chunker_termination (text : str) (chunk_size overlap : Z) :
  ((overlap < chunk_size)%Z ->
   forall fuel, (enough_fuel text <= fuel)%nat ->
   exists chunks, _chunk_text fuel text chunk_size overlap = Some chunks) /\
  ((chunk_size <= overlap)%Z ->
   (exists section, In section (heading_split text) /\
                    (Z.max 0 chunk_size < len (split section))%Z) ->
   forall fuel, _chunk_text fuel text chunk_size overlap = None).
Proof.
  split.
  - intros Lt fuel B. unfold _chunk_text.
    destruct (chunk_sections_terminates (sections := heading_split text) (fuel := fuel) Lt)
      with (chunks := @nil str) as [chunks' ->]; [|eauto].
    apply Forall_forall. intros section I. unfold enough_fuel in B.
    assert (M : (length (split section)
                 <= list_max (map (fun section => length (split section)) (heading_split text)))%nat).
    { pose proof (proj1 (list_max_le _ _) (Nat.le_refl
        (list_max (map (fun section => length (split section)) (heading_split text))))) as A.
      rewrite Forall_forall in A. apply A.
      apply (in_map (fun section => length (split section))) in I. exact I. }
    lia.
  - intros Ge Bad fuel. unfold _chunk_text.
    now rewrite (chunk_sections_diverges fuel Ge Bad).
Qed.

Lemma chunker_termination_witness :
  ((64 < 512)%Z /\
   exists chunks, _chunk_text 4 (s "alpha beta gamma") 512 64 = Some chunks) /\
  ((2 <= 2)%Z /\ forall fuel, _chunk_text fuel (s "alpha beta gamma") 2 2 = None).
Proof.
  split; (split; [lia|]).
  - apply (proj1 (chunker_termination (s "alpha beta gamma") 512 64)); [lia|].
    vm_compute. lia.
  - apply (proj2 (chunker_termination (s "alpha beta gamma") 2 2)); [lia|].
    exists (s "alpha beta gamma"). split; [now left | vm_compute; reflexivity].
Defined.

(** ** C4: the windows of a section *)

Lemma runs_from_nonempty (p : ascii -> bool) (text cur : str) :
  Forall (fun r => r <> []) (runs_from p cur text).
Proof.
  revert cur; induction text as [|c rest IH]; intros cur; simpl.
  - destruct cur; [constructor | repeat constructor; discriminate].
  - destruct (p c); [apply IH|].
    destruct cur; [apply IH | constructor; [discriminate | apply IH]].
Qed.

Lemma split_words_ok (text : str) : Forall word_ok (split text).
Proof.
  unfold split, runs.
  pose proof (runs_from_nonempty (fun c => negb (is_space c)) text []) as N.
  pose proof (runs_from_Forall (p := fun c => negb (is_space c)) text (cur := []) eq_refl) as S.
  rewrite Forall_forall in *. intros w I. split; [now apply N | now apply S].
Qed.

Lemma lstrip_nil (t : str) : lstrip t = [] -> forallb is_space t = true.
Proof.
  induction t as [|c t IH]; simpl; auto.
  destruct (is_space c); [auto | discriminate].
Qed.

Lemma lstrip_head (t r : str) (x : ascii) : lstrip t = x :: r -> is_space x = false.
Proof.
  induction t as [|c t IH]; simpl; [discriminate|].
  destruct (is_space c) eqn:E; [auto | now intros [= <- _]].
Qed.

Lemma strip_truthy (t : str) (c : ascii) :
  In c t -> is_space c = false -> truthy (strip t) = true.
Proof.
  intros I N. unfold strip.
  destruct (rev (lstrip (rev (lstrip t)))) as [|y r] eqn:E; [|reflexivity].
  exfalso. apply (f_equal (@rev ascii)) in E. rewrite rev_involutive in E. simpl in E.
  apply lstrip_nil in E. rewrite forallb_forall in E.
  destruct (lstrip t) as [|x r] eqn:L.
  - apply lstrip_nil in L. rewrite forallb_forall in L. specialize (L c I). congruence.
  - apply lstrip_head in L. specialize (E x). rewrite <- in_rev in E.
    specialize (E (or_introl eq_refl)). congruence.
Qed.

Lemma join_words_truthy (ws : list str) :
  ws <> [] -> Forall word_ok ws -> truthy (strip (join (s " ") ws)) = true.
Proof.
  intros N W. destruct ws as [|w ws]; [contradiction|].
  inversion W as [|w' ws' [Nw Sw] _]; subst.
  destruct w as [|c w]; [contradiction|]. simpl in Sw. apply andb_true_iff in Sw as [Sc _].
  apply (strip_truthy (c := c)).
  - destruct ws; simpl; auto.
  - now destruct (is_space c).
Qed.

Lemma py_slice_Forall (A : Type) (P : A -> Prop) (l : list A) (i j : Z) :
  Forall P l -> Forall P (py_slice l i j).
Proof.
  intros Fl. unfold py_slice.
  set (a := Z.to_nat _). set (b := Z.to_nat _).
  assert (Fs : Forall P (skipn b l)).
  { rewrite <- (firstn_skipn b l) in Fl. now apply Forall_app in Fl. }
  rewrite <- (firstn_skipn a (skipn b l)) in Fs. now apply Forall_app in Fs.
Qed.

Lemma py_slice_len (A : Type) (l : list A) (i j : Z) :
  len (py_slice l i j) = Z.max 0 (clamp_index (len l) j - clamp_index (len l) i).
Proof.
  unfold py_slice, len. rewrite length_firstn, length_skipn.
  unfold clamp_index. destruct (Z.ltb_spec i 0), (Z.ltb_spec j 0); lia.
Qed.

Lemma py_slice_clamp_end (A : Type) (l : list A) (i c : Z) :
  (0 <= i)%Z -> (0 < c)%Z ->
  py_slice l i (Z.min (i + c) (len l)) = py_slice l i (i + c).
Proof.
  intros I C. unfold py_slice, clamp_index, len.
  destruct (Z.ltb_spec (Z.min (i + c) (Z.of_nat (length l))) 0),
           (Z.ltb_spec (i + c) 0); try lia.
  do 2 f_equal. lia.
Qed.

Lemma num_windows_facts (n chunk_size overlap : Z) :
  (0 < n)%Z -> (0 <= overlap < chunk_size)%Z ->
  let m := num_windows n chunk_size overlap in
  let step := (chunk_size - overlap)%Z in
  (1 <= m)%nat /\
  (forall k, (k < m - 1)%nat -> (Z.of_nat k * step + chunk_size < n)%Z) /\
  (n <= Z.of_nat (m - 1) * step + chunk_size)%Z /\
  (forall k, (k <= m - 1)%nat -> (Z.of_nat k * step < n)%Z) /\
  (Z.of_nat m <= n)%Z.
Proof.
  intros N O. cbv zeta. unfold num_windows.
  destruct (Z.leb_spec n chunk_size) as [L|G].
  - simpl. repeat split; intros; try lia.
    replace k with 0%nat by lia. lia.
  - set (step := (chunk_size - overlap)%Z).
    set (q := ((n - chunk_size + step - 1) / step)%Z).
    assert (S0 : (0 < step)%Z) by (unfold step; lia).
    pose proof (Z.div_mod (n - chunk_size + step - 1) step ltac:(lia)) as DM.
    pose proof (Z.mod_pos_bound (n - chunk_size + step - 1) step S0) as MB.
    fold q in DM.
    set (r := ((n - chunk_size + step - 1) mod step)%Z) in *.
    assert (Q0 : (0 <= q)%Z) by (apply Z.div_pos; lia).
    replace (S (Z.to_nat q) - 1)%nat with (Z.to_nat q) by lia.
    repeat split; intros; try nia.
Qed.

Lemma chunk_loop_windows (words : list str) (chunk_size overlap : Z) :
  words <> [] -> Forall word_ok words -> (0 <= overlap < chunk_size)%Z ->
  forall (r k fuel : nat) (chunks : list str),
    (k + r = num_windows (len words) chunk_size overlap - 1)%nat -> (r < fuel)%nat ->
    chunk_loop fuel words chunk_size overlap (Z.of_nat k * (chunk_size - overlap)) chunks
    = Some (chunks ++ map (fun k => join (s " ") (window words chunk_size overlap k))
                          (seq k (S r))).
Proof.
  intros Nw W O.
  assert (N : (0 < len words)%Z) by (destruct words; [contradiction | unfold len; simpl; lia]).
  destruct (num_windows_facts N O) as (M1 & F1 & F2 & F3 & _).
  set (m := num_windows (len words) chunk_size overlap) in *. cbv zeta in *.
  set (step := (chunk_size - overlap)%Z) in *.
  assert (Step : forall k fuel chunks, (k <= m - 1)%nat ->
    chunk_loop (S fuel) words chunk_size overlap (Z.of_nat k * step) chunks
    = if (k =? m - 1)%nat
      then Some (chunks ++ [join (s " ") (window words chunk_size overlap k)])
      else chunk_loop fuel words chunk_size overlap (Z.of_nat (S k) * step)
             (chunks ++ [join (s " ") (window words chunk_size overlap k)])).
  { intros k fuel chunks K. cbn [chunk_loop].
    pose proof (F3 k K) as Lk.
    assert (P0 : (0 <= Z.of_nat k * step)%Z) by (unfold step; nia).
    destruct (Z.ltb_spec (Z.of_nat k * step) (len words)) as [_|]; [|lia].
    rewrite py_slice_clamp_end by lia.
    change (py_slice words (Z.of_nat k * step) (Z.of_nat k * step + chunk_size))
      with (window words chunk_size overlap k).
    assert (T : truthy (strip (join (s " ") (window words chunk_size overlap k))) = true).
    { apply join_words_truthy; [|now apply py_slice_Forall].
      intros E. apply (f_equal (@len str)) in E. unfold window in E.
      rewrite py_slice_len in E. unfold clamp_index in E. fold step in E.
      destruct (Z.ltb_spec (Z.of_nat k * step + chunk_size) 0),
               (Z.ltb_spec (Z.of_nat k * step) 0); unfold len in E at 3; simpl in E; lia. }
    rewrite T.
    destruct (Nat.eqb_spec k (m - 1)) as [->|Ne].
    - destruct (Z.geb_spec (Z.min (Z.of_nat (m - 1) * step + chunk_size) (len words)) (len words));
        [reflexivity | lia].
    - assert (Kl : (k < m - 1)%nat) by lia. specialize (F1 k Kl).
      destruct (Z.geb_spec (Z.min (Z.of_nat k * step + chunk_size) (len words)) (len words));
        [lia|].
      f_equal. unfold step. lia. }
  induction r as [|r IH]; intros k fuel chunks K Fu; (destruct fuel as [|fuel]; [lia|]).
  - rewrite Step by lia. replace (k =? m - 1)%nat with true by (symmetry; apply Nat.eqb_eq; lia).
    reflexivity.
  - rewrite Step by lia. replace (k =? m - 1)%nat with false by (symmetry; apply Nat.eqb_neq; lia).
    rewrite IH by lia. rewrite <- app_assoc. reflexivity.
Qed.

(** C4: for [0 <= overlap < chunk_size], the loop over a section emits the
    windows [words[k*step : k*step + chunk_size]], [step = chunk_size -
    overlap], for [k = 0, 1, ...] up to and including the first window that
    reaches the end of the section; a section of 1000 words with sizes 500
    and 50 gives the three windows at 0, 450 and 900, of 500, 500 and 100
    words. *)
Theorem chunk_windows :
  (forall (words : list str) (chunk_size overlap : Z) (chunks : list str) (fuel : nat),
     words <> [] -> Forall word_ok words -> (0 <= overlap < chunk_size)%Z ->
     (length words < fuel)%nat ->
     let m := num_windows (len words) chunk_size overlap in
     let step := (chunk_size - overlap)%Z in
     chunk_loop fuel words chunk_size overlap 0 chunks
     = Some (chunks ++ map (fun k => join (s " ") (window words chunk_size overlap k)) (seq 0 m)) /\
     (forall k, (k < m - 1)%nat -> (Z.of_nat k * step + chunk_size < len words)%Z) /\
     (Z.of_nat (m - 1) * step < len words <= Z.of_nat (m - 1) * step + chunk_size)%Z) /\
  (forall words : list str,
     length words = 1000%nat -> Forall word_ok words ->
     chunk_loop 1001 words 500 50 0 []
     = Some [join (s " ") (py_slice words 0 500);
             join (s " ") (py_slice words 450 950);
             join (s " ") (py_slice words 900 1400)] /\
     len (py_slice words 0 500) = 500%Z /\
     len (py_slice words 450 950) = 500%Z /\
     len (py_slice words 900 1400) = 100%Z).
Proof.
  assert (G : forall (words : list str) (chunk_size overlap : Z) (chunks : list str) (fuel : nat),
     words <> [] -> Forall word_ok words -> (0 <= overlap < chunk_size)%Z ->
     (length words < fuel)%nat ->
     chunk_loop fuel words chunk_size overlap 0 chunks
     = Some (chunks ++ map (fun k => join (s " ") (window words chunk_size overlap k))
                           (seq 0 (num_windows (len words) chunk_size overlap)))).
  { intros words chunk_size overlap chunks fuel Nw W O Fu.
    assert (N : (0 < len words)%Z) by (destruct words; [contradiction | unfold len; simpl; lia]).
    destruct (num_windows_facts N O) as (M1 & _ & _ & _ & Mn). cbv zeta in *.
    pose proof (chunk_loop_windows Nw W O
                  (r := num_windows (len words) chunk_size overlap - 1) (k := 0)
                  (fuel := fuel) chunks) as L.
    change (Z.of_nat 0 * (chunk_size - overlap))%Z with 0%Z in L.
    replace (S (num_windows (len words) chunk_size overlap - 1))
      with (num_windows (len words) chunk_size overlap) in L by lia.
    assert (Ln : len words = Z.of_nat (length words)) by reflexivity.
    apply L; [reflexivity | lia]. }
  split.
  - intros words chunk_size overlap chunks fuel Nw W O Fu. cbv zeta.
    assert (N : (0 < len words)%Z) by (destruct words; [contradiction | unfold len; simpl; lia]).
    destruct (num_windows_facts N O) as (M1 & F1 & F2 & F3 & _). cbv zeta in *.
    split; [now apply G|]. split; [exact F1|]. split; [apply F3; lia | exact F2].
  - intros words L W.
    assert (Nw : words <> []) by (intros ->; discriminate L).
    split.
    + rewrite (G words 500%Z 50%Z [] 1001%nat Nw W) by lia.
      unfold len. rewrite L. reflexivity.
    + rewrite !py_slice_len. unfold len. rewrite L. repeat split; reflexivity.
Qed.

Lemma three_words_ok : Forall word_ok three_words.
Proof. repeat constructor; discriminate. Qed.

Lemma chunk_windows_witness :
  (three_words <> [] /\ Forall word_ok three_words /\ (0 <= 1 < 2)%Z /\ (length three_words < 4)%nat) /\
  chunk_loop 4 three_words 2 1 0 []
  = Some ([] ++ map (fun k => join (s " ") (window three_words 2 1 k))
                    (seq 0 (num_windows (len three_words) 2 1))).
Proof.
  assert (N : three_words <> []) by discriminate.
  assert (O : (0 <= 1 < 2)%Z) by lia.
  assert (Fu : (length three_words < 4)%nat) by (simpl; lia).
  split; [repeat split; try assumption; try lia; apply three_words_ok|].
  apply (proj1 chunk_windows three_words 2%Z 1%Z [] 4%nat N three_words_ok O Fu).
Defined.

(** C4, as stated, fails: on three words with sizes 2 and 1 the windows that
    start before the end of the section are those at 0, 1 and 2, but the code
    stops after the window at 1, which already reaches the end. *)
Lemma chunker_stops_at_section_end :
  _chunk_text 10 (s "alpha beta gamma") 2 1 = Some [s "alpha beta"; s "beta gamma"] /\
  map (join (s " ")) (spec_windows 10 (split (s "alpha beta gamma")) 2 1 0)
  = [s "alpha beta"; s "beta gamma"; s "gamma"] /\
  _chunk_text 10 (s "alpha beta gamma") 2 1
  <> Some (map (join (s " ")) (spec_windows 10 (split (s "alpha beta gamma")) 2 1 0)).
Proof. repeat split; try (vm_compute; reflexivity). vm_compute. discriminate. Qed.

(** A text of 1000 words in one section, chunked with sizes 500 and 50. *)
Example chunk_text_1000_words :
  option_map (map (fun chunk => length (split chunk)))
    (_chunk_text 1001 (join (s " ") (repeat (s "w") 1000)) 500 50)
  = Some [500; 500; 100]%nat.
Proof. vm_compute. reflexivity. Qed.

(** ** C5: splitting at heading markers *)

Lemma is_space_hash : is_space hash = false.
Proof. reflexivity. Qed.

Lemma is_space_newline : is_space newline = true.
Proof. reflexivity. Qed.

Lemma at_line_start_snoc (l : str) (c : ascii) : at_line_start (l ++ [c]) <-> c = newline.
Proof.
  split.
  - intros [E|[p E]]; [destruct l; discriminate|].
    apply app_inj_tail in E. tauto.
  - intros ->. right. now exists l.
Qed.

Lemma leading_hashes_repeat (k : nat) (c : ascii) (q : str) :
  c <> hash -> leading_hashes (repeat hash k ++ c :: q) = k.
Proof.
  intros N. induction k as [|k IH]; simpl.
  - destruct (Ascii.eqb c hash) eqn:E; auto. apply Ascii.eqb_eq in E. contradiction.
  - now rewrite IH.
Qed.

Lemma nth_error_repeat (k : nat) (c : ascii) (q : str) :
  nth_error (repeat hash k ++ c :: q) k = Some c.
Proof. induction k; simpl; auto. Qed.

Lemma leading_hashes_all (k : nat) : leading_hashes (repeat hash k) = k.
Proof. induction k; simpl; auto. Qed.

Lemma leading_hashes_le (r : str) : (leading_hashes r <= length r)%nat.
Proof. induction r as [|c r IH]; simpl; auto. destruct (Ascii.eqb c hash); simpl; lia. Qed.

Lemma leading_hashes_app_le (r suffix : str) :
  (leading_hashes r <= leading_hashes (r ++ suffix))%nat.
Proof.
  induction r as [|c r IH]; simpl; [lia|]. destruct (Ascii.eqb c hash); simpl; lia.
Qed.

Lemma leading_hashes_app (r suffix : str) (c : ascii) :
  nth_error r (leading_hashes r) = Some c ->
  leading_hashes (r ++ suffix) = leading_hashes r.
Proof.
  induction r as [|x r IH]; simpl; [discriminate|].
  destruct (Ascii.eqb x hash); simpl; auto.
Qed.

Lemma never_marker_app (r suffix : str) : never_marker r -> never_marker (r ++ suffix).
Proof.
  intros [L|(c & N & D)].
  - left. pose proof (leading_hashes_app_le r suffix). lia.
  - right. exists c. rewrite (leading_hashes_app suffix N). split; auto.
    rewrite nth_error_app1; auto. apply nth_error_Some. congruence.
Qed.

Lemma never_marker_sound (r : str) : never_marker r -> ~ starts_with_marker r.
Proof.
  intros NM (m & q & -> & k & c & K & Sp & ->).
  assert (Nh : c <> hash) by (intros ->; discriminate Sp).
  rewrite <- app_assoc in NM. simpl in NM.
  destruct NM as [L|(c' & N & D)].
  - rewrite (leading_hashes_repeat k q Nh) in L. lia.
  - rewrite (leading_hashes_repeat k q Nh) in N, D. rewrite nth_error_repeat in N.
    injection N as <-. destruct D; [lia | congruence].
Qed.

Lemma no_marker_in_hashes (k : nat) : ~ starts_with_marker (repeat hash k).
Proof.
  intros (m & q & E & j & c & K & Sp & ->).
  assert (I : In c (repeat hash k)).
  { rewrite E. apply in_or_app. left. apply in_or_app. right. now left. }
  apply repeat_spec in I. subst c. discriminate Sp.
Qed.

Lemma settled_nil (before : str) : settled before [].
Proof. intros p r E N. destruct p, r; try discriminate. contradiction. Qed.

Lemma settled_no_marker (before cur : str) : settled before cur -> no_marker_inside before cur.
Proof.
  intros S p r E L M. destruct r as [|x r].
  - destruct M as (m & q & E' & k & c & K & Sp & ->). destruct k; discriminate E'.
  - apply (never_marker_sound (S p (x :: r) E ltac:(discriminate) L) M).
Qed.

(** Appending [tail] to a settled [cur], when no line start inside [tail]
    but its first position can begin a marker. *)
Lemma settled_app (before cur tail : str) :
  settled before cur ->
  (forall l r, tail = l ++ r -> r <> [] -> at_line_start (before ++ cur ++ l) -> never_marker r) ->
  settled before (cur ++ tail).
Proof.
  intros S T p r E N L. apply app_eq_app in E as [l [[E1 E2]|[E1 E2]]]; subst.
  - destruct l as [|x l].
    + rewrite app_nil_r in *. simpl in *. apply (T [] tail); auto; now rewrite app_nil_r.
    + apply never_marker_app. apply (S p (x :: l)); auto. discriminate.
  - apply (T l r); auto.
Qed.

Lemma heading_split_from_complete (text : str) :
  forall (bol : bool) (hashes : nat) (cur before : str),
    match hashes with
    | O => bol = true <-> at_line_start (before ++ cur)
    | S _ => (hashes <= 6)%nat /\ at_line_start (before ++ cur)
    end ->
    settled before cur ->
    exists markers,
      length (heading_split_from bol hashes cur text) = S (length markers) /\
      Forall is_heading_marker markers /\
      weave (heading_split_from bol hashes cur text) markers = cur ++ repeat hash hashes ++ text /\
      markers_at_line_starts before (heading_split_from bol hashes cur text) markers /\
      split_at_every_marker before (heading_split_from bol hashes cur text) markers.
Proof.
  induction text as [|c rest IH]; intros bol hashes cur before P St.
  - exists []. simpl. rewrite !app_nil_r. repeat split; auto.
    intros p r E L M. apply app_eq_app in E as [l [[E1 E2]|[E1 E]]]; subst.
    + destruct l as [|x l].
      * simpl in M. now apply (no_marker_in_hashes M).
      * apply (never_marker_sound (r := (x :: l) ++ repeat hash hashes)); auto.
        apply never_marker_app. apply (St p (x :: l)); auto. discriminate.
    + assert (exists j, r = repeat hash j) as [j ->].
      { clear -E. revert l E. induction hashes as [|h IHh]; intros l E.
        - destruct l, r; try discriminate. now exists 0%nat.
        - destruct l as [|x l]; [exists (S h); simpl in E; now rewrite <- E|].
          simpl in E. injection E as _ E. eapply IHh; eauto. }
      now apply (no_marker_in_hashes M).
  - cbn [heading_split_from]. destruct hashes as [|h].
    + destruct (bol && Ascii.eqb c hash) eqn:B.
      * apply andb_true_iff in B as [Bb Bc]. apply Ascii.eqb_eq in Bc. subst c.
        destruct (IH false 1%nat cur before) as (ms & L & Fm & W & M & C).
        { split; [lia | now apply P]. }
        { exact St. }
        exists ms. repeat split; auto.
      * destruct (IH (Ascii.eqb c newline) 0%nat (cur ++ [c]) before) as (ms & L & Fm & W & M & C).
        { rewrite app_assoc, at_line_start_snoc. split; [apply Ascii.eqb_eq | intros ->; apply Ascii.eqb_refl]. }
        { apply settled_app; auto. intros l r E N Ls.
          destruct l as [|x l].
          - simpl in E. subst r. rewrite app_nil_r in Ls. apply P in Ls. subst bol.
            simpl in B. right. exists c. simpl. rewrite B. auto.
          - destruct l, r; try discriminate. contradiction. }
        exists ms. repeat split; auto. rewrite W. simpl. now rewrite <- app_assoc.
    + destruct P as [H6 Ls]. destruct (is_space c) eqn:Sp.
      * destruct (IH (Ascii.eqb c newline) 0%nat [] (before ++ cur ++ repeat hash (S h) ++ [c]))
          as (ms & L & Fm & W & M & C).
        { rewrite app_nil_r, !app_assoc, at_line_start_snoc.
          split; [apply Ascii.eqb_eq | intros ->; apply Ascii.eqb_refl]. }
        { apply settled_nil. }
        exists ((repeat hash (S h) ++ [c]) :: ms). repeat split.
        -- simpl. now rewrite L.
        -- constructor; [|assumption]. exists (S h), c. repeat split; auto; lia.
        -- cbn [weave]. rewrite W. simpl. now rewrite <- !app_assoc.
        -- exact Ls.
        -- exact M.
        -- now apply settled_no_marker.
        -- exact C.
      * destruct (Ascii.eqb c hash && (S h <? 6)%nat) eqn:B.
        -- apply andb_true_iff in B as [Bc Bh]. apply Ascii.eqb_eq in Bc. subst c.
           apply Nat.ltb_lt in Bh.
           destruct (IH false (S (S h)) cur before) as (ms & L & Fm & W & M & C).
           { split; [lia | assumption]. }
           { exact St. }
           exists ms. repeat split; auto. rewrite W. f_equal.
           change (hash :: rest) with ([hash] ++ rest). rewrite app_assoc. f_equal.
           change (repeat hash (S (S h))) with (hash :: repeat hash (S h)).
           now rewrite repeat_cons.
        -- destruct (IH false 0%nat (cur ++ repeat hash (S h) ++ [c]) before)
             as (ms & L & Fm & W & M & C).
           { rewrite !app_assoc, at_line_start_snoc. split; [discriminate|].
             intros ->. discriminate Sp. }
           { apply settled_app; auto. intros l r E N Ll.
             destruct l as [|x l].
             - cbn [app] in E. subst r. destruct (Ascii.eqb c hash) eqn:Ec.
               + apply Ascii.eqb_eq in Ec. subst c. cbn [andb] in B.
                 apply Nat.ltb_ge in B. left.
                 rewrite <- repeat_cons.
                 change (hash :: repeat hash (S h)) with (repeat hash (S (S h))).
                 rewrite leading_hashes_all. lia.
               + assert (Nh : c <> hash) by (intros ->; rewrite Ascii.eqb_refl in Ec; discriminate).
                 right. exists c. rewrite (leading_hashes_repeat (S h) [] Nh).
                 split; [apply nth_error_repeat | now right].
             - exfalso.
               assert (x = hash).
               { simpl in E. injection E as E _. now symmetry. }
               subst x.
               assert (Hl : exists j, hash :: l = repeat hash (S j)).
               { clear -E N. revert l E. induction h as [|h IHh]; intros l E.
                 - simpl in E. injection E as E. destruct l; [now exists 0%nat|].
                   injection E as _ E. destruct l, r; try discriminate. contradiction.
                 - simpl in E. injection E as E. destruct l as [|y l]; [now exists 0%nat|].
                   assert (y = hash) by (injection E as E _; now symmetry). subst y.
                   destruct (IHh l) as [j Ej]; [simpl; exact E|].
                   exists (S j). simpl. now rewrite Ej. }
               destruct Hl as [j Ej]. rewrite Ej in Ll.
               change (repeat hash (S j)) with (hash :: repeat hash j) in Ll.
               rewrite repeat_cons in Ll. rewrite !app_assoc in Ll.
               apply at_line_start_snoc in Ll. discriminate Ll. }
           exists ms. repeat split; auto. rewrite W. cbn [repeat app].
           rewrite <- !app_assoc. cbn [app]. now rewrite <- ?app_assoc.
Qed.

Lemma chunk_loop_acc (words : list str) (chunk_size overlap : Z) :
  forall (fuel : nat) (start : Z) (chunks : list str),
    chunk_loop fuel words chunk_size overlap start chunks
    = option_map (app chunks) (chunk_loop fuel words chunk_size overlap start []).
Proof.
  induction fuel as [|fuel IH]; intros start chunks; cbn [chunk_loop]; auto.
  destruct (start <? len words)%Z; [|simpl; now rewrite app_nil_r].
  set (chunk := join (s " ") _).
  destruct (Z.min (start + chunk_size) (len words) >=? len words)%Z.
  - destruct (truthy (strip chunk)); simpl; now rewrite ?app_nil_r.
  - rewrite IH. rewrite (IH _ (if truthy (strip chunk) then [] ++ [chunk] else [])).
    destruct (chunk_loop fuel words chunk_size overlap _ []); simpl; auto.
    destruct (truthy (strip chunk)); simpl; now rewrite <- ?app_assoc.
Qed.

Lemma chunk_sections_concat (fuel : nat) (chunk_size overlap : Z) (sections : list str) :
  forall chunks,
    chunk_sections fuel sections chunk_size overlap chunks
    = option_map (app chunks)
        (concat_sections (map (fun section => section_chunks fuel section chunk_size overlap)
                              sections)).
Proof.
  induction sections as [|section sections IH]; intros chunks; cbn [chunk_sections map concat_sections].
  - simpl. now rewrite app_nil_r.
  - unfold section_chunks at 1. destruct (negb (truthy (split section))).
    + rewrite IH. now destruct (concat_sections _).
    + rewrite chunk_loop_acc.
      destruct (chunk_loop fuel (split section) chunk_size overlap 0 []) as [a|]; simpl; auto.
      rewrite IH. destruct (concat_sections _); simpl; auto. now rewrite app_assoc.
Qed.

Lemma marker_prefix_hashes (m l r : str) :
  is_heading_marker m -> m = l ++ r -> r <> [] -> exists j, l = repeat hash j.
Proof.
  intros (k & c & K & Sp & ->) E N. clear K. revert l E.
  induction k as [|k IH]; intros l E.
  - destruct l as [|x l]; [now exists 0%nat|]. simpl in E. injection E as _ E.
    destruct l, r; try discriminate. contradiction.
  - destruct l as [|x l]; [now exists 0%nat|]. simpl in E. injection E as <- E.
    destruct (IH l E) as [j ->]. now exists (S j).
Qed.

Lemma marker_same_start (m1 m2 r1 r2 : str) :
  is_heading_marker m1 -> is_heading_marker m2 -> m1 ++ r1 = m2 ++ r2 -> m1 = m2 /\ r1 = r2.
Proof.
  intros (k1 & c1 & K1 & S1 & ->) (k2 & c2 & K2 & S2 & ->) E.
  assert (N1 : c1 <> hash) by (intros ->; discriminate S1).
  assert (N2 : c2 <> hash) by (intros ->; discriminate S2).
  rewrite <- !app_assoc in E. simpl in E.
  pose proof (f_equal leading_hashes E) as L.
  rewrite !leading_hashes_repeat in L by assumption. subst k2.
  apply app_inv_head in E. injection E as -> ->. auto.
Qed.

Lemma not_line_start_after_hash (before : str) (j : nat) :
  (0 < j)%nat -> ~ at_line_start (before ++ repeat hash j).
Proof.
  intros J L. destruct j as [|j]; [lia|].
  change (repeat hash (S j)) with (hash :: repeat hash j) in L.
  rewrite repeat_cons, app_assoc in L. apply at_line_start_snoc in L. discriminate L.
Qed.

(** A marker that begins where [l] begins, with a line start at the end of
    [l], lies inside [l]. *)
Lemma marker_within (before l m w rest : str) :
  l <> [] -> at_line_start (before ++ l) -> is_heading_marker m ->
  m ++ w = l ++ rest -> starts_with_marker l.
Proof.
  intros N L M E. apply app_eq_app in E as [x [[E1 E2]|[E1 E2]]].
  - destruct x as [|y x].
    + rewrite app_nil_r in E1. subst l. exists m, []. now rewrite app_nil_r.
    + exfalso. destruct (marker_prefix_hashes M E1) as [j ->]; [discriminate|].
      apply (@not_line_start_after_hash before j); auto.
      destruct j; [contradiction | lia].
  - exists m, x. auto.
Qed.

(** Two ways of cutting the same text at markers that begin a line, each
    leaving no such marker inside a section, cut it into the same sections. *)
Lemma split_unique (sections1 : list str) :
  forall (before : str) (markers1 sections2 markers2 : list str),
    length sections1 = S (length markers1) -> length sections2 = S (length markers2) ->
    Forall is_heading_marker markers1 -> Forall is_heading_marker markers2 ->
    weave sections1 markers1 = weave sections2 markers2 ->
    markers_at_line_starts before sections1 markers1 ->
    markers_at_line_starts before sections2 markers2 ->
    split_at_every_marker before sections1 markers1 ->
    split_at_every_marker before sections2 markers2 ->
    sections1 = sections2.
Proof.
  induction sections1 as [|s1 rest1 IH];
    intros before markers1 sections2 markers2 L1 L2 F1 F2 W M1 M2 C1 C2; [discriminate|].
  destruct sections2 as [|s2 rest2]; [discriminate|].
  cbn [weave] in W. cbn [split_at_every_marker] in C1, C2.
  destruct C1 as [N1 C1], C2 as [N2 C2].
  destruct markers1 as [|m1 ms1], markers2 as [|m2 ms2].
  - rewrite !app_nil_r in W. subst s2.
    destruct rest1, rest2; try discriminate. reflexivity.
  - exfalso. rewrite app_nil_r in W. cbn [markers_at_line_starts] in M2.
    inversion F2 as [|? ? Hm2 _]; subst.
    apply (N1 s2 (m2 ++ weave rest2 ms2)); [reflexivity | tauto |].
    now exists m2, (weave rest2 ms2).
  - exfalso. rewrite app_nil_r in W. cbn [markers_at_line_starts] in M1.
    inversion F1 as [|? ? Hm1 _]; subst.
    apply (N2 s1 (m1 ++ weave rest1 ms1)); [reflexivity | tauto |].
    now exists m1, (weave rest1 ms1).
  - cbn [markers_at_line_starts] in M1, M2. destruct M1 as [A1 M1], M2 as [A2 M2].
    inversion F1 as [|? ? Hm1 F1']; subst. inversion F2 as [|? ? Hm2 F2']; subst.
    assert (Es : s1 = s2).
    { apply app_eq_app in W as [l [[E1 E2]|[E1 E2]]].
      - destruct l as [|x l]; [now rewrite app_nil_r in E1|]. exfalso.
        apply (N1 s2 (x :: l) E1 A2).
        apply (@marker_within (before ++ s2) (x :: l) m2 (weave rest2 ms2)
                 (m1 ++ weave rest1 ms1)); auto; [discriminate|].
        rewrite <- app_assoc, <- E1. exact A1.
      - destruct l as [|x l]; [now rewrite app_nil_r in E1|]. exfalso.
        apply (N2 s1 (x :: l) E1 A1).
        apply (@marker_within (before ++ s1) (x :: l) m1 (weave rest1 ms1)
                 (m2 ++ weave rest2 ms2)); auto; [discriminate|].
        rewrite <- app_assoc, <- E1. exact A2. }
    subst s2. apply app_inv_head in W.
    destruct (marker_same_start Hm1 Hm2 W) as [-> Wr].
    f_equal. apply (IH (before ++ s1 ++ m2) ms1 rest2 ms2); auto.
Qed.

(** C5: the text is split at the heading markers that begin at the start
    of a line (one to six ['#'] and one white-space character), at every
    one of them and nowhere else, and only the marker is removed: the
    sections with the markers put back between them are the text, every
    marker stands at the start of a line, and no section holds a marker at
    the start of a line; no other list of sections has these properties.
    Each section is chunked on its own and the chunks are concatenated in
    order; the raw prefix is the fallback. *)
Theorem chunker_heading_sections (text : str) :
  (exists markers,
     length (heading_split text) = S (length markers) /\
     Forall is_heading_marker markers /\
     weave (heading_split text) markers = text /\
     markers_at_line_starts [] (heading_split text) markers /\
     split_at_every_marker [] (heading_split text) markers) /\
  (forall sections markers,
     length sections = S (length markers) ->
     Forall is_heading_marker markers ->
     weave sections markers = text ->
     markers_at_line_starts [] sections markers ->
     split_at_every_marker [] sections markers ->
     sections = heading_split text) /\
  (forall (fuel : nat) (chunk_size overlap : Z),
     _chunk_text fuel text chunk_size overlap
     = option_map
         (fun chunks => if truthy chunks then chunks
                        else [py_prefix text (chunk_size * _CHUNK_FALLBACK_MULTIPLIER)])
         (concat_sections
            (map (fun section => section_chunks fuel section chunk_size overlap)
                 (heading_split text)))).
Proof.
  destruct (@heading_split_from_complete text true 0%nat [] []) as (ms & L & Fm & W & M & C).
  { split; [intros _; now left | reflexivity]. }
  { apply settled_nil. }
  simpl in W. fold (heading_split text) in *.
  split; [|split].
  - exists ms. repeat split; auto.
  - intros sections markers L' Fm' W' M' C'.
    apply (@split_unique sections [] markers (heading_split text) ms); auto. congruence.
  - intros fuel chunk_size overlap. unfold _chunk_text. rewrite chunk_sections_concat.
    now destruct (concat_sections _).
Qed.

Lemma chunker_heading_sections_witness :
  [[]; []] = heading_split (s "# ").
Proof.
  apply (proj1 (proj2 (chunker_heading_sections (s "# "))) [[]; []] [s "# "]).
  - reflexivity.
  - constructor; [|constructor]. exists 1%nat, " "%char.
    split; [lia|]. split; reflexivity.
  - reflexivity.
  - simpl. split; [now left | exact I].
  - simpl. split; [|split; [|exact I]]; apply settled_no_marker, settled_nil.
Defined.

(** C5, as stated, fails: the word of the heading line stays in the section
    that follows the marker and is emitted in its chunk. *)
Lemma heading_words_are_kept :
  heading_split heading_text = [[]; s "Title" ++ [newline] ++ s "body text"] /\
  _chunk_text 10 heading_text 512 64 = Some [s "Title body text"] /\
  In (s "Title") (split (s "# Title")) /\
  In (s "Title") (split (s "Title body text")).
Proof.
  repeat split; try (vm_compute; reflexivity).
  - vm_compute. auto.
  - vm_compute. auto.
Qed.

Example heading_split_markers :
  heading_split (s "#" ++ [newline] ++ s "# a" ++ [newline] ++ s "###### b" ++ [newline]
                 ++ s "####### c" ++ [newline] ++ s "x # y")
  = [[]; []; s "a" ++ [newline]; s "b" ++ [newline] ++ s "####### c" ++ [newline] ++ s "x # y"].
Proof. vm_compute. reflexivity. Qed.

(** ** C6: failures during rehydration *)

(** C6: with such a telemetry directory [rehydrate] raises instead of
    returning a bundle: the [stat] call in the sort key of
    [_load_recent_telemetry] is outside every [try]. *)
Theorem rehydrate_raises_on_stat_failure {order : SetOrder} (py_round : R -> Z -> R)
    (query_text : str)
    (top_k : Z) (include_active_memory include_org_index : bool) :
  rehydrate py_round env0 world_dangling_run_file query_text top_k
    include_active_memory true include_org_index None
  = Raise (OSError (s "FileNotFoundError: run-1.json")).
Proof. now destruct include_active_memory, include_org_index. Qed.

Section RehydrationFacts.
Context {F : Type} `{Arith F} `{Log1p F} {order : SetOrder}.
Variable py_round : F -> Z -> F.

Lemma stat_keys_ok (files : list (TelemetryFile F)) :
  Forall (fun p => exists mtime, tf_stat p = Ok mtime) files ->
  exists keyed, stat_keys files = Ok keyed.
Proof.
  induction 1 as [|p files [mtime E] _ [keyed IH]]; simpl; eauto.
  rewrite E, IH. eauto.
Qed.

Lemma stat_keys_raises (files : list (TelemetryFile F)) :
  (exists p, In p files /\ exists e, tf_stat p = Raise e) ->
  exists e, stat_keys files = Raise e.
Proof.
  intros (p & I & e & E). induction files as [|p0 files IH]; [destruct I|].
  simpl. destruct (tf_stat p0) as [mtime|e0] eqn:E0; [|eauto].
  destruct I as [->|I]; [congruence|].
  destruct (IH I) as [e1 ->]. eauto.
Qed.

(** Apart from a failing [exists] call, the listing and the sort key of the
    telemetry files, and an exception other than [OSError] while the
    snapshot is read, nothing makes [rehydrate] raise. *)
Lemma rehydrate_returns (env : Env F) (w : World F) (query_text : str) (top_k : Z)
    (include_active_memory include_telemetry include_org_index : bool)
    (store : option (VectorStore F)) :
  (include_active_memory = true ->
   (exists b, am_exists w = Ok b) /\
   (am_exists w = Ok true -> absorbed (am_age w) /\ absorbed (am_read w))) ->
  (include_telemetry = true ->
   (exists b, tel_exists w = Ok b) /\
   (tel_exists w = Ok true ->
    exists files, tel_glob w = Ok files /\
                  Forall (fun p => exists mtime, tf_stat p = Ok mtime) files)) ->
  (include_org_index = true -> exists b, idx_exists w = Ok b) ->
  exists bundle,
    rehydrate py_round env w query_text top_k
      include_active_memory include_telemetry include_org_index store = Ok bundle.
Proof.
  intros Am Tel Idx. unfold rehydrate.
  destruct (except_Exception _ _) as [vector_hits warnings].
  assert (A : exists am, _load_active_memory py_round w = Ok am \/ include_active_memory = false).
  { destruct include_active_memory; [|exists {| available := false; am_content := [];
        age_hours := None; warning := None |}; now right].
    unfold _load_active_memory. destruct (Am eq_refl) as [[b Ex] Ab]. rewrite Ex.
    destruct b; [|eauto]. destruct (Ab Ex) as [Aa Ar].
    destruct (am_age w) as [age|[m|m]]; simpl in Aa; [|eauto|contradiction].
    destruct (am_read w) as [text|[m|m]]; simpl in Ar; simpl; [eauto|eauto|contradiction]. }
  assert (T : exists runs, (if include_telemetry then _load_recent_telemetry w 5 else Ok []) = Ok runs).
  { destruct include_telemetry; [|eauto].
    unfold _load_recent_telemetry. destruct (Tel eq_refl) as [[b Ex] Gl]. rewrite Ex.
    destruct b; [|eauto]. destruct (Gl Ex) as (files & -> & St).
    destruct (stat_keys_ok St) as [keyed ->]. eauto. }
  assert (O : exists repos,
             (if include_org_index then
                match _load_org_index w with
                | Ok (JObj members) => Ok (json_get (s "repositories") members (JArr []))
                | Ok (JArr items) => Ok (JArr items)
                | Ok _ => Ok (JArr [])
                | Raise e => Raise e
                end
              else Ok (JArr [])) = Ok repos).
  { destruct include_org_index; [|eauto].
    unfold _load_org_index. destruct (Idx eq_refl) as [b ->].
    destruct b; [|eauto]. destruct (except_Exception _ _); eauto. }
  destruct T as [runs ->]. destruct O as [repos ->].
  destruct A as [am [A|A]].
  - destruct include_active_memory; [rewrite A|]; eauto.
  - rewrite A. eauto.
Qed.

(** Whenever the telemetry directory exists and the [stat] of one listed
    path fails, the exception leaves [_load_recent_telemetry]. *)
Lemma _load_recent_telemetry_raises (w : World F) (max_entries : Z) (files : list (TelemetryFile F)) :
  tel_exists w = Ok true -> tel_glob w = Ok files ->
  (exists p, In p files /\ exists e, tf_stat p = Raise e) ->
  exists e, _load_recent_telemetry w max_entries = Raise e.
Proof.
  intros Ex Gl Bad. unfold _load_recent_telemetry. rewrite Ex, Gl.
  destruct (stat_keys_raises Bad) as [e ->]. eauto.
Qed.
End RehydrationFacts.

(** ** Worked examples of the specification *)

Example embed_empty_text : _tfidf_embed (F := R) [] = [].
Proof. reflexivity. Qed.

Example tokenize_example :
  _tokenize (s "TAP Protocol governs all-agents, v2 a I") =
  [s "tap"; s "protocol"; s "governs"; s "all-agents"; s "v2"].
Proof. vm_compute. reflexivity. Qed.

Example disjoint_vocabulary_scores_zero {order : SetOrder} :
  _cosine_sparse (F := R) (_tfidf_embed (s "autonomous policy governance"))
                          (_tfidf_embed (s "weather forecast sunny today")) = 0%R.
Proof.
  refine (proj1 (cosine_zero_cases (F := R) _ _) _).
  apply common_keys_nil. intros k Ia Ib. unfold dict_keys in Ia, Ib.
  vm_compute in Ia. vm_compute in Ib.
  repeat (destruct Ia as [<-|Ia]; [repeat (destruct Ib as [Ib|Ib]; [discriminate Ib|]); exact Ib|]).
  exact Ia.
Qed.

Example metadata_filter_example {order : SetOrder} :
  map (fun hit => id (snd hit))
      (query env0 (s "weather") 5 (Some [(s "source", SStr (s "x"))])
         (run_upserts [call_a; call_b] (VectorStore_init env0 None)))
  = [s "doc-b"].
Proof.
  rewrite query_unfold. reflexivity.
Qed.

(* ================================================================== *)
(** * Further properties of the store *)

Section DictLaws.
Variable V : Type.
Implicit Types (d : dict V) (k : str) (v : V).

Lemma dict_del_get_same k d : dict_wf d -> dict_get k (dict_del k d) = None.
Proof.
  unfold dict_wf. induction d as [|[k0 v0] d IH]; simpl; auto.
  intros W. inversion W as [|x l N W']; subst.
  destruct (eqb_str k k0) eqn:E.
  - apply eqb_str_eq in E. subst k0. now apply dict_get_None_keys.
  - simpl. rewrite E. auto.
Qed.

Lemma dict_del_get_other k k' d : k <> k' -> dict_get k' (dict_del k d) = dict_get k' d.
Proof.
  intros N. assert (Nb : eqb_str k' k = false) by (apply eqb_str_neq; congruence).
  induction d as [|[k0 v0] d IH]; simpl; auto.
  destruct (eqb_str k k0) eqn:E; simpl.
  - apply eqb_str_eq in E. subst k0. now rewrite Nb.
  - now rewrite IH.
Qed.

Lemma dict_del_length k d : dict_mem k d = true -> S (length (dict_del k d)) = length d.
Proof.
  unfold dict_mem. induction d as [|[k0 v0] d IH]; simpl; [discriminate|].
  destruct (eqb_str k k0); simpl; auto.
Qed.

Lemma dict_del_absent k d : dict_mem k d = false -> dict_del k d = d.
Proof.
  unfold dict_mem. induction d as [|[k0 v0] d IH]; simpl; auto.
  destruct (eqb_str k k0); [discriminate|]. intros M. now rewrite IH.
Qed.

Lemma dict_set_length_fresh k v d :
  dict_mem k d = false -> length (dict_set k v d) = S (length d).
Proof.
  intros M. rewrite <- (length_map fst), <- (length_map fst d).
  fold (dict_keys (dict_set k v d)). rewrite dict_keys_set, M.
  unfold dict_keys. rewrite length_app. simpl. lia.
Qed.

Lemma dict_del_set_fresh k v d : dict_mem k d = false -> dict_del k (dict_set k v d) = d.
Proof.
  unfold dict_mem. induction d as [|[k0 v0] d IH]; simpl.
  - now rewrite eqb_str_refl.
  - destruct (eqb_str k k0) eqn:E; [discriminate|]. simpl. rewrite E. intros M. now rewrite IH.
Qed.

Lemma dict_mem_get_false k d : dict_mem k d = false -> dict_get k d = None.
Proof. unfold dict_mem. now destruct (dict_get k d). Qed.
End DictLaws.

Section StoreLaws.
Context {F : Type} `{Arith F} `{Log1p F} {order : SetOrder}.

Lemma delete_index (env : Env F) (doc_id : str) (self : VectorStore F) :
  _index (snd (delete env doc_id self)) = dict_del doc_id (_index self).
Proof.
  unfold delete, _flush. destruct (dict_mem doc_id (_index self)) eqn:M.
  - now destruct (disk_ok env).
  - simpl. now rewrite dict_del_absent.
Qed.

Lemma dict_del_inv (doc_id : str) (index : dict (Document F)) :
  index_inv index -> index_inv (dict_del doc_id index).
Proof.
  intros [W K]. split; [now apply dict_del_wf|].
  clear W. induction index as [|[k d] index IH]; simpl; auto.
  inversion K as [|kv index' Hkd Kt]; subst.
  destruct (eqb_str doc_id k); auto.
Qed.

(** X1: [upsert] leaves the document under every other id as it was; the
    count grows by one exactly when the id is new, and a new id goes last in
    store order while an existing id keeps its place. *)
Theorem upsert_frame (env : Env F) (doc_id content : str)
    (metadata : option (dict scalar)) (correlation_id : option str) (run_id : str)
    (skip_embed : bool) (self : VectorStore F) :
  let self' := snd (upsert env doc_id content metadata correlation_id run_id skip_embed self) in
  (forall other, other <> doc_id -> get other self' = get other self) /\
  count self' = (if dict_mem doc_id (_index self) then count self else count self + 1)%Z /\
  dict_keys (_index self')
  = (if dict_mem doc_id (_index self) then dict_keys (_index self)
     else dict_keys (_index self) ++ [doc_id]).
Proof.
  cbv zeta. unfold get, count, len. rewrite upsert_index. repeat split.
  - intros other N. apply dict_get_set_other. congruence.
  - destruct (dict_mem doc_id (_index self)) eqn:M.
    + now rewrite dict_set_length_mem.
    + rewrite dict_set_length_fresh by assumption. lia.
  - apply dict_keys_set.
Qed.

(** X2: after [delete(id)] the store has no document under [id], whether or
    not the write succeeded, and every other id keeps its document; the
    count drops by one when the id was present; an absent id gives [False]
    and touches neither the index nor the file; a present id gives [True]
    when the write succeeds. *)
Theorem delete_removes (env : Env F) (doc_id : str) (self : VectorStore F) :
  index_inv (_index self) ->
  let r := delete env doc_id self in
  get doc_id (snd r) = None /\
  (forall other, other <> doc_id -> get other (snd r) = get other self) /\
  count (snd r) = (if dict_mem doc_id (_index self) then count self - 1 else count self)%Z /\
  (dict_mem doc_id (_index self) = false -> r = (Ok false, self)) /\
  (dict_mem doc_id (_index self) = true -> disk_ok env = true -> fst r = Ok true) /\
  index_inv (_index (snd r)).
Proof.
  intros I. cbv zeta. unfold get, count, len. rewrite delete_index. repeat split.
  - apply dict_del_get_same, I.
  - intros other N. apply dict_del_get_other. congruence.
  - destruct (dict_mem doc_id (_index self)) eqn:M.
    + rewrite <- (dict_del_length M). lia.
    + now rewrite dict_del_absent.
  - intros M. unfold delete. now rewrite M.
  - intros M D. unfold delete, _flush. now rewrite M, D.
  - apply dict_del_inv, I.
  - apply dict_del_inv, I.
Qed.

(** X3: [upsert] of a new id followed by [delete] of that id gives back the
    index as it was, order included. *)
Theorem upsert_then_delete (env1 env2 : Env F) (doc_id content : str)
    (metadata : option (dict scalar)) (correlation_id : option str) (run_id : str)
    (skip_embed : bool) (self : VectorStore F) :
  dict_mem doc_id (_index self) = false ->
  _index (snd (delete env2 doc_id
            (snd (upsert env1 doc_id content metadata correlation_id run_id skip_embed self))))
  = _index self.
Proof.
  intros M. rewrite delete_index, upsert_index. now apply dict_del_set_fresh.
Qed.

(** X4: when the write fails, [upsert], [delete] of a present id and [clear]
    raise, but the index of the instance has already changed: it holds the
    new document, lacks the deleted one, or is empty.  The file at the path
    is left as it was when the temporary file is another file; when the
    path itself ends in [.tmp], the temporary file is the store file and
    the path holds what the failed write left of it. *)
Theorem write_failure_state (env : Env F) (doc_id content : str)
    (metadata : option (dict scalar)) (correlation_id : option str) (run_id : str)
    (skip_embed : bool) (self : VectorStore F) :
  disk_ok env = false ->
  let left := if tmp_is_store_file env then tmp_after_failure env (_file self)
              else _file self in
  (tmp_is_store_file env = false -> left = _file self) /\
  (let r := upsert env doc_id content metadata correlation_id run_id skip_embed self in
   (exists e, fst r = Raise e) /\ _file (snd r) = left /\
   get doc_id (snd r)
   = Some (upsert_doc env doc_id content metadata correlation_id run_id skip_embed)) /\
  (dict_mem doc_id (_index self) = true ->
   let r := delete env doc_id self in
   (exists e, fst r = Raise e) /\ _file (snd r) = left /\
   _index (snd r) = dict_del doc_id (_index self)) /\
  (let r := clear env self in
   (exists e, fst r = Raise e) /\ _file (snd r) = left /\ count (snd r) = 0%Z).
Proof.
  intros D. cbv zeta. split; [|split; [|split]].
  - intros T. now rewrite T.
  - unfold upsert, _flush, get. rewrite D. simpl.
    split; [eauto|]. split; [reflexivity|]. apply dict_get_set_same.
  - intros M. unfold delete, _flush. rewrite M, D. simpl.
    split; [eauto|]. split; reflexivity.
  - unfold clear, _flush. rewrite D. simpl. split; [eauto|]. split; reflexivity.
Qed.
End StoreLaws.

Lemma store_two_inv : index_inv (_index store_two).
Proof.
  unfold store_two. rewrite !upsert_index.
  repeat apply dict_set_inv; try reflexivity. split; constructor.
Qed.

Lemma upsert_frame_witness :
  s "doc-a" <> s "doc-c" /\
  get (s "doc-a") (snd (upsert env0 (s "doc-c") (s "third") None None [] false store_two))
  = get (s "doc-a") store_two.
Proof.
  assert (N : s "doc-a" <> s "doc-c") by discriminate.
  split; [exact N|].
  apply (proj1 (upsert_frame env0 (s "doc-c") (s "third") None None [] false store_two)
           (s "doc-a") N).
Defined.

Lemma delete_removes_witness :
  index_inv (_index store_two) /\
  get (s "doc-a") (snd (delete env0 (s "doc-a") store_two)) = None.
Proof.
  split; [exact store_two_inv|].
  apply (delete_removes env0 (s "doc-a") store_two_inv).
Defined.

Lemma upsert_then_delete_witness :
  dict_mem (s "doc-c") (_index store_two) = false /\
  _index (snd (delete env0 (s "doc-c")
            (snd (upsert env0 (s "doc-c") (s "third") None None [] false store_two))))
  = _index store_two.
Proof.
  assert (M : dict_mem (s "doc-c") (_index store_two) = false) by reflexivity.
  split; [exact M|].
  apply (upsert_then_delete env0 env0 (s "third") None None [] false M).
Defined.

Lemma write_failure_state_witness :
  disk_ok env_disk_full = false /\
  _file (snd (upsert env_disk_full (s "doc-c") (s "third") None None [] false store_two))
  = _file store_two /\
  get (s "doc-c")
    (snd (upsert env_disk_full (s "doc-c") (s "third") None None [] false store_two))
  = Some (upsert_doc env_disk_full (s "doc-c") (s "third") None None [] false).
Proof.
  assert (D : disk_ok env_disk_full = false) by reflexivity.
  split; [exact D|].
  destruct (write_failure_state (s "doc-c") (s "third") None None [] false store_two D)
    as (L & (_ & Fl & G) & _).
  split; [|exact G]. rewrite Fl. apply L. reflexivity.
Defined.

(** ** Loading and reloading *)

Section ReloadFacts.
Context {F : Type} `{Arith F} `{Log1p F} {order : SetOrder}.

Lemma VectorStore_init_file (env : Env F) (file : option (list (Line F))) :
  _file (VectorStore_init env file) = file.
Proof. unfold VectorStore_init, _load. cbn [_file]. now destruct file. Qed.

Lemma VectorStore_init_index (env : Env F) (lines : list (Line F)) :
  _index (VectorStore_init env (Some lines)) = fold_left (_load_line env) lines [].
Proof. reflexivity. Qed.

Lemma index_inv_ids (index : dict (Document F)) :
  index_inv index -> NoDup (map id (dict_values index)).
Proof.
  intros [W K]. unfold dict_wf, dict_keys in W. unfold dict_values. rewrite map_map.
  erewrite map_ext_in; [exact W|]. rewrite Forall_forall in K. intros kv Ik. now apply K.
Qed.

(** What [_flush] writes for an index loads back with the same ids and
    content. *)
Lemma flushed_reload (env : Env F) (index : dict (Document F)) :
  index_inv index ->
  ids_and_content
    (_index (VectorStore_init env
       (Some (map (fun doc => Object (to_dict doc)) (dict_values index)))))
  = ids_and_content index.
Proof.
  intros I. rewrite VectorStore_init_index, _load_flushed.
  - simpl. now apply ids_and_content_values.
  - now apply index_inv_ids.
  - intros d _ [].
Qed.

Lemma in_step_flushed (env : Env F) (index : dict (Document F)) (file : option (list (Line F))) :
  index_inv index -> disk_ok env = true ->
  in_step (snd (_flush env {| _index := index; _file := file |})).
Proof.
  intros I D. unfold _flush. rewrite D. cbn [snd _index _file]. split; [exact I|].
  intros env1. now apply flushed_reload.
Qed.

Lemma in_step_init (env : Env F) (file : option (list (Line F))) :
  in_step (VectorStore_init env file).
Proof.
  split; [apply VectorStore_init_inv|]. intros env1. rewrite VectorStore_init_file.
  unfold VectorStore_init, _load. cbn [_file _index].
  destruct file as [lines|]; cbn [_index]; auto. now apply _load_ids_and_content.
Qed.

Lemma in_step_op (self : VectorStore F) (op : StoreOp F) :
  disk_ok (op_env op) = true -> in_step self -> in_step (run_op self op).
Proof.
  intros D [I R]. destruct op as [c|env doc_id|env]; cbn [run_op op_env] in *.
  - unfold run_upsert, upsert.
    pose proof (in_step_flushed (_file self)
      (dict_set_inv (doc := upsert_doc (call_env c) (call_id c) (call_content c)
                              (call_metadata c) (call_correlation_id c) (call_run_id c)
                              (call_skip_embed c)) eq_refl I) D) as S.
    unfold upsert_doc in S.
    destruct (_flush _ _) as [[u|e] st]; exact S.
  - unfold delete. destruct (dict_mem doc_id (_index self)).
    + pose proof (in_step_flushed (_file self) (dict_del_inv doc_id I) D) as S.
      destruct (_flush _ _) as [[u|e] st]; exact S.
    + now split.
  - unfold clear. apply in_step_flushed; [split; constructor | assumption].
Qed.

Lemma run_op_inv (self : VectorStore F) (op : StoreOp F) :
  index_inv (_index self) -> index_inv (_index (run_op self op)).
Proof.
  intros I. destruct op as [c|env doc_id|env]; cbn [run_op].
  - now apply run_upsert_inv.
  - rewrite delete_index. now apply dict_del_inv.
  - unfold clear, _flush. destruct (disk_ok env); cbn; split; constructor.
Qed.

Lemma run_ops_inv (ops : list (StoreOp F)) (self : VectorStore F) :
  index_inv (_index self) -> index_inv (_index (run_ops ops self)).
Proof.
  revert self. induction ops as [|op ops IH]; simpl; auto.
  intros self I. apply IH. now apply run_op_inv.
Qed.

Lemma in_step_written (self : VectorStore F) (op : StoreOp F) :
  index_inv (_index self) -> disk_ok (op_env op) = true -> writes self op = true ->
  in_step (run_op self op).
Proof.
  intros I D W. destruct op as [c|env doc_id|env]; cbn [run_op op_env writes] in *.
  - unfold run_upsert, upsert.
    pose proof (in_step_flushed (_file self)
      (dict_set_inv (doc := upsert_doc (call_env c) (call_id c) (call_content c)
                              (call_metadata c) (call_correlation_id c) (call_run_id c)
                              (call_skip_embed c)) eq_refl I) D) as S.
    unfold upsert_doc in S.
    destruct (_flush _ _) as [[u|e] st]; exact S.
  - unfold delete. rewrite W.
    pose proof (in_step_flushed (_file self) (dict_del_inv doc_id I) D) as S.
    destruct (_flush _ _) as [[u|e] st]; exact S.
  - unfold clear. apply in_step_flushed; [split; constructor | assumption].
Qed.

Lemma in_step_ops (ops : list (StoreOp F)) (self : VectorStore F) :
  Forall (fun op => disk_ok (op_env op) = true) ops -> in_step self ->
  in_step (run_ops ops self).
Proof.
  intros D. revert self. unfold run_ops.
  induction D as [|op ops Dop _ IH]; intros st S; simpl; auto.
  apply IH. now apply in_step_op.
Qed.

(** X5: after any sequence of upserts, deletes and clears on a store
    constructed from any file, a store constructed anew from the file at
    the same path has the same ids, in the same order, with the same
    content, provided every write succeeded from some call on that reached
    the write (an upsert, a clear, or a delete of a present id), whatever
    became of the writes before it; or provided every write succeeded. *)
Theorem reload_after_operations (env0 env1 : Env F) (file0 : option (list (Line F)))
    (pre post : list (StoreOp F)) :
  Forall (fun op => disk_ok (op_env op) = true) post ->
  (pre = [] \/
   exists op rest, post = op :: rest /\
                   writes (run_ops pre (VectorStore_init env0 file0)) op = true) ->
  let st := run_ops (pre ++ post) (VectorStore_init env0 file0) in
  ids_and_content (_index (VectorStore_init env1 (_file st))) = ids_and_content (_index st).
Proof.
  intros D C. cbv zeta.
  assert (S : in_step (run_ops (pre ++ post) (VectorStore_init env0 file0))).
  { unfold run_ops. rewrite fold_left_app. fold (run_ops pre (VectorStore_init env0 file0)).
    destruct C as [->|(op & rest & -> & W)].
    - apply (in_step_ops D). apply in_step_init.
    - inversion D as [|op' rest' Dop Drest]; subst. cbn [fold_left].
      apply (in_step_ops Drest). apply in_step_written; auto.
      apply run_ops_inv, VectorStore_init_inv. }
  apply S.
Qed.

Lemma str_or_nonempty (t dflt : str) : t <> [] -> str_or (Some t) dflt = t.
Proof. destruct t; [contradiction | reflexivity]. Qed.

Lemma from_dict_of_to_dict (env : Env F) (d : Document F) :
  doc_complete d -> from_dict env (to_dict d) = Ok (with_run_id env d).
Proof.
  intros [T C]. destruct d as [i c e m t co r]. cbn in T, C.
  unfold from_dict, to_dict, new_Document, with_run_id. cbn.
  destruct t; [contradiction|]. destruct co; [contradiction|]. reflexivity.
Qed.

(** X6: [from_dict] undoes [to_dict] on a document with a timestamp and a
    correlation id, except that an empty [run_id] becomes the
    [GITHUB_RUN_ID] of the surroundings of the load; with a non-empty
    [run_id], or no [GITHUB_RUN_ID], the document comes back unchanged. *)
Theorem from_dict_to_dict (env : Env F) (d : Document F) :
  doc_complete d ->
  from_dict env (to_dict d) = Ok (with_run_id env d) /\
  (run_id d <> [] \/ GITHUB_RUN_ID env = [] -> from_dict env (to_dict d) = Ok d).
Proof.
  intros C. pose proof (from_dict_of_to_dict env C) as E.
  split; [exact E|]. intros R. rewrite E. f_equal.
  destruct d as [i c e m t co r]. unfold with_run_id. cbn in *. f_equal.
  destruct R as [R| ->]; [now apply str_or_nonempty | now destruct r].
Qed.

Lemma new_Document_complete (env : Env F) (i c : str) (e : Embedding F)
    (m : option (dict scalar)) (t co : option str) (r : str) :
  sane env -> doc_complete (new_Document env i c e m t co r).
Proof.
  intros [N U]. unfold doc_complete, new_Document. cbn. split.
  - destruct t as [[|x t]|]; simpl; auto; discriminate.
  - destruct co as [[|x co]|]; simpl; auto; discriminate.
Qed.

Lemma dict_set_Forall (V : Type) (P : str * V -> Prop) (k : str) (v : V) (d : dict V) :
  (forall k', P (k', v)) -> Forall P d -> Forall P (dict_set k v d).
Proof.
  intros Pv. induction 1 as [|[k0 v0] d P0 Pd IH]; simpl.
  - repeat constructor. apply Pv.
  - destruct (eqb_str k k0); constructor; auto.
Qed.

Lemma VectorStore_init_complete (env : Env F) (file : option (list (Line F))) :
  sane env -> index_complete (_index (VectorStore_init env file)).
Proof.
  intros S. unfold VectorStore_init, _load. cbn [_file _index].
  destruct file as [lines|]; cbn [_index]; [|constructor].
  assert (G : forall index, index_complete index ->
                index_complete (fold_left (_load_line env) lines index)).
  { induction lines as [|line lines IH]; simpl; auto.
    intros index C. apply IH. destruct line as [| |d]; simpl; auto.
    unfold from_dict. destruct (j_id d), (j_content d); auto.
    apply dict_set_Forall; auto. intros k'. now apply new_Document_complete. }
  apply G. constructor.
Qed.

Lemma run_upserts_complete (calls : list (UpsertCall F)) (self : VectorStore F) :
  Forall (fun c => sane (call_env c)) calls ->
  index_complete (_index self) -> index_complete (_index (run_upserts calls self)).
Proof.
  intros S. revert self. induction S as [|c calls Sc _ IH]; simpl; auto.
  intros self C. apply IH. unfold run_upsert. rewrite upsert_index.
  apply dict_set_Forall; auto. intros k'. now apply new_Document_complete.
Qed.

Lemma _load_flushed_documents (env : Env F) (docs : list (Document F))
    (index : dict (Document F)) :
  NoDup (map id docs) -> Forall doc_complete docs ->
  (forall d, In d docs -> ~ In (id d) (dict_keys index)) ->
  fold_left (_load_line env) (map (fun doc => Object (to_dict doc)) docs) index
  = index ++ map (fun d => (id d, with_run_id env d)) docs.
Proof.
  revert index. induction docs as [|d docs IH]; intros index ND C Fr.
  - simpl. now rewrite app_nil_r.
  - inversion ND as [|x l Nd ND']; subst. inversion C as [|x l Cd C']; subst.
    cbn [map fold_left _load_line]. rewrite (from_dict_of_to_dict env Cd).
    cbn [id with_run_id].
    rewrite (dict_set_fresh _ (Fr d (or_introl eq_refl))).
    rewrite IH; auto.
    + now rewrite <- app_assoc.
    + intros d' I'. unfold dict_keys. rewrite map_app, in_app_iff. simpl.
      intros [K|[K|[]]].
      * apply (Fr d' (or_intror I')). exact K.
      * apply Nd. rewrite K. now apply in_map.
Qed.
End ReloadFacts.

Section LoadFacts.
Context {F : Type} `{Arith F} `{Log1p F} {order : SetOrder}.

Lemma with_run_id_no_env (env : Env F) (d : Document F) :
  GITHUB_RUN_ID env = [] -> with_run_id env d = d.
Proof.
  intros E. destruct d as [i c e m t co r]. unfold with_run_id. cbn. rewrite E.
  f_equal. now destruct r.
Qed.

(** X7: after upserts made with a working clock and UUID source, the last
    of which was written, a store constructed anew from the file holds the
    same documents under the same ids in the same order, field by field,
    except that an empty [run_id] is filled with the [GITHUB_RUN_ID] of the
    reload; without a [GITHUB_RUN_ID] the index is identical. *)
Theorem reload_restores_documents (env0 env1 : Env F) (file0 : option (list (Line F)))
    (calls : list (UpsertCall F)) (c : UpsertCall F) :
  sane env0 -> Forall (fun c => sane (call_env c)) (calls ++ [c]) ->
  disk_ok (call_env c) = true ->
  let st := run_upserts (calls ++ [c]) (VectorStore_init env0 file0) in
  _index (VectorStore_init env1 (_file st))
  = map (fun kv => (fst kv, with_run_id env1 (snd kv))) (_index st) /\
  (GITHUB_RUN_ID env1 = [] -> _index (VectorStore_init env1 (_file st)) = _index st).
Proof.
  intros S0 Sc D. cbv zeta.
  assert (I : index_inv (_index (run_upserts (calls ++ [c]) (VectorStore_init env0 file0))))
    by (apply run_upserts_inv, VectorStore_init_inv).
  assert (C : index_complete (_index (run_upserts (calls ++ [c]) (VectorStore_init env0 file0))))
    by (apply run_upserts_complete; [assumption | now apply VectorStore_init_complete]).
  assert (E : _index (VectorStore_init env1
                 (_file (run_upserts (calls ++ [c]) (VectorStore_init env0 file0))))
            = map (fun kv => (fst kv, with_run_id env1 (snd kv)))
                  (_index (run_upserts (calls ++ [c]) (VectorStore_init env0 file0)))).
  { revert I C. unfold run_upserts. rewrite fold_left_app. cbn [fold_left].
    set (prev := fold_left run_upsert calls (VectorStore_init env0 file0)).
    unfold run_upsert at 1 2 3. intros I C.
    rewrite (upsert_file _ _ _ _ _ _ _ D).
    set (index := _index _) in *.
    rewrite VectorStore_init_index, _load_flushed_documents.
    - simpl. unfold dict_values. rewrite map_map. apply map_ext_in.
      intros kv Ik. destruct I as [_ K]. rewrite Forall_forall in K. now rewrite (K kv Ik).
    - now apply index_inv_ids.
    - unfold dict_values. apply Forall_map. exact C.
    - intros d _ []. }
  split; [exact E|]. intros G. rewrite E.
  rewrite <- (map_id (_index (run_upserts (calls ++ [c]) (VectorStore_init env0 file0)))) at 2.
  apply map_ext. intros [k d]. simpl. now rewrite with_run_id_no_env.
Qed.

Lemma _load_line_unloadable (env : Env F) (index : dict (Document F)) (line : Line F) :
  loadable line = false -> _load_line env index line = index.
Proof.
  destruct line as [| |d]; simpl; auto. unfold from_dict.
  destruct (j_id d), (j_content d); auto; discriminate.
Qed.

Lemma _load_filter_loadable (env : Env F) (lines : list (Line F)) (index : dict (Document F)) :
  fold_left (_load_line env) lines index
  = fold_left (_load_line env) (filter loadable lines) index.
Proof.
  revert index. induction lines as [|line lines IH]; intros index; simpl; auto.
  destruct (loadable line) eqn:L; simpl; [apply IH|].
  rewrite (_load_line_unloadable env index L). apply IH.
Qed.

Lemma dict_set_length_le (V : Type) (k : str) (v : V) (d : dict V) :
  (length (dict_set k v d) <= S (length d))%nat.
Proof. induction d as [|[k0 v0] d IH]; simpl; auto. destruct (eqb_str k k0); simpl; lia. Qed.

Lemma _load_length (env : Env F) (lines : list (Line F)) (index : dict (Document F)) :
  (length (fold_left (_load_line env) lines index) <= length index + length lines)%nat.
Proof.
  revert index. induction lines as [|line lines IH]; intros index; simpl; [lia|].
  specialize (IH (_load_line env index line)).
  assert (L : (length (_load_line env index line) <= S (length index))%nat).
  { destruct line as [| |d]; simpl; auto.
    destruct (from_dict env d); auto. apply dict_set_length_le. }
  lia.
Qed.

(** X8: constructing a store reads only the lines that are JSON objects
    with an ["id"] and a ["content"]: blank lines, malformed lines and
    objects without one of the two keys change nothing, wherever they stand
    in the file, and the store holds at most one document per such line. *)
Theorem load_skips_unloadable (env : Env F) (lines : list (Line F)) :
  _index (VectorStore_init env (Some lines))
  = _index (VectorStore_init env (Some (filter loadable lines))) /\
  (count (VectorStore_init env (Some lines)) <= len (filter loadable lines))%Z.
Proof.
  rewrite !VectorStore_init_index. split; [apply _load_filter_loadable|].
  unfold count, len. rewrite VectorStore_init_index, _load_filter_loadable.
  pose proof (_load_length env (filter loadable lines) []) as L. simpl in L. lia.
Qed.

Lemma _load_keeps_other (env : Env F) (doc_id : str) (lines : list (Line F)) :
  Forall (fun line => loadable line = true -> line_id line <> Some doc_id) lines ->
  forall index,
    dict_get doc_id (fold_left (_load_line env) lines index) = dict_get doc_id index.
Proof.
  induction 1 as [|line lines N _ IH]; intros index; simpl; auto.
  rewrite IH. destruct line as [| |d]; simpl; auto.
  unfold from_dict. destruct (j_id d) as [i|] eqn:Ji, (j_content d) as [c|] eqn:Jc; auto.
  cbn [id new_Document]. apply dict_get_set_other.
  intros ->. apply N; simpl; now rewrite ?Ji, ?Jc.
Qed.

(** X9: when several lines of the file carry the same id, the document of
    the last of them is the one the store holds under that id. *)
Theorem load_last_record_wins (env : Env F) (before after : list (Line F))
    (d : Json_record F) (doc : Document F) :
  from_dict env d = Ok doc ->
  Forall (fun line => loadable line = true -> line_id line <> Some (id doc)) after ->
  get (id doc) (VectorStore_init env (Some (before ++ Object d :: after))) = Some doc.
Proof.
  intros E N. unfold get. rewrite VectorStore_init_index, fold_left_app. cbn [fold_left].
  rewrite (_load_keeps_other env N). cbn [_load_line]. rewrite E.
  apply dict_get_set_same.
Qed.
End LoadFacts.

Lemma reload_after_operations_witness :
  ids_and_content (_index (VectorStore_init env0 (_file
     (run_ops ([OpUpsert call_a; OpUpsert call_lost]
               ++ [OpUpsert call_b; OpDelete env0 (s "doc-a"); OpDelete env0 (s "doc-z")])
        (VectorStore_init env0 (Some [Blank]))))))
  = ids_and_content (_index
     (run_ops ([OpUpsert call_a; OpUpsert call_lost]
               ++ [OpUpsert call_b; OpDelete env0 (s "doc-a"); OpDelete env0 (s "doc-z")])
        (VectorStore_init env0 (Some [Blank])))).
Proof.
  apply (@reload_after_operations R _ _ env0 env0 (Some [Blank])
           [OpUpsert call_a; OpUpsert call_lost]
           [OpUpsert call_b; OpDelete env0 (s "doc-a"); OpDelete env0 (s "doc-z")]).
  - repeat constructor.
  - right. exists (OpUpsert call_b), [OpDelete env0 (s "doc-a"); OpDelete env0 (s "doc-z")].
    split; reflexivity.
Defined.

Lemma doc_sparse_only_complete : doc_complete doc_sparse_only.
Proof. split; discriminate. Qed.

Lemma from_dict_to_dict_witness :
  doc_complete doc_sparse_only /\
  from_dict env_disk_full (to_dict doc_sparse_only)
  = Ok (with_run_id env_disk_full doc_sparse_only).
Proof.
  split; [exact doc_sparse_only_complete|].
  apply (from_dict_to_dict env_disk_full doc_sparse_only_complete).
Defined.

Lemma env0_sane : sane env0.
Proof. split; discriminate. Qed.

Lemma reload_restores_documents_witness :
  (sane env0 /\ Forall (fun c => sane (call_env c)) ([call_a] ++ [call_b]) /\
   disk_ok (call_env call_b) = true /\ GITHUB_RUN_ID env0 = []) /\
  _index (VectorStore_init env0
     (_file (run_upserts ([call_a] ++ [call_b]) (VectorStore_init env0 None))))
  = _index (run_upserts ([call_a] ++ [call_b]) (VectorStore_init env0 None)).
Proof.
  assert (Sc : Forall (fun c => sane (call_env c)) ([call_a] ++ [call_b]))
    by (repeat constructor; discriminate).
  assert (D : disk_ok (call_env call_b) = true) by reflexivity.
  assert (G : GITHUB_RUN_ID env0 = []) by reflexivity.
  split; [repeat split; try assumption; discriminate|].
  apply (proj2 (@reload_restores_documents R _ _ env0 env0 None [call_a] call_b env0_sane Sc D) G).
Defined.

Lemma load_last_record_wins_witness :
  option_map content
    (get (s "doc-a")
       (VectorStore_init env0 (Some ([Object record_old; Malformed] ++ Object record_new :: [Blank]))))
  = Some (s "new body").
Proof.
  assert (E : exists doc, from_dict env0 record_new = Ok doc /\ content doc = s "new body"
                          /\ id doc = s "doc-a").
  { eexists. split; [reflexivity|]. split; reflexivity. }
  destruct E as (doc & E & C & I).
  assert (N : Forall (fun line => loadable line = true -> line_id line <> Some (id doc))
                     [@Blank R]) by (repeat constructor; discriminate).
  pose proof (load_last_record_wins [Object record_old; Malformed] E N) as G.
  rewrite I in G. rewrite G. simpl. now rewrite C.
Defined.

(* ================================================================== *)
(** * Further properties of the query *)

Section QueryFacts.
Context {F : Type} `{Arith F} `{Log1p F} {order : SetOrder}.

Lemma py_slice_In (A : Type) (l : list A) (i j : Z) (x : A) :
  In x (py_slice l i j) -> In x l.
Proof.
  unfold py_slice. set (a := Z.to_nat _). set (b := Z.to_nat _). intros I.
  rewrite <- (firstn_skipn b l). apply in_or_app. right.
  rewrite <- (firstn_skipn a (skipn b l)). apply in_or_app. now left.
Qed.

(** X10: every hit of [query] is a document of the store paired with its
    own cosine score against the query, and with a non-empty metadata filter
    every hit matches the filter on every key. *)
Theorem query_hits_sound (env : Env F) (query_text : str) (top_k : Z)
    (metadata_filter : option (dict scalar)) (self : VectorStore F) (hit : F * Document F) :
  In hit (query env query_text top_k metadata_filter self) ->
  In (snd hit) (dict_values (_index self)) /\
  hit = score_of (_tfidf_embed query_text) (snd hit) /\
  (forall e m, metadata_filter = Some (e :: m) -> metadata_matches (e :: m) (snd hit) = true).
Proof.
  rewrite query_unfold. destruct (negb (truthy (_index self))); [intros []|].
  intros I. apply py_slice_In in I.
  apply (Permutation_in _ (Permutation_sym (sort_desc_perm_any fst _))) in I.
  apply in_map_iff in I as (doc & <- & I). cbn [snd score_of].
  unfold candidates_of in I. split; [|split].
  - destruct metadata_filter as [[|e m]|]; auto. now apply filter_In in I.
  - reflexivity.
  - intros e m ->. now apply filter_In in I.
Qed.

(** X11: without a filter and with [top_k] at least the number of
    documents, [query] returns every document of the store exactly once;
    with [top_k = 0] it returns nothing. *)
Theorem query_returns_all (env : Env F) (query_text : str) (top_k : Z) (self : VectorStore F) :
  ((count self <= top_k)%Z ->
   Permutation (map snd (query env query_text top_k None self)) (dict_values (_index self))) /\
  (forall metadata_filter, query env query_text 0 metadata_filter self = []).
Proof.
  split.
  - intros K. rewrite query_unfold. unfold count, len in K.
    destruct (_index self) as [|kv index] eqn:I; [constructor|]. cbn [truthy negb].
    rewrite <- I in *. unfold candidates_of.
    assert (L : length (sort_desc fst (map (score_of (_tfidf_embed query_text))
                                           (dict_values (_index self))))
                = length (_index self)).
    { rewrite <- (Permutation_length (sort_desc_perm_any fst _)).
      unfold dict_values. now rewrite !length_map. }
    rewrite py_prefix_firstn by lia. rewrite firstn_all2 by lia.
    apply perm_trans with (map snd (map (score_of (_tfidf_embed query_text))
                                        (dict_values (_index self)))).
    + apply Permutation_map, Permutation_sym, sort_desc_perm_any.
    + rewrite map_map. cbn [score_of snd]. now rewrite map_id.
  - intros metadata_filter. rewrite query_unfold.
    destruct (negb (truthy (_index self))); [reflexivity|].
    now rewrite py_prefix_firstn by lia.
Qed.

Lemma count_tok_zero (t : str) (tokens : list str) :
  count_tok t tokens = 0%nat <-> ~ In t tokens.
Proof.
  unfold count_tok. induction tokens as [|u tokens IH]; simpl; [tauto|].
  destruct (eqb_str t u) eqn:E.
  - apply eqb_str_eq in E. subst u. simpl. split; [discriminate | tauto].
  - apply eqb_str_neq in E. rewrite IH. split; [intros N [E'|I]; [congruence | tauto] | tauto].
Qed.

(** The keys of the sparse vector of a text are its tokens. *)
Lemma _tfidf_embed_mem (text t : str) :
  dict_mem t (_tfidf_embed (F := F) text) = true <-> In t (_tokenize text).
Proof.
  unfold dict_mem. rewrite _tfidf_embed_get.
  destruct (count_tok t (_tokenize text)) eqn:C.
  - apply count_tok_zero in C. split; [discriminate | contradiction].
  - split; auto. intros _. destruct (in_dec (list_eq_dec ascii_dec) t (_tokenize text)); auto.
    apply count_tok_zero in n0. congruence.
Qed.

Lemma filter_none (A : Type) (f : A -> bool) (l : list A) :
  (forall x, In x l -> f x = false) -> filter f l = [].
Proof.
  induction l as [|x l IH]; simpl; auto. intros N.
  rewrite (N x (or_introl eq_refl)). apply IH. intros y I. apply N. now right.
Qed.

Lemma common_keys_nil_r (a : dict F) : common_keys a [] = [].
Proof. apply common_keys_nil. intros k _ []. Qed.

(** X12: a query and a document text with no token in common score exactly
    zero, in every arithmetic, and so does every document stored with
    [skip_embed], whatever the query. *)
Theorem no_shared_token_scores_zero (query_text doc_text : str) :
  ((forall t, In t (_tokenize query_text) -> ~ In t (_tokenize doc_text)) ->
   _cosine_sparse (F := F) (_tfidf_embed query_text) (_tfidf_embed doc_text) = fzero) /\
  (forall (env : Env F) (doc_id : str) (metadata : option (dict scalar))
          (correlation_id : option str) (run_id : str),
     fst (score_of (_tfidf_embed query_text)
            (upsert_doc env doc_id doc_text metadata correlation_id run_id true)) = fzero).
Proof.
  split.
  - intros D. apply (proj1 (cosine_zero_cases _ _)).
    apply common_keys_nil. intros t Ia Ib. apply (D t).
    + apply _tfidf_embed_mem. now apply dict_mem_keys.
    + apply _tfidf_embed_mem. now apply dict_mem_keys.
  - intros env doc_id metadata correlation_id run_id. cbn [score_of fst upsert_doc].
    cbn. apply (proj1 (cosine_zero_cases _ _)). apply common_keys_nil_r.
Qed.

Lemma count_tok_perm (t : str) (l1 l2 : list str) :
  Permutation l1 l2 -> count_tok t l1 = count_tok t l2.
Proof.
  unfold count_tok. induction 1; simpl; auto.
  - destruct (eqb_str t x); simpl; auto.
  - destruct (eqb_str t x), (eqb_str t y); simpl; auto.
  - congruence.
Qed.

(** X13: the weight of a token depends only on how often each token
    occurs: two texts with the same tokens in any order give every token the
    same weight, in every arithmetic. *)
Theorem embedding_ignores_token_order (text1 text2 t : str) :
  Permutation (_tokenize text1) (_tokenize text2) ->
  dict_get t (_tfidf_embed (F := F) text1) = dict_get t (_tfidf_embed text2).
Proof.
  intros P. rewrite !_tfidf_embed_get.
  now rewrite (count_tok_perm t P), (Permutation_length P).
Qed.
End QueryFacts.

Lemma query_hits_sound_witness :
  exists hit,
    In hit (query (order := key_order) env0 (s "weather") 5
              (Some [(s "source", SStr (s "x"))])
              (run_upserts [call_a; call_b] (VectorStore_init env0 None))) /\
    metadata_matches [(s "source", SStr (s "x"))] (snd hit) = true.
Proof.
  exists (score_of (order := key_order) (_tfidf_embed (s "weather"))
            (upsert_doc env0 (s "doc-b") (s "weather forecast sunny today")
               (Some [(s "source", SStr (s "x"))]) None [] true)).
  assert (I : In (score_of (order := key_order) (_tfidf_embed (s "weather"))
                    (upsert_doc env0 (s "doc-b") (s "weather forecast sunny today")
                       (Some [(s "source", SStr (s "x"))]) None [] true))
                 (query (order := key_order) env0 (s "weather") 5
                    (Some [(s "source", SStr (s "x"))])
                    (run_upserts [call_a; call_b] (VectorStore_init env0 None)))).
  { rewrite query_unfold. left. reflexivity. }
  split; [exact I|].
  apply (query_hits_sound I) with (e := (s "source", SStr (s "x"))) (m := []).
  reflexivity.
Defined.

Lemma query_returns_all_witness :
  (count store_two <= 5)%Z /\
  Permutation (map snd (query (order := key_order) env0 (s "policy") 5 None store_two))
              (dict_values (_index store_two)).
Proof.
  assert (K : (count store_two <= 5)%Z) by (vm_compute; discriminate).
  split; [exact K|].
  apply (proj1 (query_returns_all (order := key_order) env0 (s "policy") 5 store_two) K).
Defined.

Lemma no_shared_token_scores_zero_witness :
  (forall t, In t (_tokenize (s "autonomous policy governance")) ->
             ~ In t (_tokenize (s "weather forecast sunny today"))) /\
  _cosine_sparse (F := R) (order := key_order)
    (_tfidf_embed (s "autonomous policy governance"))
    (_tfidf_embed (s "weather forecast sunny today")) = 0%R.
Proof.
  assert (D : forall t, In t (_tokenize (s "autonomous policy governance")) ->
                        ~ In t (_tokenize (s "weather forecast sunny today"))).
  { intros t I J. vm_compute in I, J.
    repeat (destruct I as [I|I]; [subst t; repeat (destruct J as [J|J]; [discriminate J|]);
                                  exact J|]).
    exact I. }
  split; [exact D|].
  exact (proj1 (no_shared_token_scores_zero (F := R) (s "autonomous policy governance")
                  (s "weather forecast sunny today")) D).
Defined.

Lemma embedding_ignores_token_order_witness :
  Permutation (_tokenize (s "agents govern")) (_tokenize (s "Govern, agents!")) /\
  dict_get (s "govern") (_tfidf_embed (F := R) (s "agents govern"))
  = dict_get (s "govern") (_tfidf_embed (s "Govern, agents!")).
Proof.
  assert (P : Permutation (_tokenize (s "agents govern")) (_tokenize (s "Govern, agents!")))
    by (vm_compute; apply perm_swap).
  split; [exact P|].
  apply (embedding_ignores_token_order (F := R) (s "govern") P).
Defined.

(** ** Scores over the exact reals *)

Section RealScoreFacts.
Context {order : SetOrder}.
Local Open Scope R_scope.

Lemma ln_1_plus_bounds (y : R) : 0 < y -> 0 < ln (1 + y) < y.
Proof.
  intros Y. split.
  - rewrite <- ln_1. apply ln_increasing; lra.
  - rewrite <- (ln_exp y) at 2. apply ln_increasing; [lra|]. apply exp_ineq1. lra.
Qed.

Lemma _tfidf_embed_weight_range (text : str) :
  Forall (fun v => 0 < v < 1) (dict_values (_tfidf_embed (F := R) text)).
Proof.
  apply Forall_forall. intros v I.
  unfold dict_values in I. apply in_map_iff in I as [[k v'] [E I]]. simpl in E. subst v'.
  apply (dict_In_get (_tfidf_embed_wf text)) in I.
  rewrite _tfidf_embed_get in I.
  pose proof (count_tok_le k (_tokenize text)) as L.
  destruct (count_tok k (_tokenize text)) as [|c]; [discriminate|].
  remember (S c) as c' eqn:Ec.
  injection I as <-. unfold weight_of. cbn [fdiv fmul fof_nat fone flog1p R_arith R_log1p].
  assert (Pc : 0 < INR c') by (apply lt_0_INR; lia).
  assert (Pn : 0 < INR (length (_tokenize text))) by (apply lt_0_INR; lia).
  set (tf := INR c' / INR (length (_tokenize text))).
  assert (Ptf : 0 < tf) by (apply Rdiv_lt_0_compat; assumption).
  assert (Pr : 0 < 1 / tf) by (apply Rdiv_lt_0_compat; lra).
  destruct (ln_1_plus_bounds Pr) as [L0 L1]. split.
  - now apply Rmult_lt_0_compat.
  - replace 1 with (tf * (1 / tf)) at 3 by (field; lra).
    now apply Rmult_lt_compat_l.
Qed.

(** X14: over the reals every weight of a sparse vector lies strictly
    between 0 and 1. *)
Theorem embed_weights_in_unit_interval (text t : str) (w : R) :
  dict_get t (_tfidf_embed (F := R) text) = Some w -> 0 < w < 1.
Proof.
  intros G. apply dict_get_In in G.
  pose proof (_tfidf_embed_weight_range text) as W. rewrite Forall_forall in W.
  apply W. unfold dict_values. change w with (snd (t, w)). now apply in_map.
Qed.

Lemma get_or_positive (a : dict R) (k : str) :
  Forall (fun v => 0 < v) (dict_values a) -> In k (dict_keys a) -> 0 < dict_get_or k a 0.
Proof.
  intros P I. unfold dict_get_or. destruct (dict_get k a) as [v|] eqn:G.
  - apply dict_get_In in G. rewrite Forall_forall in P. apply P.
    unfold dict_values. change v with (snd (k, v)). now apply in_map.
  - apply dict_get_None_keys in G. contradiction.
Qed.

Lemma Rsum_positive (xs : list R) :
  xs <> [] -> Forall (fun v => 0 < v) xs -> 0 < Rsum xs.
Proof.
  intros N P. destruct xs as [|x xs]; [contradiction|].
  inversion P as [|x' xs' Px Pxs]; subst. simpl.
  assert (0 <= Rsum xs) by (apply Rsum_nonneg; eapply Forall_impl; [|exact Pxs]; simpl; intros; lra).
  lra.
Qed.

Lemma sq_norm_positive (a : dict R) :
  a <> [] -> Forall (fun v => 0 < v) (dict_values a) -> 0 < sq_norm a.
Proof.
  intros N P. unfold sq_norm. apply Rsum_positive.
  - destruct a; [contradiction | discriminate].
  - apply Forall_map. eapply Forall_impl; [|exact P]. simpl. intros v V. nra.
Qed.

Lemma cosine_positive (a b : dict R) :
  Forall (fun v => 0 < v) (dict_values a) -> Forall (fun v => 0 < v) (dict_values b) ->
  common_keys a b <> [] -> 0 < _cosine_sparse a b.
Proof.
  intros Pa Pb C. rewrite _cosine_sparse_R.
  destruct (common_keys a b) as [|k ks] eqn:E; [contradiction|]. rewrite <- E.
  assert (Ik : In k (common_keys a b)) by (rewrite E; now left).
  apply common_keys_in in Ik as [Ia Ib].
  assert (Na : a <> []) by (intros ->; destruct Ia).
  assert (Nb : b <> []) by (intros ->; destruct Ib).
  pose proof (sqrt_lt_R0 _ (sq_norm_positive Na Pa)) as Ma.
  pose proof (sqrt_lt_R0 _ (sq_norm_positive Nb Pb)) as Mb.
  destruct (Req_dec_T (R_sqrt.sqrt (sq_norm a)) 0) as [Z|_]; [lra|].
  destruct (Req_dec_T (R_sqrt.sqrt (sq_norm b)) 0) as [Z|_]; [lra|].
  apply Rdiv_lt_0_compat; [|now apply Rmult_lt_0_compat].
  apply Rsum_positive.
  - rewrite E. discriminate.
  - apply Forall_map, Forall_forall. intros k' Ik'. apply common_keys_in in Ik' as [Ia' Ib'].
    apply Rmult_lt_0_compat; now apply get_or_positive.
Qed.

Lemma _tfidf_embed_positive (text : str) :
  Forall (fun v => 0 < v) (dict_values (_tfidf_embed (F := R) text)).
Proof.
  eapply Forall_impl; [|apply _tfidf_embed_weight_range]. simpl. intros v V. lra.
Qed.

(** X15: over the reals the score of a query text against a document text
    is positive exactly when the two have a token in common. *)
Theorem score_positive_iff_shared_token (query_text doc_text : str) :
  0 < _cosine_sparse (F := R) (_tfidf_embed query_text) (_tfidf_embed doc_text)
  <-> exists t, In t (_tokenize query_text) /\ In t (_tokenize doc_text).
Proof.
  split.
  - intros P.
    destruct (common_keys (_tfidf_embed (F := R) query_text) (_tfidf_embed doc_text))
      as [|k ks] eqn:E.
    + pose proof (proj1 (cosine_zero_cases (_tfidf_embed (F := R) query_text)
                           (_tfidf_embed doc_text)) E) as Z.
      cbn [fzero R_arith] in Z. lra.
    + assert (Ik : In k (common_keys (_tfidf_embed (F := R) query_text)
                                     (_tfidf_embed doc_text))) by (rewrite E; now left).
      apply common_keys_in in Ik as [Ia Ib]. exists k.
      split; apply (_tfidf_embed_mem (F := R)); now apply dict_mem_keys.
  - intros (t & Iq & Id). apply cosine_positive; try apply _tfidf_embed_positive.
    intros E.
    assert (Ik : In t (common_keys (_tfidf_embed (F := R) query_text) (_tfidf_embed doc_text))).
    { apply common_keys_in. split; apply dict_mem_keys; now apply (_tfidf_embed_mem (F := R)). }
    rewrite E in Ik. destruct Ik.
Qed.

Lemma filter_all (A : Type) (f : A -> bool) (l : list A) :
  (forall x, In x l -> f x = true) -> filter f l = l.
Proof.
  induction l as [|x l IH]; simpl; auto. intros T.
  rewrite (T x (or_introl eq_refl)). f_equal. apply IH. intros y I. apply T. now right.
Qed.

Lemma cosine_self (a : dict R) :
  dict_wf a -> a <> [] -> Forall (fun v => 0 < v) (dict_values a) -> _cosine_sparse a a = 1.
Proof.
  intros W N P. rewrite _cosine_sparse_R.
  destruct (common_keys a a) as [|k ks] eqn:K.
  { destruct a as [|[k0 v0] a]; [contradiction|].
    assert (I : In k0 (common_keys ((k0, v0) :: a) ((k0, v0) :: a)))
      by (apply common_keys_in; split; now left).
    rewrite K in I. destruct I. }
  rewrite <- K.
  pose proof (sq_norm_positive N P) as S. pose proof (sqrt_lt_R0 _ S) as M.
  destruct (Req_dec_T (R_sqrt.sqrt (sq_norm a)) 0) as [Z|_]; [lra|].
  rewrite (dot_over_all_keys a W).
  rewrite (values_by_key (fun _ v => v * v) W).
  assert (D : Rsum (map (fun kv : str * R => snd kv * snd kv) a) = sq_norm a).
  { unfold sq_norm, dict_values. now rewrite map_map. }
  rewrite D, sqrt_sqrt by lra. field. lra.
Qed.

(** X16: over the reals a text with at least one token scores exactly 1
    against itself; a text without tokens scores 0 against itself. *)
Theorem self_similarity (text : str) :
  _cosine_sparse (F := R) (_tfidf_embed text) (_tfidf_embed text)
  = if truthy (_tokenize text) then 1 else 0.
Proof.
  destruct (_tokenize text) as [|u tokens] eqn:T; cbn [truthy].
  - unfold _tfidf_embed. rewrite T. cbn [truthy negb].
    refine (proj1 (cosine_zero_cases (F := R) [] []) _). apply common_keys_nil. intros k [].
  - apply cosine_self.
    + apply _tfidf_embed_wf.
    + intros E. assert (M : dict_mem u (_tfidf_embed (F := R) text) = true).
      { apply (_tfidf_embed_mem (F := R)). rewrite T. now left. }
      rewrite E in M. discriminate.
    + apply _tfidf_embed_positive.
Qed.
End RealScoreFacts.

Lemma embed_weights_in_unit_interval_witness :
  dict_get (s "aa") (_tfidf_embed (F := R) (s "aa")) = Some (INR 1 / INR 1 * ln (1 + 1 / (INR 1 / INR 1)))%R /\
  (0 < INR 1 / INR 1 * ln (1 + 1 / (INR 1 / INR 1)) < 1)%R.
Proof.
  assert (G : dict_get (s "aa") (_tfidf_embed (F := R) (s "aa"))
              = Some (INR 1 / INR 1 * ln (1 + 1 / (INR 1 / INR 1)))%R) by reflexivity.
  split; [exact G|].
  apply (embed_weights_in_unit_interval G).
Defined.

(* ================================================================== *)
(** * Further properties of the tokenizer *)

Lemma is_token_char_lower (c : ascii) : is_token_char (lower_char c) = is_token_char c.
Proof. destruct c as [[] [] [] [] [] [] [] []]; reflexivity. Qed.

Lemma is_token_char_same_case (a b : ascii) :
  lower_char a = lower_char b -> is_token_char a = is_token_char b.
Proof.
  intros E. rewrite <- (is_token_char_lower a), <- (is_token_char_lower b). now rewrite E.
Qed.

Lemma runs_from_same_case (t1 t2 : str) :
  Forall2 (fun a b => lower_char a = lower_char b) t1 t2 ->
  forall cur1 cur2,
    Forall2 (fun a b => lower_char a = lower_char b) cur1 cur2 ->
    Forall2 (Forall2 (fun a b => lower_char a = lower_char b))
      (runs_from is_token_char cur1 t1) (runs_from is_token_char cur2 t2).
Proof.
  induction 1 as [|a b t1 t2 E _ IH]; intros cur1 cur2 C; simpl.
  - destruct C; repeat constructor; auto.
  - rewrite (is_token_char_same_case E). destruct (is_token_char b).
    + apply IH. apply Forall2_app; auto.
    + destruct C; [apply IH; constructor|].
      constructor; [constructor; auto | apply IH; constructor].
Qed.

Lemma lower_same_case (u v : str) :
  Forall2 (fun a b => lower_char a = lower_char b) u v -> lower u = lower v.
Proof. induction 1; simpl; congruence. Qed.

(** X17: two texts that differ only in the case of ASCII letters have the
    same tokens, hence the same sparse vector. *)
Theorem tokenize_ignores_case (F : Type) `{Arith F} `{Log1p F} (t1 t2 : str) :
  Forall2 (fun a b => lower_char a = lower_char b) t1 t2 ->
  _tokenize t1 = _tokenize t2 /\ _tfidf_embed (F := F) t1 = _tfidf_embed t2.
Proof.
  intros S.
  assert (T : _tokenize t1 = _tokenize t2).
  { unfold _tokenize, runs.
    pose proof (runs_from_same_case S (Forall2_nil _)) as R.
    induction R as [|u v us vs U _ IH]; simpl; auto.
    rewrite (Forall2_length U). destruct (1 <? length v)%nat; simpl; [|exact IH].
    now rewrite (lower_same_case U), IH. }
  split; [exact T|]. unfold _tfidf_embed. now rewrite T.
Qed.

(** X18: a character outside [[a-zA-Z0-9_-]] separates tokens: the tokens
    of a text are those before it followed by those after it. *)
Theorem tokenize_at_separator (a b : str) (c : ascii) :
  is_token_char c = false -> _tokenize (a ++ c :: b) = _tokenize a ++ _tokenize b.
Proof.
  intros P. unfold _tokenize, runs.
  now rewrite (runs_from_app_sep a b P), filter_app, map_app.
Qed.

Lemma tokenize_ignores_case_witness :
  _tokenize (s "TAP Protocol v2") = _tokenize (s "tap protocol V2") /\
  _tfidf_embed (F := R) (s "TAP Protocol v2") = _tfidf_embed (s "tap protocol V2").
Proof.
  apply (@tokenize_ignores_case R _ _ (s "TAP Protocol v2") (s "tap protocol V2")).
  repeat constructor.
Defined.

Lemma tokenize_at_separator_witness :
  _tokenize (s "all-agents" ++ ","%char :: s " v2") = _tokenize (s "all-agents") ++ _tokenize (s " v2").
Proof. apply (@tokenize_at_separator (s "all-agents") (s " v2") ","%char). reflexivity. Defined.

(* ================================================================== *)
(** * Further properties of the chunker *)

Lemma split_join_words (ws : list str) :
  Forall word_ok ws -> split (join (s " ") ws) = ws.
Proof.
  induction 1 as [|w ws [N P] Fw IH]; [reflexivity|].
  destruct ws as [|w2 ws].
  - cbn [join]. unfold split, runs. rewrite <- (app_nil_r w) at 1.
    rewrite (runs_from_app_run [] P). simpl. now destruct w.
  - change (join (s " ") (w :: w2 :: ws)) with (w ++ " "%char :: join (s " ") (w2 :: ws)).
    unfold split, runs. rewrite (runs_from_app_run _ P). cbn [app runs_from].
    replace (negb (is_space " ")) with false by reflexivity.
    destruct w as [|c w]; [contradiction|]. f_equal. exact IH.
Qed.

Lemma section_length_below_fuel (text section : str) (fuel : nat) :
  (enough_fuel text <= fuel)%nat -> In section (heading_split text) ->
  (length (split section) < fuel)%nat.
Proof.
  intros B I. unfold enough_fuel in B.
  pose proof (proj1 (list_max_le _ _) (Nat.le_refl
    (list_max (map (fun section => length (split section)) (heading_split text))))) as A.
  rewrite Forall_forall in A.
  apply (in_map (fun section => length (split section))) in I. apply A in I. lia.
Qed.

Lemma section_chunks_windows (fuel : nat) (section : str) (chunk_size overlap : Z) :
  (0 <= overlap < chunk_size)%Z -> (length (split section) < fuel)%nat ->
  section_chunks fuel section chunk_size overlap
  = Some (map (join (s " ")) (section_windows section chunk_size overlap)).
Proof.
  intros O B. unfold section_chunks, section_windows.
  destruct (split section) as [|w ws] eqn:E; [reflexivity|]. cbn [truthy negb].
  rewrite <- E.
  assert (N : split section <> []) by (rewrite E; discriminate).
  pose proof (split_words_ok section) as Wk.
  assert (P : (0 < len (split section))%Z) by (unfold len; rewrite E; simpl; lia).
  destruct (num_windows_facts P O) as (M1 & _ & _ & _ & M5).
  set (m := num_windows (len (split section)) chunk_size overlap) in *.
  pose proof (@chunk_loop_windows (split section) chunk_size overlap N Wk O (m - 1) 0 fuel [])
    as C.
  change (Z.of_nat 0 * (chunk_size - overlap))%Z with 0%Z in C. rewrite C.
  - cbn [app]. replace (S (m - 1)) with m by lia. now rewrite map_map.
  - reflexivity.
  - rewrite <- E in B. unfold len in M5. lia.
Qed.

Lemma concat_sections_Some (parts : list (list str)) :
  concat_sections (map Some parts) = Some (concat parts).
Proof. induction parts as [|p ps IH]; simpl; auto. now rewrite IH. Qed.

Lemma chunk_sections_windows (fuel : nat) (sections : list str) (chunk_size overlap : Z) :
  (0 <= overlap < chunk_size)%Z ->
  Forall (fun section => (length (split section) < fuel)%nat) sections ->
  chunk_sections fuel sections chunk_size overlap []
  = Some (map (join (s " "))
            (concat (map (fun section => section_windows section chunk_size overlap) sections))).
Proof.
  intros O B. rewrite chunk_sections_concat.
  assert (E : map (fun section => section_chunks fuel section chunk_size overlap) sections
              = map Some (map (fun section => map (join (s " "))
                                  (section_windows section chunk_size overlap)) sections)).
  { rewrite map_map. apply map_ext_in. intros section I.
    rewrite Forall_forall in B. now apply section_chunks_windows, B. }
  rewrite E, concat_sections_Some. simpl. f_equal.
  now rewrite concat_map, map_map.
Qed.

Lemma section_windows_nonempty (section : str) (chunk_size overlap : Z) :
  split section <> [] -> section_windows section chunk_size overlap <> [].
Proof.
  intros N. unfold section_windows. destruct (split section) as [|w ws] eqn:E; [contradiction|].
  cbn [truthy]. unfold num_windows. destruct (_ <=? _)%Z; discriminate.
Qed.

Lemma text_windows_nonempty (text : str) (chunk_size overlap : Z) :
  (exists section, In section (heading_split text) /\ split section <> []) ->
  text_windows text chunk_size overlap <> [].
Proof.
  intros (section & I & N) E. unfold text_windows in E.
  pose proof (@section_windows_nonempty section chunk_size overlap N) as S.
  apply S. destruct (section_windows section chunk_size overlap) as [|x xs] eqn:W; auto.
  assert (In x (concat (map (fun section => section_windows section chunk_size overlap)
                          (heading_split text)))).
  { apply in_concat. exists (x :: xs). split; [|now left].
    rewrite <- W. now apply (in_map (fun section => section_windows section chunk_size overlap)). }
  rewrite E in H. destruct H.
Qed.

(** With [0 <= overlap < chunk_size] and a text that has a word in some
    section, the chunks are the windows of the sections joined by spaces. *)
Lemma _chunk_text_windows (text : str) (chunk_size overlap : Z) (fuel : nat) :
  (0 <= overlap < chunk_size)%Z -> (enough_fuel text <= fuel)%nat ->
  (exists section, In section (heading_split text) /\ split section <> []) ->
  _chunk_text fuel text chunk_size overlap
  = Some (map (join (s " ")) (text_windows text chunk_size overlap)).
Proof.
  intros O B W. unfold _chunk_text. rewrite chunk_sections_windows; auto.
  - fold (text_windows text chunk_size overlap).
    pose proof (@text_windows_nonempty text chunk_size overlap W) as N.
    destruct (text_windows text chunk_size overlap); [contradiction | reflexivity].
  - apply Forall_forall. intros section I. now apply (section_length_below_fuel B).
Qed.

Lemma window_words (words : list str) (chunk_size overlap : Z) (k : nat) :
  (0 < len words)%Z -> (0 <= overlap < chunk_size)%Z ->
  (k < num_windows (len words) chunk_size overlap)%nat ->
  (1 <= len (window words chunk_size overlap k) <= chunk_size)%Z.
Proof.
  intros P O K. destruct (num_windows_facts P O) as (_ & _ & _ & M4 & _).
  specialize (M4 k ltac:(lia)). unfold window. rewrite py_slice_len. unfold clamp_index.
  set (a := (Z.of_nat k * (chunk_size - overlap))%Z) in *.
  assert (0 <= a)%Z by (unfold a; nia).
  destruct (a <? 0)%Z eqn:E1; [apply Z.ltb_lt in E1; lia|].
  destruct (a + chunk_size <? 0)%Z eqn:E2; [apply Z.ltb_lt in E2; lia|]. lia.
Qed.

Lemma section_windows_facts (section : str) (chunk_size overlap : Z) :
  (0 <= overlap < chunk_size)%Z ->
  Forall (fun w => Forall word_ok w /\ (1 <= len w <= chunk_size)%Z /\ incl w (split section))
         (section_windows section chunk_size overlap).
Proof.
  intros O. unfold section_windows. destruct (split section) as [|w ws] eqn:E; [constructor|].
  cbn [truthy]. rewrite <- E.
  assert (P : (0 < len (split section))%Z) by (unfold len; rewrite E; simpl; lia).
  apply Forall_map, Forall_forall. intros k I. apply in_seq in I. repeat split.
  - apply py_slice_Forall, split_words_ok.
  - apply (window_words P O). lia.
  - apply (window_words P O). lia.
  - intros x. apply py_slice_In.
Qed.

(** X19: with [0 <= overlap < chunk_size], enough fuel and a word in some
    section, every chunk holds between one and [chunk_size] words, each a
    word of one of the sections. *)
Theorem chunk_word_counts (text : str) (chunk_size overlap : Z) (fuel : nat) :
  (0 <= overlap < chunk_size)%Z -> (enough_fuel text <= fuel)%nat ->
  (exists section, In section (heading_split text) /\ split section <> []) ->
  exists chunks,
    _chunk_text fuel text chunk_size overlap = Some chunks /\
    chunks <> [] /\
    Forall (fun chunk =>
              (1 <= len (split chunk) <= chunk_size)%Z /\
              exists section, In section (heading_split text) /\
                              incl (split chunk) (split section))
           chunks.
Proof.
  intros O B W. rewrite (_chunk_text_windows O B W). eexists. split; [reflexivity|]. split.
  - pose proof (@text_windows_nonempty text chunk_size overlap W) as N.
    destruct (text_windows text chunk_size overlap); [contradiction | discriminate].
  - apply Forall_map, Forall_forall. intros w I. unfold text_windows in I.
    apply in_concat in I as (ws & I1 & I2). apply in_map_iff in I1 as (section & <- & I1).
    pose proof (section_windows_facts section O) as Fs. rewrite Forall_forall in Fs.
    destruct (Fs w I2) as (Wk & L & Inc). rewrite (split_join_words Wk).
    split; [exact L|]. exists section. now split.
Qed.

Lemma py_slice_nonneg (A : Type) (l : list A) (i j : Z) :
  (0 <= i <= j)%Z -> py_slice l i j = firstn (Z.to_nat (j - i)) (skipn (Z.to_nat i) l).
Proof.
  intros [I J]. unfold py_slice, clamp_index.
  destruct (i <? 0)%Z eqn:E1; [apply Z.ltb_lt in E1; lia|].
  destruct (j <? 0)%Z eqn:E2; [apply Z.ltb_lt in E2; lia|].
  set (n := Z.of_nat (length l)).
  destruct (Z.le_gt_cases i n) as [Le|Gt].
  - replace (Z.min i n) with i by lia.
    destruct (Z.le_gt_cases j n) as [Le'|Gt'].
    + now replace (Z.min j n) with j by lia.
    + replace (Z.min j n) with n by lia.
      rewrite !firstn_all2; auto; rewrite length_skipn; unfold n in *; lia.
  - rewrite !(skipn_all2 l) by (unfold n in *; lia). now rewrite !firstn_nil.
Qed.

Lemma firstn_then_firstn (A : Type) (a b : nat) (l : list A) :
  firstn a l ++ firstn b (skipn a l) = firstn (a + b) l.
Proof.
  revert l; induction a as [|a IH]; intros l; [reflexivity|].
  destruct l as [|x l]; simpl; [now rewrite firstn_nil | now rewrite IH].
Qed.

Lemma windows_prefix (words : list str) (chunk_size : Z) (j : nat) :
  (0 < chunk_size)%Z ->
  concat (map (window words chunk_size 0) (seq 0 j)) = firstn (j * Z.to_nat chunk_size) words.
Proof.
  intros P. induction j as [|j IH]; [reflexivity|].
  rewrite seq_S, map_app, concat_app, IH. cbn [map concat plus]. rewrite app_nil_r.
  unfold window. rewrite Z.sub_0_r. rewrite py_slice_nonneg by nia.
  replace (Z.of_nat j * chunk_size + chunk_size - Z.of_nat j * chunk_size)%Z
    with chunk_size by lia.
  rewrite Z2Nat.inj_mul, Nat2Z.id by lia.
  rewrite firstn_then_firstn. f_equal. lia.
Qed.

Lemma section_windows_concat (section : str) (chunk_size : Z) :
  (0 < chunk_size)%Z -> concat (section_windows section chunk_size 0) = split section.
Proof.
  intros P. unfold section_windows. destruct (split section) as [|w ws] eqn:E; [reflexivity|].
  cbn [truthy]. rewrite <- E.
  assert (L : (0 < len (split section))%Z) by (unfold len; rewrite E; simpl; lia).
  destruct (@num_windows_facts (len (split section)) chunk_size 0 L ltac:(lia))
    as (M1 & _ & M3 & _ & _).
  rewrite (windows_prefix _ _ P). apply firstn_all2. unfold len in M3.
  set (m := num_windows _ _ _) in *.
  apply Nat2Z.inj_le. rewrite Nat2Z.inj_mul, Z2Nat.id by lia.
  replace (Z.of_nat (m - 1)) with (Z.of_nat m - 1)%Z in M3 by lia. nia.
Qed.

Lemma concat_concat (A : Type) (ls : list (list (list A))) :
  concat (concat ls) = concat (map (@concat A) ls).
Proof. induction ls as [|l ls IH]; simpl; auto. now rewrite concat_app, IH. Qed.

(** X20: without overlap the chunks partition the words: split back into
    words and put end to end, they are the words of the sections in order. *)
Theorem chunks_partition_words (text : str) (chunk_size : Z) (fuel : nat) :
  (0 < chunk_size)%Z -> (enough_fuel text <= fuel)%nat ->
  (exists section, In section (heading_split text) /\ split section <> []) ->
  exists chunks,
    _chunk_text fuel text chunk_size 0 = Some chunks /\
    concat (map split chunks) = concat (map split (heading_split text)).
Proof.
  intros P B W. rewrite (@_chunk_text_windows text chunk_size 0 fuel ltac:(lia) B W).
  eexists. split; [reflexivity|].
  assert (E : map split (map (join (s " ")) (text_windows text chunk_size 0))
              = text_windows text chunk_size 0).
  { rewrite map_map. rewrite <- (map_id (text_windows text chunk_size 0)) at 2.
    apply map_ext_in. intros w I. apply split_join_words.
    unfold text_windows in I. apply in_concat in I as (ws & I1 & I2).
    apply in_map_iff in I1 as (section & <- & I1).
    pose proof (@section_windows_facts section chunk_size 0 ltac:(lia)) as Fs.
    rewrite Forall_forall in Fs. now destruct (Fs w I2). }
  rewrite E. unfold text_windows. rewrite concat_concat, map_map.
  f_equal. apply map_ext. intros section. now apply section_windows_concat.
Qed.

Lemma chunk_sections_wordless (fuel : nat) (sections : list str) (chunk_size overlap : Z)
    (chunks : list str) :
  Forall (fun section => split section = []) sections ->
  chunk_sections fuel sections chunk_size overlap chunks = Some chunks.
Proof.
  induction 1 as [|section sections E _ IH]; cbn [chunk_sections]; auto.
  now rewrite E.
Qed.

(** X21: a text none of whose sections has a word yields one chunk, its own
    first [6 * chunk_size] characters, whatever the fuel and the overlap. *)
Theorem chunk_text_fallback (text : str) (chunk_size overlap : Z) (fuel : nat) :
  Forall (fun section => split section = []) (heading_split text) ->
  _chunk_text fuel text chunk_size overlap
  = Some [py_prefix text (chunk_size * _CHUNK_FALLBACK_MULTIPLIER)].
Proof.
  intros W. unfold _chunk_text. now rewrite (chunk_sections_wordless fuel chunk_size overlap [] W).
Qed.

Lemma heading_text_has_words :
  exists section, In section (heading_split heading_text) /\ split section <> [].
Proof.
  exists (s "Title" ++ [newline] ++ s "body text"). split.
  - vm_compute. right. now left.
  - vm_compute. discriminate.
Qed.

Lemma chunk_word_counts_witness :
  exists chunks,
    _chunk_text 10 heading_text 2 1 = Some chunks /\
    chunks <> [] /\
    Forall (fun chunk =>
              (1 <= len (split chunk) <= 2)%Z /\
              exists section, In section (heading_split heading_text) /\
                              incl (split chunk) (split section))
           chunks.
Proof.
  apply (@chunk_word_counts heading_text 2 1 10).
  - lia.
  - vm_compute. lia.
  - exact heading_text_has_words.
Defined.

Lemma chunks_partition_words_witness :
  exists chunks,
    _chunk_text 10 heading_text 2 0 = Some chunks /\
    concat (map split chunks) = concat (map split (heading_split heading_text)).
Proof.
  apply (@chunks_partition_words heading_text 2 10).
  - lia.
  - vm_compute. lia.
  - exact heading_text_has_words.
Defined.

Lemma chunk_text_fallback_witness :
  _chunk_text 0 (s "## " ++ [newline] ++ s "# ") 1 5
  = Some [py_prefix (s "## " ++ [newline] ++ s "# ") (1 * _CHUNK_FALLBACK_MULTIPLIER)].
Proof.
  apply (@chunk_text_fallback (s "## " ++ [newline] ++ s "# ") 1 5 0).
  vm_compute. repeat constructor.
Defined.

(* ================================================================== *)
(** * Properties of bulk ingest *)

Lemma str_of_nat_inj (i j : nat) : str_of_nat i = str_of_nat j -> i = j.
Proof.
  unfold str_of_nat. intros E.
  apply (f_equal string_of_list_ascii) in E.
  rewrite !string_of_list_ascii_of_string in E.
  apply (f_equal DecimalString.NilEmpty.uint_of_string) in E.
  rewrite !DecimalString.NilEmpty.usu in E. injection E as E.
  apply (f_equal Nat.of_uint) in E. now rewrite !DecimalNat.Unsigned.of_to in E.
Qed.

Lemma chunk_id_inj (source_label : str) (i j : nat) :
  chunk_id source_label i = chunk_id source_label j -> i = j.
Proof.
  unfold chunk_id. intros E. apply app_inv_head in E. apply app_inv_head in E.
  now apply str_of_nat_inj.
Qed.

Lemma _chunk_text_nonempty (fuel : nat) (text : str) (chunk_size overlap : Z)
    (chunks : list str) :
  _chunk_text fuel text chunk_size overlap = Some chunks -> chunks <> [].
Proof.
  unfold _chunk_text. destruct (chunk_sections _ _ _ _ _) as [cs|]; [|discriminate].
  intros E. injection E as <-. destruct cs; discriminate.
Qed.

Section IngestFacts.
Context {F : Type} `{Arith F} `{Log1p F} {order : SetOrder}.

(** The document that [ingest_markdown] stores for chunk [i]. *)
Lemma ingest_loop_stores (envs : nat -> Env F) (source_label : str) (total : Z)
    (chunks : list str) :
  forall (i : nat) (self : VectorStore F),
    (forall k, (k < length chunks)%nat -> disk_ok (envs (i + k)%nat) = true) ->
    exists self',
      ingest_loop envs source_label total i chunks self = (Ok tt, self') /\
      (forall k, (k < length chunks)%nat ->
         get (chunk_id source_label (i + k)) self'
         = Some (upsert_doc (envs (i + k)%nat) (chunk_id source_label (i + k)) (nth k chunks [])
                   (Some (chunk_metadata source_label (i + k) total)) None [] false)) /\
      (forall doc_id,
         (forall k, (k < length chunks)%nat -> doc_id <> chunk_id source_label (i + k)) ->
         get doc_id self' = get doc_id self).
Proof.
  induction chunks as [|chunk rest IH]; intros i self D; cbn [ingest_loop].
  - exists self. repeat split; auto. simpl. intros k K. lia.
  - pose proof (upsert_index (envs i) (chunk_id source_label i) chunk
                  (Some (chunk_metadata source_label i total)) None [] false self) as U.
    assert (D0 : disk_ok (envs i) = true).
    { specialize (D 0%nat). rewrite Nat.add_0_r in D. apply D. simpl. lia. }
    destruct (upsert (envs i) (chunk_id source_label i) chunk
                (Some (chunk_metadata source_label i total)) None [] false self)
      as [[doc|e] self1] eqn:E.
    2:{ unfold upsert, _flush in E. rewrite D0 in E. discriminate. }
    cbn [snd] in U.
    destruct (IH (S i) self1) as (self' & L & Pa & Pb).
    { intros k K. replace (S i + k)%nat with (i + S k)%nat by lia. apply D. simpl. lia. }
    exists self'. split; [exact L|]. split.
    + intros [|k] K.
      * rewrite Nat.add_0_r. rewrite Pb.
        -- unfold get. rewrite U. cbn [nth]. apply dict_get_set_same.
        -- intros k' _ Eq. apply chunk_id_inj in Eq. lia.
      * replace (i + S k)%nat with (S i + k)%nat by lia. cbn [nth]. apply Pa.
        simpl in K. lia.
    + intros doc_id N. rewrite Pb.
      * unfold get. rewrite U. apply dict_get_set_other.
        specialize (N 0%nat). rewrite Nat.add_0_r in N. intros Eq. apply N; [simpl; lia | auto].
      * intros k K. replace (S i + k)%nat with (i + S k)%nat by lia. apply N. simpl. lia.
Qed.

(** X22: when the file is read, the chunker returns and every write
    succeeds, [ingest_markdown] returns the number of chunks; chunk [i] is
    then stored under ["{label}::{i}"] with its content and position, and
    every other id of the store is left as it was, the chunks of an
    earlier, longer ingest under the same label included. *)
Theorem ingest_stores_every_chunk (envs : nat -> Env F) (fuel : nat) (text path source : str)
    (chunk_size overlap : Z) (self : VectorStore F) (chunks : list str) :
  _chunk_text fuel text chunk_size overlap = Some chunks ->
  (forall i, (i < length chunks)%nat -> disk_ok (envs i) = true) ->
  let label := str_or (Some source) path in
  exists self',
    ingest_markdown envs fuel (Contents text) path source chunk_size overlap self
    = Some (Ok (len chunks), self') /\
    (forall i, (i < length chunks)%nat ->
       get (chunk_id label i) self'
       = Some (upsert_doc (envs i) (chunk_id label i) (nth i chunks [])
                 (Some (chunk_metadata label i (len chunks))) None [] false)) /\
    (forall doc_id,
       (forall i, (i < length chunks)%nat -> doc_id <> chunk_id label i) ->
       get doc_id self' = get doc_id self).
Proof.
  intros C D label. unfold ingest_markdown. rewrite C. fold label.
  destruct (@ingest_loop_stores envs label (len chunks) chunks 0%nat self D)
    as (self' & L & Pa & Pb).
  rewrite L. exists self'. repeat split; auto.
Qed.

Lemma ingest_loop_ok_disk (envs : nat -> Env F) (source_label : str) (total : Z)
    (chunks : list str) :
  forall (i : nat) (self self' : VectorStore F) (u : unit),
    ingest_loop envs source_label total i chunks self = (Ok u, self') ->
    forall k, (k < length chunks)%nat -> disk_ok (envs (i + k)%nat) = true.
Proof.
  induction chunks as [|chunk rest IH]; intros i self self' u E k K; [simpl in K; lia|].
  cbn [ingest_loop] in E.
  destruct (disk_ok (envs i)) eqn:D0.
  2:{ unfold upsert, _flush in E. rewrite D0 in E. discriminate. }
  destruct (upsert _ _ _ _ _ _ _ _) as [[doc|e] self1]; [|discriminate].
  destruct k as [|k]; [now rewrite Nat.add_0_r|].
  replace (i + S k)%nat with (S i + k)%nat by lia.
  apply (IH (S i) self1 self' u E). simpl in K. lia.
Qed.

(** X23: [ingest_markdown] returns 0 only for a file that does not exist,
    and then leaves the store as it was; for a file that is read, an empty
    one included, the number returned is at least one and is the number of
    chunks, the first chunk is in the store under ["{label}::0"], and the
    store holds at least one document. *)
Theorem ingest_zero_only_when_absent (envs : nat -> Env F) (fuel : nat) (file : ReadOutcome)
    (path source : str) (chunk_size overlap : Z) (self self' : VectorStore F) (n : Z) :
  ingest_markdown envs fuel file path source chunk_size overlap self = Some (Ok n, self') ->
  let label := str_or (Some source) path in
  (n = 0%Z -> file = Absent /\ self' = self) /\
  (forall text, file = Contents text ->
     exists chunks,
       _chunk_text fuel text chunk_size overlap = Some chunks /\
       n = len chunks /\ (1 <= n)%Z /\
       get (chunk_id label 0) self'
       = Some (upsert_doc (envs 0%nat) (chunk_id label 0) (nth 0 chunks [])
                 (Some (chunk_metadata label 0 n)) None [] false) /\
       (1 <= count self')%Z).
Proof.
  intros E label. unfold ingest_markdown in E. destruct file as [|e|text].
  - injection E as <- <-. split; [auto|]. intros text D. discriminate.
  - discriminate.
  - fold label in E.
    destruct (_chunk_text fuel text chunk_size overlap) as [chunks|] eqn:C; [|discriminate].
    pose proof (_chunk_text_nonempty C) as N.
    destruct (ingest_loop envs label (len chunks) 0 chunks self) as [[u|e] st] eqn:L;
      [|discriminate].
    injection E as <- <-.
    assert (P : (1 <= len chunks)%Z).
    { destruct chunks; [contradiction|]. unfold len. simpl. lia. }
    split; [intros Z0; lia|].
    intros text' D. injection D as <-. exists chunks. split; [exact C|].
    split; [reflexivity|]. split; [exact P|].
    destruct (@ingest_loop_stores envs label (len chunks) chunks 0%nat self
                (ingest_loop_ok_disk L)) as (st' & L' & Pa & _).
    destruct u. rewrite L in L'. injection L' as <-.
    assert (G := Pa 0%nat ltac:(unfold len in P; lia)). cbn [plus] in G.
    split; [exact G|].
    unfold get in G. unfold count, len.
    destruct (_index st); [discriminate | simpl; lia].
Qed.
End IngestFacts.

Lemma ingest_stores_every_chunk_witness :
  exists self',
    ingest_markdown (fun _ => env0) 10 (Contents heading_text) (s "docs/a.md") [] 2 1 store_empty
    = Some (Ok (len [s "Title body"; s "body text"]), self') /\
    (forall i, (i < length [s "Title body"; s "body text"])%nat ->
       get (chunk_id (s "docs/a.md") i) self'
       = Some (upsert_doc env0 (chunk_id (s "docs/a.md") i)
                 (nth i [s "Title body"; s "body text"] [])
                 (Some (chunk_metadata (s "docs/a.md") i (len [s "Title body"; s "body text"])))
                 None [] false)) /\
    (forall doc_id,
       (forall i, (i < length [s "Title body"; s "body text"])%nat ->
          doc_id <> chunk_id (s "docs/a.md") i) ->
       get doc_id self' = get doc_id store_empty).
Proof.
  apply (@ingest_stores_every_chunk R _ _ (fun _ => env0) 10 heading_text (s "docs/a.md") []
           2 1 store_empty [s "Title body"; s "body text"]).
  - vm_compute. reflexivity.
  - intros i _. reflexivity.
Defined.

Lemma ingest_zero_only_when_absent_witness :
  exists chunks,
    _chunk_text 0 [] 512 64 = Some chunks /\
    1%Z = len chunks /\ (1 <= 1)%Z /\
    get (chunk_id (s "docs/empty.md") 0)
      (snd (upsert env0 (chunk_id (s "docs/empty.md") 0) []
              (Some (chunk_metadata (s "docs/empty.md") 0 1)) None [] false store_empty))
    = Some (upsert_doc env0 (chunk_id (s "docs/empty.md") 0) (nth 0 chunks [])
              (Some (chunk_metadata (s "docs/empty.md") 0 1)) None [] false) /\
    (1 <= count (snd (upsert env0 (chunk_id (s "docs/empty.md") 0) []
                        (Some (chunk_metadata (s "docs/empty.md") 0 1)) None [] false
                        store_empty)))%Z.
Proof.
  apply (proj2 (@ingest_zero_only_when_absent R _ _ (fun _ => env0) 0 (Contents [])
                  (s "docs/empty.md") [] 512 64 store_empty _ 1 eq_refl) [] eq_refl).
Defined.

(* ================================================================== *)
(** * Further properties of rehydration *)

Section RehydrationLaws.
Context {F : Type} `{Arith F} `{Log1p F} {order : SetOrder}.
Variable py_round : F -> Z -> F.

Lemma stat_keys_files (files : list (TelemetryFile F)) :
  forall keyed, stat_keys files = Ok keyed -> map snd keyed = files.
Proof.
  induction files as [|p files IH]; simpl; intros keyed E.
  - now injection E as <-.
  - destruct (tf_stat p) as [mtime|e]; [|discriminate].
    destruct (stat_keys files) as [keyed'|e]; [|discriminate].
    injection E as <-. simpl. now rewrite (IH keyed').
Qed.

Lemma stat_keys_raise_inv (files : list (TelemetryFile F)) (e : exn) :
  stat_keys files = Raise e -> exists p, In p files /\ tf_stat p = Raise e.
Proof.
  induction files as [|p files IH]; simpl; [discriminate|].
  destruct (tf_stat p) as [mtime|e0] eqn:S.
  - destruct (stat_keys files) as [keyed|e1]; [discriminate|].
    intros E. injection E as <-. destruct (IH eq_refl) as (q & I & Q). eauto.
  - intros E. injection E as <-. eauto.
Qed.

Lemma py_prefix_length_le (A : Type) (l : list A) (k : Z) :
  (0 <= k)%Z -> (len (py_prefix l k) <= k)%Z.
Proof.
  intros K. rewrite (py_prefix_firstn l K). unfold len. rewrite length_firstn. lia.
Qed.

Lemma flat_map_length_le (A B : Type) (f : A -> list B) (l : list A) :
  (forall x, length (f x) <= 1)%nat -> (length (flat_map f l) <= length l)%nat.
Proof.
  intros L. induction l as [|x l IH]; simpl; auto.
  rewrite length_app. specialize (L x). lia.
Qed.

Lemma _load_recent_telemetry_length (w : World F) (max_entries : Z) (entries : list json) :
  _load_recent_telemetry w max_entries = Ok entries ->
  (0 <= max_entries)%Z -> (len entries <= max_entries)%Z.
Proof.
  unfold _load_recent_telemetry. destruct (tel_exists w) as [[|]|e0]; [| |discriminate].
  2:{ intros E. injection E as <-. intros K. exact K. }
  destruct (tel_glob w) as [files|e1]; [|discriminate].
  destruct (stat_keys files) as [keyed|e] eqn:S; [|discriminate].
  intros E. injection E as <-. intros K.
  eapply Z.le_trans; [|apply (@py_prefix_length_le _ (map snd (sort_desc fst keyed)) max_entries K)].
  unfold len. apply inj_le. apply flat_map_length_le.
  intros p. destruct (tf_load p); simpl; lia.
Qed.

(** X24: every entry that [_load_recent_telemetry] returns is what one of
    the listed files parsed to; there are at most [max_entries] of them for
    a non-negative [max_entries], and none without the directory. *)
Theorem telemetry_entries_sound (w : World F) (max_entries : Z) (entries : list json) :
  _load_recent_telemetry w max_entries = Ok entries ->
  Forall (fun data => exists files p,
            tel_glob w = Ok files /\ In p files /\ tf_load p = Ok data) entries /\
  ((0 <= max_entries)%Z -> (len entries <= max_entries)%Z) /\
  (tel_exists w = Ok false -> entries = []).
Proof.
  intros E0. pose proof (_load_recent_telemetry_length E0) as Len. revert E0.
  unfold _load_recent_telemetry. destruct (tel_exists w) as [[|]|e0]; [| |discriminate].
  2:{ intros E. injection E as <-. split; [constructor|]. split; [|reflexivity].
      intros K. exact K. }
  destruct (tel_glob w) as [files|e1]; [|discriminate].
  destruct (stat_keys files) as [keyed|e] eqn:S; [|discriminate].
  intros E. injection E as E. subst entries. split; [|split; [|discriminate]].
  - apply Forall_forall. intros data I. apply in_flat_map in I as (p & Ip & Id).
    exists files, p. split; [reflexivity|]. split.
    + apply py_slice_In in Ip. apply in_map_iff in Ip as (kv & <- & Ik).
      rewrite <- (stat_keys_files S). apply in_map.
      eapply Permutation_in; [apply Permutation_sym, sort_desc_perm_any | exact Ik].
    + destruct (tf_load p) as [d|e]; simpl in Id; [|destruct Id].
      destruct Id as [->|[]]. reflexivity.
  - exact Len.
Qed.

(** X25: the flags of the snapshot record: it is available exactly when
    the file exists and both its [stat] and its read succeed, the content
    then being the text read; an unavailable snapshot has no content and
    carries a warning; a staleness warning comes with an available
    snapshot whose age exceeds the threshold. *)
Theorem active_memory_flags (w : World F) (am : ActiveMemory F) :
  _load_active_memory py_round w = Ok am ->
  (available am = true <->
   am_exists w = Ok true /\ (exists age, am_age w = Ok age) /\ am_read w = Ok (am_content am)) /\
  (available am = false -> am_content am = [] /\ warning am <> None) /\
  (forall a t, warning am = Some (ActiveMemoryStale a t) ->
     available am = true /\ am_age w = Ok a /\ t = _MEMORY_FRESHNESS_HOURS w /\ fltb t a = true).
Proof.
  unfold _load_active_memory. destruct (am_exists w) as [[|]|e0]; [| |discriminate].
  2:{ intros E. injection E as <-. cbn. split; [|split].
      - split; [intros D | intros (D1 & _)]; discriminate.
      - intros _. split; [reflexivity | discriminate].
      - intros a t D. discriminate. }
  destruct (am_age w) as [age|[m|m]].
  - destruct (am_read w) as [text|[m|m]]; cbn [except_OSError]; [| |discriminate];
      intros E; injection E as <-; cbn; (split; [|split]).
    + split; [intros _; repeat split; eauto | reflexivity].
    + intros D. discriminate.
    + intros a t D. destruct (fltb (_MEMORY_FRESHNESS_HOURS w) age) eqn:L; [|discriminate].
      injection D as <- <-. auto.
    + split; [intros D | intros (_ & _ & D)]; discriminate.
    + intros _. split; [reflexivity | discriminate].
    + intros a t D. discriminate.
  - intros E. injection E as <-. cbn. split; [|split].
    + split; [intros D | intros (_ & (age & D) & _)]; discriminate.
    + intros _. split; [reflexivity | discriminate].
    + intros a t D. discriminate.
  - discriminate.
Qed.
End RehydrationLaws.

Section RehydrateLaws.
Context {F : Type} `{Arith F} `{Log1p F} {order : SetOrder}.
Variable py_round : F -> Z -> F.

Lemma hits_bounded (env : Env F) (query_text : str) (top_k : Z) (vs : VectorStore F) :
  ((0 <= top_k)%Z -> (len (map (hit_of py_round) (query env query_text top_k None vs)) <= top_k)%Z) /\
  Forall (fun hit => (len (hit_content hit) <= 400)%Z)
         (map (hit_of py_round) (query env query_text top_k None vs)).
Proof.
  split.
  - intros K. unfold len. rewrite length_map. rewrite query_unfold.
    destruct (negb (truthy (_index vs))); [simpl; lia|].
    apply (@py_prefix_length_le _ _ top_k K).
  - apply Forall_map, Forall_forall. intros [score doc] _. cbn [hit_of hit_content].
    now apply py_prefix_length_le.
Qed.

(** X26: a vector store that cannot be opened does not stop [rehydrate]:
    the bundle it returns has no hits and its first warning reports the
    exception. *)
Theorem rehydrate_absorbs_store_failure (env : Env F) (w : World F) (query_text : str)
    (top_k : Z) (include_active_memory include_telemetry include_org_index : bool)
    (e : exn) (bundle : ContextBundle F) :
  vs_open w = Raise e ->
  rehydrate py_round env w query_text top_k
    include_active_memory include_telemetry include_org_index None = Ok bundle ->
  vector_hits bundle = [] /\
  exists rest, warnings bundle = VectorStoreUnavailable e :: rest.
Proof.
  intros V E. unfold rehydrate in E. rewrite V in E. cbn [except_Exception] in E.
  destruct include_active_memory.
  - destruct (_load_active_memory py_round w) as [am|e1]; [|discriminate].
    destruct (if include_telemetry then _ else _) as [runs|e2]; [|discriminate].
    destruct (if include_org_index then _ else _) as [repos|e3]; [|discriminate].
    injection E as <-. cbn. split; [reflexivity|]. destruct (warning am); cbn; eauto.
  - destruct (if include_telemetry then _ else _) as [runs|e2]; [|discriminate].
    destruct (if include_org_index then _ else _) as [repos|e3]; [|discriminate].
    injection E as <-. cbn. eauto.
Qed.

(** X27: the sizes of a bundle: for a non-negative [top_k] at most [top_k]
    hits, each with at most 400 characters of content, at most five recent
    runs and at most two warnings; the query and the clock reading are
    passed through. *)
Theorem rehydrate_bundle_bounds (env : Env F) (w : World F) (query_text : str)
    (top_k : Z) (include_active_memory include_telemetry include_org_index : bool)
    (store : option (VectorStore F)) (bundle : ContextBundle F) :
  rehydrate py_round env w query_text top_k
    include_active_memory include_telemetry include_org_index store = Ok bundle ->
  ((0 <= top_k)%Z -> (len (vector_hits bundle) <= top_k)%Z) /\
  Forall (fun hit => (len (hit_content hit) <= 400)%Z) (vector_hits bundle) /\
  (len (recent_runs bundle) <= 5)%Z /\
  (len (warnings bundle) <= 2)%Z /\
  bundle_query bundle = query_text /\
  rehydrated_at bundle = now_iso env.
Proof.
  intros E. unfold rehydrate in E.
  set (first := except_Exception _ _) in E.
  assert (P : ((0 <= top_k)%Z -> (len (fst first) <= top_k)%Z) /\
              Forall (fun hit => (len (hit_content hit) <= 400)%Z) (fst first) /\
              (len (snd first) <= 1)%Z).
  { unfold first. destruct store as [vs|]; [|destruct (vs_open w) as [file|e]];
      cbn [except_Exception fst snd].
    - destruct (hits_bounded env query_text top_k vs). repeat split; auto. cbn. lia.
    - destruct (hits_bounded env query_text top_k (VectorStore_init env file)).
      repeat split; auto. cbn. lia.
    - repeat split; [cbn; lia | constructor | cbn; lia]. }
  destruct first as [hits warns]. cbn [fst snd] in P. destruct P as (P1 & P2 & P3).
  assert (T : forall runs, (if include_telemetry then _load_recent_telemetry w 5 else Ok [])
                           = Ok runs -> (len runs <= 5)%Z).
  { intros runs R. destruct include_telemetry.
    - now apply (_load_recent_telemetry_length R).
    - injection R as <-. cbn. lia. }
  destruct include_active_memory.
  - destruct (_load_active_memory py_round w) as [am|e1]; [|discriminate].
    destruct (if include_telemetry then _ else _) as [runs|e2] eqn:R; [|discriminate].
    destruct (if include_org_index then _ else _) as [repos|e3]; [|discriminate].
    injection E as <-. cbn. repeat split; auto.
    destruct (warning am); auto; [|lia]. unfold len in *. rewrite length_app. simpl. lia.
  - destruct (if include_telemetry then _ else _) as [runs|e2] eqn:R; [|discriminate].
    destruct (if include_org_index then _ else _) as [repos|e3]; [|discriminate].
    injection E as <-. cbn. repeat split; auto. lia.
Qed.

(** X28: the only exceptions that leave [rehydrate]: one raised by an
    [exists] call on the snapshot, the telemetry directory or the
    repository index; one that is not an [OSError], raised by the [stat] or
    the read of an existing snapshot; one raised while the telemetry
    directory is listed; and one raised by the [stat] of a listed telemetry
    file.  Each comes from a source that the call was asked to include. *)
Theorem rehydrate_raises_only (env : Env F) (w : World F) (query_text : str)
    (top_k : Z) (include_active_memory include_telemetry include_org_index : bool)
    (store : option (VectorStore F)) (e : exn) :
  rehydrate py_round env w query_text top_k
    include_active_memory include_telemetry include_org_index store = Raise e ->
  (include_active_memory = true /\
   (am_exists w = Raise e \/
    (am_exists w = Ok true /\ (exists m, e = OtherError m) /\
     (am_age w = Raise e \/ am_read w = Raise e)))) \/
  (include_telemetry = true /\
   (tel_exists w = Raise e \/
    (tel_exists w = Ok true /\
     (tel_glob w = Raise e \/
      exists files p, tel_glob w = Ok files /\ In p files /\ tf_stat p = Raise e)))) \/
  (include_org_index = true /\ idx_exists w = Raise e).
Proof.
  intros E. unfold rehydrate in E.
  destruct (except_Exception _ _) as [hits warns].
  assert (A : forall e1, _load_active_memory py_round w = Raise e1 ->
              am_exists w = Raise e1 \/
              (am_exists w = Ok true /\ (exists m, e1 = OtherError m) /\
               (am_age w = Raise e1 \/ am_read w = Raise e1))).
  { intros e1. unfold _load_active_memory.
    destruct (am_exists w) as [[|]|e0]; [|discriminate|].
    - destruct (am_age w) as [age|[m|m]]; [|discriminate|].
      + destruct (am_read w) as [text|[m|m]]; cbn [except_OSError]; try discriminate.
        intros D. injection D as <-. right. eauto 6.
      + intros D. injection D as <-. right. eauto 6.
    - intros D. injection D as <-. now left. }
  assert (T : forall e2, (if include_telemetry then _load_recent_telemetry w 5 else Ok [])
                         = Raise e2 ->
              include_telemetry = true /\
              (tel_exists w = Raise e2 \/
               (tel_exists w = Ok true /\
                (tel_glob w = Raise e2 \/
                 exists files p, tel_glob w = Ok files /\ In p files /\ tf_stat p = Raise e2)))).
  { intros e2 D0. destruct include_telemetry; [|discriminate]. split; [reflexivity|].
    revert D0. unfold _load_recent_telemetry.
    destruct (tel_exists w) as [[|]|e0]; [|discriminate|].
    - destruct (tel_glob w) as [files|e1].
      + destruct (stat_keys files) as [keyed|e3] eqn:S; [discriminate|].
        intros D. injection D as <-. right. split; [reflexivity|]. right.
        destruct (stat_keys_raise_inv S) as (p & I & P). eauto.
      + intros D. injection D as <-. right. split; [reflexivity|]. now left.
    - intros D. injection D as <-. now left. }
  assert (O : forall e3,
             (if include_org_index then
                match _load_org_index w with
                | Ok (JObj members) => Ok (json_get (s "repositories") members (JArr []))
                | Ok (JArr items) => Ok (JArr items)
                | Ok _ => Ok (JArr [])
                | Raise e => Raise e
                end
              else Ok (JArr [])) = Raise e3 ->
             include_org_index = true /\ idx_exists w = Raise e3).
  { intros e3 D0. destruct include_org_index; [|discriminate]. split; [reflexivity|].
    revert D0. unfold _load_org_index.
    destruct (idx_exists w) as [[|]|e0].
    - destruct (except_Exception _ _); discriminate.
    - discriminate.
    - intros D. now injection D as <-. }
  destruct include_active_memory.
  - destruct (_load_active_memory py_round w) as [am|e1] eqn:L.
    + destruct (if include_telemetry then _ else _) as [runs|e2] eqn:R.
      * destruct (if include_org_index then _ else _) as [repos|e3] eqn:Q; [discriminate|].
        injection E as <-. right. right. now apply O.
      * injection E as <-. right. left. now apply T.
    + injection E as <-. left. split; [reflexivity|]. now apply A.
  - destruct (if include_telemetry then _ else _) as [runs|e2] eqn:R.
    + destruct (if include_org_index then _ else _) as [repos|e3] eqn:Q; [discriminate|].
      injection E as <-. right. right. now apply O.
    + injection E as <-. right. left. now apply T.
Qed.
End RehydrateLaws.

Lemma telemetry_entries_sound_witness :
  Forall (fun data => exists files p,
            tel_glob world_store_unreadable = Ok files /\ In p files /\ tf_load p = Ok data)
         [JObj [(s "run_id", JStr (s "run-1"))]] /\
  ((0 <= 5)%Z -> (len [JObj [(s "run_id", JStr (s "run-1"))]] <= 5)%Z) /\
  (tel_exists world_store_unreadable = Ok false -> [JObj [(s "run_id", JStr (s "run-1"))]] = []).
Proof.
  apply (@telemetry_entries_sound R _ world_store_unreadable 5
           [JObj [(s "run_id", JStr (s "run-1"))]]).
  reflexivity.
Defined.

Lemma stale_snapshot_loads :
  _load_active_memory (fun x _ => x) world_stale_snapshot
  = Ok {| available := true; am_content := s "# ACTIVE MEMORY"; age_hours := Some 3%R;
          warning := Some (ActiveMemoryStale 3%R 2%R) |}.
Proof.
  unfold _load_active_memory. cbn. destruct (Rlt_dec 2 3) as [_|N]; [reflexivity | lra].
Qed.

Lemma active_memory_flags_witness :
  (true = true <->
   am_exists world_stale_snapshot = Ok true /\
   (exists age, am_age world_stale_snapshot = Ok age) /\
   am_read world_stale_snapshot = Ok (s "# ACTIVE MEMORY")) /\
  (true = false ->
   s "# ACTIVE MEMORY" = [] /\ Some (ActiveMemoryStale 3%R 2%R) <> None).
Proof.
  destruct (@active_memory_flags R _ (fun x _ => x) world_stale_snapshot _ stale_snapshot_loads)
    as (A & B & _).
  exact (conj A B).
Defined.

Lemma rehydrate_absorbs_store_failure_witness :
  exists bundle,
    rehydrate (order := key_order) (fun x _ => x) env0 world_store_unreadable (s "plan a discovery run") 10
      true true true None = Ok bundle /\
    vector_hits bundle = [] /\
    exists rest,
      warnings bundle
      = VectorStoreUnavailable (OSError (s "PermissionError: store.jsonl")) :: rest.
Proof.
  eexists. split; [reflexivity|].
  apply (@rehydrate_absorbs_store_failure R _ _ key_order (fun x _ => x) env0 world_store_unreadable
           (s "plan a discovery run") 10 true true true
           (OSError (s "PermissionError: store.jsonl")) _ eq_refl).
  reflexivity.
Defined.

Lemma rehydrate_bundle_bounds_witness :
  exists bundle,
    rehydrate (order := key_order) (fun x _ => x) env0 world_store_unreadable (s "plan a discovery run") 10
      true true true (Some store_empty) = Ok bundle /\
    (len (vector_hits bundle) <= 10)%Z /\
    (len (recent_runs bundle) <= 5)%Z /\
    (len (warnings bundle) <= 2)%Z.
Proof.
  eexists. split; [reflexivity|].
  destruct (@rehydrate_bundle_bounds R _ _ key_order (fun x _ => x) env0 world_store_unreadable
              (s "plan a discovery run") 10 true true true (Some store_empty) _ eq_refl)
    as (B1 & _ & B3 & B4 & _).
  repeat split; [apply B1; lia | exact B3 | exact B4].
Defined.

Lemma rehydrate_raises_only_witness :
  (true = true /\
   (am_exists world_snapshot_fault = Raise (OtherError (s "MemoryError")) \/
    (am_exists world_snapshot_fault = Ok true /\
     (exists m, OtherError (s "MemoryError") = OtherError m) /\
     (am_age world_snapshot_fault = Raise (OtherError (s "MemoryError")) \/
      am_read world_snapshot_fault = Raise (OtherError (s "MemoryError")))))) \/
  (false = true /\
   (tel_exists world_snapshot_fault = Raise (OtherError (s "MemoryError")) \/
    (tel_exists world_snapshot_fault = Ok true /\
     (tel_glob world_snapshot_fault = Raise (OtherError (s "MemoryError")) \/
      exists files p, tel_glob world_snapshot_fault = Ok files /\ In p files /\
                      tf_stat p = Raise (OtherError (s "MemoryError")))))) \/
  (true = true /\ idx_exists world_snapshot_fault = Raise (OtherError (s "MemoryError"))).
Proof.
  apply (@rehydrate_raises_only R _ _ key_order (fun x _ => x) env0 world_snapshot_fault
           (s "plan a discovery run") 10 true false true None (OtherError (s "MemoryError"))).
  reflexivity.
Defined.

(* ================================================================== *)
(** * Symmetry of the score *)

Section SymmetryFacts.
Context {order : SetOrder}.
Local Open Scope R_scope.

Lemma common_keys_perm (a b : dict R) : Permutation (common_keys a b) (common_keys b a).
Proof.
  apply NoDup_Permutation; try apply common_keys_NoDup.
  intros k. rewrite !common_keys_in. tauto.
Qed.

(** X29: over the reals the score does not depend on which of the two
    vectors is the query: [_cosine_sparse a b = _cosine_sparse b a] for
    dictionaries with distinct keys. *)
Theorem cosine_symmetric (a b : dict R) :
  dict_wf a -> dict_wf b -> _cosine_sparse a b = _cosine_sparse b a.
Proof.
  intros Wa Wb. rewrite !_cosine_sparse_R.
  pose proof (common_keys_perm a b) as P.
  assert (D : Rsum (map (fun k => dict_get_or k a 0 * dict_get_or k b 0) (common_keys a b))
              = Rsum (map (fun k => dict_get_or k b 0 * dict_get_or k a 0) (common_keys b a))).
  { rewrite (Rsum_perm (Permutation_map _ P)). f_equal. apply map_ext. intros k. lra. }
  destruct (common_keys a b) as [|k ks] eqn:Ea.
  - apply Permutation_nil in P. now rewrite P.
  - destruct (common_keys b a) as [|k' ks'] eqn:Eb.
    + apply Permutation_sym, Permutation_nil in P. discriminate.
    + rewrite D.
      destruct (Req_dec_T (R_sqrt.sqrt (sq_norm a)) 0), (Req_dec_T (R_sqrt.sqrt (sq_norm b)) 0);
        try reflexivity.
      now rewrite (Rmult_comm (R_sqrt.sqrt (sq_norm a))).
Qed.
End SymmetryFacts.

Lemma cosine_symmetric_witness :
  _cosine_sparse (F := R) (order := key_order) (_tfidf_embed (s "tap protocol governs"))
                          (_tfidf_embed (s "protocol v2"))
  = _cosine_sparse (order := key_order) (_tfidf_embed (s "protocol v2"))
      (_tfidf_embed (s "tap protocol governs")).
Proof.
  apply (@cosine_symmetric key_order (_tfidf_embed (s "tap protocol governs"))
                           (_tfidf_embed (s "protocol v2"))).
  - apply _tfidf_embed_wf.
  - apply _tfidf_embed_wf.
Defined.
